(** * Generalised tic-tac-toe: the board and the move-selection engine

    A shallow embedding of [src/Board.js] and [src/AI.js], and, at the end,
    of the settings menu of the [UI] class and of the bookkeeping of the
    [Game] class (outcome of a turn, statistics).

    JavaScript numbers that hold coordinates, sizes, depths and scores are
    integer valued throughout the two classes and are modelled as [Z]
    (exact below 2^53); [-Infinity] and [Infinity] are the two extra points
    of [num].  Markers are JavaScript strings.  Arrays are dense lists; an
    array read outside the list yields [undefined] ([None]), and a property
    read on [undefined] raises a [TypeError].

    The board is modelled twice.  [Board] is the value held by one board
    object whose arrays nobody else references, with the methods as
    functions on that value.  [Heap] is the object store: a board object
    points to an array of row arrays and to a history array, and the methods
    read and write through these references.  The two are related by
    [repr_at]: the lemmas [heap_placeMarker_free], [heap_undoMove_placed],
    [heap_checkWin_repr], [heap_clone_spec] and their neighbours state that
    a method on the store does to the object what the function does to the
    value.

    The engine of [AI.js] is embedded over the object store, so that the
    clone it works on and the caller's board are different objects.
    [Math.random()] is an argument [u] of the engine, a rational in [0, 1).
    The recursion of [minimax] is bounded by fuel; [minimax_spec] shows that
    fuel above [maxDepth - depth] is enough.  The flag [prune] of [minimax]
    switches the cutoffs [beta <= alpha] off; the source is [prune = true]. *)

From Stdlib Require Import ZArith QArith Qround Lia Sorted.
From stdpp Require Import base tactics option list numbers strings gmap.
From stdpp Require sorting.

Local Open Scope Z_scope.

(** ** Outcomes of a JavaScript computation *)

Inductive err : Type :=
| TypeError      (* a property read or write on [undefined] *)
| RangeError     (* [Array(n)] with n negative *)
| SparseWrite    (* an array write at an index outside the array: JavaScript
                    would extend the array or add a property to it; the dense
                    lists of this model do not represent the result *)
| BadRef         (* a reference that does not hold an object of the expected class *)
| OutOfFuel.     (* the recursion budget of the model is exhausted *)

Inductive res (A : Type) : Type :=
| Ok (a : A)
| Err (e : err).
Arguments Ok {A} a.
Arguments Err {A} e.

#[global] Instance res_ret : MRet res := fun A a => Ok a.
#[global] Instance res_bind : MBind res := fun A B f m =>
  match m with
  | Ok a => f a
  | Err e => Err e
  end.

Definition is_ok {A} (m : res A) : Prop := exists a, m = Ok a.

(** ** Loops *)

(** [for (i = lo; i < hi; i++)] *)
Definition range (lo hi : Z) : list Z := seqZ lo (hi - lo).

(** [for (i = hi; i >= lo; i--)] *)
Definition range_down (hi lo : Z) : list Z := reverse (seqZ lo (hi - lo + 1)).

(** A loop that clears a flag and breaks at the first element failing the test. *)
Fixpoint all_of {A} (f : A -> res bool) (l : list A) : res bool :=
  match l with
  | [] => Ok true
  | x :: l' => b ← f x; if b : bool then all_of f l' else Ok false
  end.

(** A loop that returns [true] from the enclosing function at the first
    element passing the test. *)
Fixpoint some_of {A} (f : A -> res bool) (l : list A) : res bool :=
  match l with
  | [] => Ok false
  | x :: l' => b ← f x; if b : bool then Ok true else some_of f l'
  end.

(** A loop that updates an accumulator. *)
Fixpoint foldM {A S} (f : S -> A -> res S) (s : S) (l : list A) : res S :=
  match l with
  | [] => Ok s
  | x :: l' => s' ← f s x; foldM f s' l'
  end.

(** ** Data *)

(** The empty cell. *)
Definition EMPTY : string := " ".
Definition MARK_O : string := "O".
Definition MARK_X : string := "X".

(** [{ row, col, player }] *)
Record Move : Type := mkMove { mv_row : Z; mv_col : Z; mv_player : string }.

(** [{ row, col }] *)
Record Cell : Type := mkCell { row : Z; col : Z }.

#[global] Instance Move_eq_dec : EqDecision Move.
Proof. solve_decision. Defined.
#[global] Instance Cell_eq_dec : EqDecision Cell.
Proof. solve_decision. Defined.

(** [arr[i]] for an integer [i]: [None] is [undefined]. *)
Definition idx {A} (l : list A) (i : Z) : option A :=
  if decide (0 <= i) then l !! Z.to_nat i else None.

(** [arr[i] = x]; the write is only modelled for [i] inside the array. *)
Definition upd {A} (l : list A) (i : Z) (x : A) : res (list A) :=
  if decide (0 <= i < Z.of_nat (length l)) then Ok (<[Z.to_nat i := x]> l)
  else Err SparseWrite.

(** [v === s] where [v] may be [undefined]. *)
Definition is_str (v : option string) (s : string) : bool :=
  bool_decide (v = Some s).
Arguments is_str : simpl never.

(** ** Methods that only read the grid

    They are written once, over the three things they read: [this.size],
    [this.winLength] and the reader [this.board[row][col]]. *)

Section ReadOnly.
Variable size winLength : Z.
Variable rd : Z -> Z -> res (option string).

(** The innermost loop of [checkWin]: [win] stays true iff every cell of
    the window holds [player]; [at k] is the k-th cell of the window. *)
Definition window (player : string) (at_k : Z -> Z * Z) : res bool :=
  all_of (fun k => v ← rd (at_k k).1 (at_k k).2; Ok (is_str v player))
         (range 0 winLength).

Definition checkWin_on (player : string) : res bool :=
  (* horizontal *)
  h ← some_of (fun row => some_of (fun col =>
         window player (fun k => (row, col + k)))
         (range 0 (size - winLength + 1))) (range 0 size);
  if h : bool then Ok true else
  (* vertical *)
  v ← some_of (fun col => some_of (fun row =>
         window player (fun k => (row + k, col)))
         (range 0 (size - winLength + 1))) (range 0 size);
  if v : bool then Ok true else
  (* diagonal, top-left to bottom-right *)
  d ← some_of (fun row => some_of (fun col =>
         window player (fun k => (row + k, col + k)))
         (range 0 (size - winLength + 1))) (range 0 (size - winLength + 1));
  if d : bool then Ok true else
  (* diagonal, top-right to bottom-left *)
  a ← some_of (fun row => some_of (fun col =>
         window player (fun k => (row + k, col - k)))
         (range_down (size - 1) (winLength - 1))) (range 0 (size - winLength + 1));
  if a : bool then Ok true else
  Ok false.

Definition checkDraw_on : res bool :=
  e ← some_of (fun row => some_of (fun col =>
         v ← rd row col; Ok (is_str v EMPTY))
         (range 0 size)) (range 0 size);
  Ok (negb e).

Definition getEmptyCells_on : res (list Cell) :=
  foldM (fun emptyCells row => foldM (fun emptyCells col =>
         v ← rd row col;
         Ok (if is_str v EMPTY then emptyCells ++ [mkCell row col] else emptyCells))
         emptyCells (range 0 size)) [] (range 0 size).
End ReadOnly.

(** ** The board as a value *)

Record Board : Type := mkBoard {
  size : Z;
  winLength : Z;
  board : list (list string);
  moveHistory : list Move;
  currentPlayer : string
}.

(** [this.board[row][col]] *)
Definition cell (g : list (list string)) (r c : Z) : res (option string) :=
  match idx g r with
  | None => Err TypeError
  | Some rw => Ok (idx rw c)
  end.

(** [this.board[row][col] = v] *)
Definition set_cell (g : list (list string)) (r c : Z) (v : string)
  : res (list (list string)) :=
  match idx g r with
  | None => Err TypeError
  | Some rw => rw' ← upd rw c v; upd g r rw'
  end.

(** [Array(n).fill(x)], for [n] below 2^32.  From 2^32 on, which is more
    than an array can hold, [Array(n)] raises a [RangeError] as well; that
    is not modelled, and what is stated of the constructor is stated for
    [n] below 2^32.  The program builds boards of the sizes 3 to 7. *)
Definition array_fill {A} (n : Z) (x : A) : res (list A) :=
  if decide (0 <= n) then Ok (replicate (Z.to_nat n) x) else Err RangeError.

(** [new Board(size, winLength)], which ends in [resetBoard()]. *)
Definition newBoard (size winLength : Z) : res Board :=
  rw ← array_fill size EMPTY;
  g ← array_fill size rw;
  Ok (mkBoard size winLength g [] MARK_O).

Definition placeMarker (b : Board) (row col : Z) (player : string)
  : res (bool * Board) :=
  if bool_decide (row < 0) || bool_decide (row >= size b)
     || bool_decide (col < 0) || bool_decide (col >= size b)
  then Ok (false, b)
  else
    v ← cell (board b) row col;
    if negb (is_str v EMPTY) then Ok (false, b)
    else
      g ← set_cell (board b) row col player;
      Ok (true, mkBoard (size b) (winLength b) g
                        (moveHistory b ++ [mkMove row col player])
                        (currentPlayer b)).

Definition undoMove (b : Board) : res (option Move * Board) :=
  match last (moveHistory b) with
  | None => Ok (None, b)
  | Some lastMove =>
      g ← set_cell (board b) (mv_row lastMove) (mv_col lastMove) EMPTY;
      Ok (Some lastMove,
          mkBoard (size b) (winLength b) g
                  (removelast (moveHistory b)) (currentPlayer b))
  end.

Definition switchPlayer (b : Board) : Board :=
  mkBoard (size b) (winLength b) (board b) (moveHistory b)
          (if bool_decide (currentPlayer b = MARK_O) then MARK_X else MARK_O).

Definition checkWin (b : Board) (player : string) : res bool :=
  checkWin_on (size b) (winLength b) (cell (board b)) player.

Definition checkDraw (b : Board) : res bool :=
  checkDraw_on (size b) (cell (board b)).

Definition getEmptyCells (b : Board) : res (list Cell) :=
  getEmptyCells_on (size b) (cell (board b)).

(** Every row array exists and has [size] cells. *)
Definition wf (b : Board) : Prop :=
  Z.of_nat (length (board b)) = size b /\
  Forall (fun rw => Z.of_nat (length rw) = size b) (board b).

(** * Properties of the board value *)

Lemma elem_of_range lo hi k : k ∈ range lo hi <-> lo <= k < hi.
Proof. unfold range. rewrite elem_of_seqZ. lia. Qed.

Lemma elem_of_range_down hi lo k : k ∈ range_down hi lo <-> lo <= k <= hi.
Proof. unfold range_down. rewrite elem_of_reverse, elem_of_seqZ. lia. Qed.

Lemma all_of_spec {A} (f : A -> res bool) (l : list A) :
  (forall x, x ∈ l -> is_ok (f x)) ->
  exists r, all_of f l = Ok r /\ (r = true <-> forall x, x ∈ l -> f x = Ok true).
Proof.
  induction l as [|x l IH]; intros Hok; simpl.
  - exists true. split; [done|]. split; [|done]. intros _ x Hx. inversion Hx.
  - destruct (Hok x) as [b Hb]; [left|]. rewrite Hb. simpl.
    destruct IH as (r & Hr & Hiff); [intros; apply Hok; by right|].
    destruct b.
    + exists r. split; [done|]. rewrite Hiff. split.
      * intros H y Hy. apply elem_of_cons in Hy as [->|Hy]; auto.
      * intros H y Hy. apply H. by right.
    + exists false. split; [done|]. split; [done|].
      intros H. specialize (H x). rewrite Hb in H. discriminate H. left.
Qed.

Lemma some_of_spec {A} (f : A -> res bool) (l : list A) :
  (forall x, x ∈ l -> is_ok (f x)) ->
  exists r, some_of f l = Ok r /\ (r = true <-> exists x, x ∈ l /\ f x = Ok true).
Proof.
  induction l as [|x l IH]; intros Hok; simpl.
  - exists false. split; [done|]. split; [done|]. intros (x & Hx & _). inversion Hx.
  - destruct (Hok x) as [b Hb]; [left|]. rewrite Hb. simpl.
    destruct IH as (r & Hr & Hiff); [intros; apply Hok; by right|].
    destruct b.
    + exists true. split; [done|]. split; [|done]. intros _. exists x. split; [left|done].
    + exists r. split; [done|]. rewrite Hiff. split.
      * intros (y & Hy & Hfy). exists y. split; [by right|done].
      * intros (y & Hy & Hfy). apply elem_of_cons in Hy as [->|Hy].
        -- rewrite Hb in Hfy. discriminate.
        -- eauto.
Qed.

Lemma idx_Some {A} (l : list A) (i : Z) :
  0 <= i < Z.of_nat (length l) -> exists x, idx l i = Some x /\ l !! Z.to_nat i = Some x.
Proof.
  intros Hi. unfold idx. rewrite decide_True by lia.
  destruct (lookup_lt_is_Some_2 l (Z.to_nat i)) as [x Hx]; [lia|]. eauto.
Qed.

Lemma idx_None {A} (l : list A) (i : Z) :
  ~ (0 <= i < Z.of_nat (length l)) -> idx l i = None.
Proof.
  intros Hi. unfold idx. case_decide; [|done].
  apply lookup_ge_None_2. lia.
Qed.

Lemma idx_is_Some {A} (l : list A) (i : Z) x :
  idx l i = Some x -> 0 <= i < Z.of_nat (length l).
Proof.
  unfold idx. case_decide; [|done]. intros Hl%lookup_lt_Some. lia.
Qed.

(** On a well-formed board every cell inside the grid reads as a string. *)
Lemma cell_in_range (b : Board) (r c : Z) :
  wf b -> 0 <= r < size b -> 0 <= c < size b ->
  exists s, cell (board b) r c = Ok (Some s).
Proof.
  intros [Hlen Hrows] Hr Hc. unfold cell.
  destruct (idx_Some (board b) r) as (rw & -> & Hrw); [lia|].
  rewrite Forall_forall in Hrows.
  assert (Z.of_nat (length rw) = size b) as Hl
    by (apply Hrows; eapply list_elem_of_lookup_2; eauto).
  destruct (idx_Some rw c) as (s & -> & _); [lia|]. eauto.
Qed.

(** A run: [winLength] consecutive cells inside the grid, from [(r, c)] in
    steps of [(dr, dc)], all holding [p]. *)
Definition holds (b : Board) (p : string) (r c : Z) : Prop :=
  0 <= r < size b /\ 0 <= c < size b /\ cell (board b) r c = Ok (Some p).

Definition run_from (b : Board) (p : string) (r c dr dc : Z) : Prop :=
  forall k, 0 <= k < winLength b -> holds b p (r + k * dr) (c + k * dc).

Definition has_run (b : Board) (p : string) : Prop :=
  exists r c,
    run_from b p r c 0 1        (* horizontal *)
    \/ run_from b p r c 1 0     (* vertical *)
    \/ run_from b p r c 1 1     (* diagonal, down-right *)
    \/ run_from b p r c 1 (-1). (* anti-diagonal, down-left *)

Lemma window_spec (b : Board) (p : string) (at_k : Z -> Z * Z) :
  wf b ->
  (forall k, 0 <= k < winLength b ->
     0 <= (at_k k).1 < size b /\ 0 <= (at_k k).2 < size b) ->
  exists w, window (winLength b) (cell (board b)) p at_k = Ok w /\
    (w = true <-> forall k, 0 <= k < winLength b -> holds b p (at_k k).1 (at_k k).2).
Proof.
  intros Hwf Hin. unfold window.
  destruct (all_of_spec
    (fun k => v ← cell (board b) (at_k k).1 (at_k k).2; Ok (is_str v p))
    (range 0 (winLength b))) as (w & Hw & Hiff).
  { intros k Hk%elem_of_range. destruct (Hin k Hk) as [Hr Hc].
    destruct (cell_in_range b _ _ Hwf Hr Hc) as [s ->]. by eexists. }
  exists w. split; [done|]. rewrite Hiff. split.
  - intros H k Hk. destruct (Hin k Hk) as [Hr Hc]. repeat split; try lia.
    specialize (H k). rewrite elem_of_range in H. specialize (H Hk).
    destruct (cell_in_range b _ _ Hwf Hr Hc) as [s Hs]. rewrite Hs in H |- *.
    simpl in H. unfold is_str in H. injection H as H.
    apply bool_decide_eq_true in H. by rewrite H.
  - intros H k Hk%elem_of_range. destruct (H k Hk) as (_ & _ & ->). simpl.
    unfold is_str. by rewrite bool_decide_eq_true_2.
Qed.

(** One of the four double loops of [checkWin]. *)
Lemma scan_spec (b : Board) (p : string) (outer inner : list Z)
    (at_k : Z -> Z -> Z -> Z * Z) :
  wf b ->
  (forall x y k, x ∈ outer -> y ∈ inner -> 0 <= k < winLength b ->
     0 <= (at_k x y k).1 < size b /\ 0 <= (at_k x y k).2 < size b) ->
  exists w,
    some_of (fun x => some_of (fun y =>
      window (winLength b) (cell (board b)) p (at_k x y)) inner) outer = Ok w /\
    (w = true <-> exists x y, x ∈ outer /\ y ∈ inner /\
       forall k, 0 <= k < winLength b -> holds b p (at_k x y k).1 (at_k x y k).2).
Proof.
  intros Hwf Hin.
  assert (forall x, x ∈ outer -> exists w,
    some_of (fun y => window (winLength b) (cell (board b)) p (at_k x y)) inner = Ok w /\
    (w = true <-> exists y, y ∈ inner /\
       forall k, 0 <= k < winLength b -> holds b p (at_k x y k).1 (at_k x y k).2))
    as Hinner.
  { intros x Hx.
    destruct (some_of_spec
      (fun y => window (winLength b) (cell (board b)) p (at_k x y)) inner)
      as (w & Hw & Hiff).
    { intros y Hy. destruct (window_spec b p (at_k x y) Hwf) as (w & Hw & _);
        [intros; by apply Hin|]. by exists w. }
    exists w. split; [done|]. rewrite Hiff. split.
    - intros (y & Hy & Hwin). exists y. split; [done|].
      destruct (window_spec b p (at_k x y) Hwf) as (w' & Hw' & Hiff');
        [intros; by apply Hin|].
      apply Hiff'. congruence.
    - intros (y & Hy & Hrun). exists y. split; [done|].
      destruct (window_spec b p (at_k x y) Hwf) as (w' & Hw' & Hiff');
        [intros; by apply Hin|].
      rewrite Hw'. f_equal. by apply Hiff'. }
  destruct (some_of_spec
    (fun x => some_of (fun y =>
       window (winLength b) (cell (board b)) p (at_k x y)) inner) outer)
    as (w & Hw & Hiff).
  { intros x Hx. destruct (Hinner x Hx) as (w & Hw & _). by exists w. }
  exists w. split; [done|]. rewrite Hiff. split.
  - intros (x & Hx & Hsome). destruct (Hinner x Hx) as (w' & Hw' & Hiff').
    destruct Hiff' as [Hiff' _]. destruct Hiff' as (y & Hy & Hrun); [congruence|].
    eauto.
  - intros (x & y & Hx & Hy & Hrun). exists x. split; [done|].
    destruct (Hinner x Hx) as (w' & Hw' & Hiff'). rewrite Hw'. f_equal.
    apply Hiff'. eauto.
Qed.

Lemma holds_ext (b : Board) (p : string) (r c r' c' : Z) :
  r = r' -> c = c' -> holds b p r c -> holds b p r' c'.
Proof. by intros -> ->. Qed.

(** C1. For every well-formed board and every marker, with
    [1 <= winLength <= size], [checkWin] returns (it raises nothing), and it
    returns [true] exactly when [winLength] consecutive cells inside the
    grid hold the marker along a row, a column, a down-right diagonal or a
    down-left diagonal. *)
Theorem checkWin_iff_run (b : Board) (p : string) :
  wf b -> 1 <= winLength b <= size b ->
  exists w, checkWin b p = Ok w /\ (w = true <-> has_run b p).
Proof.
  intros Hwf Hwl.
  destruct (scan_spec b p (range 0 (size b)) (range 0 (size b - winLength b + 1))
              (fun rw cl k => (rw, cl + k)) Hwf) as (w1 & H1 & I1).
  { intros x y k ?%elem_of_range ?%elem_of_range ?. simpl. lia. }
  destruct (scan_spec b p (range 0 (size b)) (range 0 (size b - winLength b + 1))
              (fun cl rw k => (rw + k, cl)) Hwf) as (w2 & H2 & I2).
  { intros x y k ?%elem_of_range ?%elem_of_range ?. simpl. lia. }
  destruct (scan_spec b p (range 0 (size b - winLength b + 1))
              (range 0 (size b - winLength b + 1))
              (fun rw cl k => (rw + k, cl + k)) Hwf) as (w3 & H3 & I3).
  { intros x y k ?%elem_of_range ?%elem_of_range ?. simpl. lia. }
  destruct (scan_spec b p (range 0 (size b - winLength b + 1))
              (range_down (size b - 1) (winLength b - 1))
              (fun rw cl k => (rw + k, cl - k)) Hwf) as (w4 & H4 & I4).
  { intros x y k ?%elem_of_range ?%elem_of_range_down ?. simpl. lia. }
  simpl in H1, H2, H3, H4, I1, I2, I3, I4.
  exists (w1 || w2 || w3 || w4). split.
  { unfold checkWin, checkWin_on. rewrite H1. simpl. destruct w1; [done|].
    rewrite H2. simpl. destruct w2; [done|].
    rewrite H3. simpl. destruct w3; [done|].
    rewrite H4. simpl. by destruct w4. }
  split.
  - intros Hw. unfold has_run.
    destruct w1.
    { destruct I1 as [I1 _]. destruct I1 as (x & y & _ & _ & Hrun); [done|].
      exists x, y. left. intros k Hk.
      eapply holds_ext; [| |apply (Hrun k Hk)]; lia. }
    destruct w2.
    { destruct I2 as [I2 _]. destruct I2 as (x & y & _ & _ & Hrun); [done|].
      exists y, x. right; left. intros k Hk.
      eapply holds_ext; [| |apply (Hrun k Hk)]; lia. }
    destruct w3.
    { destruct I3 as [I3 _]. destruct I3 as (x & y & _ & _ & Hrun); [done|].
      exists x, y. right; right; left. intros k Hk.
      eapply holds_ext; [| |apply (Hrun k Hk)]; lia. }
    destruct w4; [|done].
    destruct I4 as [I4 _]. destruct I4 as (x & y & _ & _ & Hrun); [done|].
    exists x, y. right; right; right. intros k Hk.
    eapply holds_ext; [| |apply (Hrun k Hk)]; lia.
  - intros (r & c & Hrun).
    assert (forall dr dc, run_from b p r c dr dc ->
              holds b p r c /\
              holds b p (r + (winLength b - 1) * dr) (c + (winLength b - 1) * dc))
      as Hends.
    { intros dr dc H. split.
      - eapply holds_ext; [| |apply (H 0)]; lia.
      - apply H. lia. }
    destruct Hrun as [Hrun|[Hrun|[Hrun|Hrun]]];
      destruct (Hends _ _ Hrun) as [(? & ? & _) (? & ? & _)].
    + assert (w1 = true) as ->; [|done]. apply I1. exists r, c.
      rewrite !elem_of_range. split_and!; try lia.
      intros k Hk. eapply holds_ext; [| |apply (Hrun k Hk)]; lia.
    + assert (w2 = true) as ->; [|by destruct w1]. apply I2. exists c, r.
      rewrite !elem_of_range. split_and!; try lia.
      intros k Hk. eapply holds_ext; [| |apply (Hrun k Hk)]; lia.
    + assert (w3 = true) as ->; [|by destruct w1, w2]. apply I3. exists r, c.
      rewrite !elem_of_range. split_and!; try lia.
      intros k Hk. eapply holds_ext; [| |apply (Hrun k Hk)]; lia.
    + assert (w4 = true) as ->; [|by destruct w1, w2, w3]. apply I4. exists r, c.
      rewrite elem_of_range, elem_of_range_down. split_and!; try lia.
      intros k Hk. eapply holds_ext; [| |apply (Hrun k Hk)]; lia.
Qed.

(** ** Writing one cell *)

(** The grid after [g[r][c] = v], for [(r, c)] inside the grid. *)
Definition put (g : list (list string)) (r c : Z) (v : string)
  : list (list string) :=
  match g !! Z.to_nat r with
  | Some rw => <[Z.to_nat r := <[Z.to_nat c := v]> rw]> g
  | None => g
  end.

Definition wf_grid (n : Z) (g : list (list string)) : Prop :=
  Z.of_nat (length g) = n /\ Forall (fun rw => Z.of_nat (length rw) = n) g.

Lemma wf_grid_row n g r rw :
  wf_grid n g -> g !! r = Some rw -> Z.of_nat (length rw) = n.
Proof.
  intros [_ Hrows] Hr. rewrite Forall_forall in Hrows.
  apply Hrows. eapply list_elem_of_lookup_2; eauto.
Qed.

Lemma set_cell_put n g r c v :
  wf_grid n g -> 0 <= r < n -> 0 <= c < n -> set_cell g r c v = Ok (put g r c v).
Proof.
  intros Hwf Hr Hc. unfold set_cell, put.
  destruct (idx_Some g r) as (rw & -> & Hrw); [destruct Hwf; lia|].
  rewrite Hrw. pose proof (wf_grid_row _ _ _ _ Hwf Hrw) as Hl.
  unfold upd. rewrite decide_True by lia. simpl.
  rewrite decide_True by (destruct Hwf; lia). done.
Qed.

Lemma wf_grid_put n g r c v : wf_grid n g -> wf_grid n (put g r c v).
Proof.
  intros Hwf. unfold put. destruct (g !! Z.to_nat r) as [rw|] eqn:Hrw; [|done].
  pose proof (wf_grid_row _ _ _ _ Hwf Hrw) as Hl. destruct Hwf as [Hlen Hrows].
  split; [by rewrite length_insert|].
  apply Forall_insert; [done|]. by rewrite length_insert.
Qed.

Lemma cell_put n g r c v r' c' :
  wf_grid n g -> 0 <= r < n -> 0 <= c < n ->
  cell (put g r c v) r' c' =
    if decide (r' = r /\ c' = c) then Ok (Some v) else cell g r' c'.
Proof.
  intros Hwf Hr Hc. unfold put.
  destruct (idx_Some g r) as (rw & _ & Hrw); [destruct Hwf; lia|].
  rewrite Hrw. pose proof (wf_grid_row _ _ _ _ Hwf Hrw) as Hl.
  unfold cell, idx. destruct (decide (0 <= r')) as [Hr'|]; [|by rewrite decide_False by lia].
  destruct (decide (r' = r)) as [->|Hne].
  - rewrite list_lookup_insert_eq by (destruct Hwf; lia). rewrite Hrw.
    destruct (decide (0 <= c')) as [Hc'|]; [|by rewrite decide_False by lia].
    destruct (decide (c' = c)) as [->|Hnc].
    + rewrite decide_True by done. by rewrite list_lookup_insert_eq by lia.
    + rewrite decide_False by tauto. by rewrite list_lookup_insert_ne by lia.
  - rewrite decide_False by tauto. by rewrite list_lookup_insert_ne by lia.
Qed.

(** Clearing a cell that was empty before it was set gives the grid back. *)
Lemma put_put_restore n g r c v :
  wf_grid n g -> 0 <= r < n -> 0 <= c < n ->
  cell g r c = Ok (Some EMPTY) -> put (put g r c v) r c EMPTY = g.
Proof.
  intros Hwf Hr Hc Hcell. unfold put.
  destruct (idx_Some g r) as (rw & Hi & Hrw); [destruct Hwf; lia|].
  rewrite Hrw. pose proof (wf_grid_row _ _ _ _ Hwf Hrw) as Hl.
  rewrite list_lookup_insert_eq by (destruct Hwf; lia).
  rewrite list_insert_insert_eq, list_insert_insert_eq.
  unfold cell in Hcell. rewrite Hi in Hcell. injection Hcell as Hcell.
  unfold idx in Hcell. rewrite decide_True in Hcell by lia.
  rewrite (list_insert_id rw) by done. by apply list_insert_id.
Qed.

(** The cell [(r, c)] is inside the grid and empty. *)
Definition free (b : Board) (r c : Z) : Prop :=
  0 <= r < size b /\ 0 <= c < size b /\ cell (board b) r c = Ok (Some EMPTY).

#[global] Instance err_eq_dec : EqDecision err.
Proof. solve_decision. Defined.

#[global] Instance res_eq_dec {A} `{EqDecision A} : EqDecision (res A).
Proof. solve_decision. Defined.

#[global] Instance free_dec b r c : Decision (free b r c).
Proof. unfold free. apply _. Defined.

(** The board after a successful [placeMarker(r, c, p)]. *)
Definition placed (b : Board) (r c : Z) (p : string) : Board :=
  mkBoard (size b) (winLength b) (put (board b) r c p)
          (moveHistory b ++ [mkMove r c p]) (currentPlayer b).

Lemma placeMarker_free (b : Board) (r c : Z) (p : string) :
  wf b -> free b r c -> placeMarker b r c p = Ok (true, placed b r c p).
Proof.
  intros Hwf (Hr & Hc & Hcell). unfold placeMarker.
  rewrite !bool_decide_eq_false_2 by lia. simpl.
  rewrite Hcell. simpl.
  by rewrite (set_cell_put (size b)).
Qed.

Lemma placeMarker_not_free (b : Board) (r c : Z) (p : string) :
  wf b -> ~ free b r c -> placeMarker b r c p = Ok (false, b).
Proof.
  intros Hwf Hnf. unfold placeMarker.
  destruct (decide (0 <= r < size b /\ 0 <= c < size b)) as [[Hr Hc]|Hout].
  - rewrite !bool_decide_eq_false_2 by lia. simpl.
    destruct (cell_in_range b r c Hwf Hr Hc) as [s Hs]. rewrite Hs. simpl.
    unfold is_str. rewrite bool_decide_eq_false_2; [done|].
    intros [= ->]. apply Hnf. unfold free. tauto.
  - destruct (bool_decide (r < 0)) eqn:E1; [done|].
    destruct (bool_decide (r >= size b)) eqn:E2; [done|].
    destruct (bool_decide (c < 0)) eqn:E3; [done|].
    destruct (bool_decide (c >= size b)) eqn:E4; [done|].
    apply bool_decide_eq_false in E1, E2, E3, E4. lia.
Qed.

Lemma wf_placed b r c p : wf b -> wf (placed b r c p).
Proof. intros Hwf. unfold wf, placed. simpl. by apply wf_grid_put. Qed.

(** C2. On a well-formed board, for all integers [r], [c] and every
    marker [p], [placeMarker] raises nothing.  If [(r, c)] is outside the
    grid or its cell is not empty it returns [false] and the board is
    unchanged.  Otherwise it returns [true]; the new board has the same
    size, win length and current player, its history is the old one
    followed by [{r, c, p}], its grid has the same shape, cell [(r, c)]
    reads [p] and every other cell reads as before. *)
Theorem placeMarker_spec (b : Board) (r c : Z) (p : string) :
  wf b ->
  (~ free b r c -> placeMarker b r c p = Ok (false, b)) /\
  (free b r c ->
     exists b', placeMarker b r c p = Ok (true, b') /\
       size b' = size b /\ winLength b' = winLength b /\
       currentPlayer b' = currentPlayer b /\
       moveHistory b' = moveHistory b ++ [mkMove r c p] /\
       wf b' /\
       forall r' c', cell (board b') r' c' =
         if decide (r' = r /\ c' = c) then Ok (Some p) else cell (board b) r' c').
Proof.
  intros Hwf. split; [by apply placeMarker_not_free|].
  intros Hfree. exists (placed b r c p).
  split; [by apply placeMarker_free|].
  split_and!; try done; [by apply wf_placed|].
  intros r' c'. destruct Hfree as (Hr & Hc & _).
  by apply (cell_put (size b)).
Qed.

(** ** Undo *)

(** [k] calls of [undoMove], with the value each call returned. *)
Fixpoint undo_n (k : nat) (b : Board) : res (list (option Move) * Board) :=
  match k with
  | O => Ok ([], b)
  | S k' =>
      '(m, b1) ← undoMove b;
      '(ms, b2) ← undo_n k' b1;
      Ok (m :: ms, b2)
  end.

(** Successive placements that all return [true]. *)
Inductive placements : Board -> list Move -> Board -> Prop :=
| placements_nil b : placements b [] b
| placements_cons b m b1 ms b2 :
    placeMarker b (mv_row m) (mv_col m) (mv_player m) = Ok (true, b1) ->
    placements b1 ms b2 ->
    placements b (m :: ms) b2.

Lemma placeMarker_true_inv (b : Board) (r c : Z) (p : string) (b' : Board) :
  wf b -> placeMarker b r c p = Ok (true, b') -> free b r c /\ b' = placed b r c p.
Proof.
  intros Hwf Hpl. destruct (decide (free b r c)) as [Hf|Hnf].
  - rewrite placeMarker_free in Hpl by done. by injection Hpl as <-.
  - rewrite placeMarker_not_free in Hpl by done. discriminate.
Qed.

Lemma placeMarker_false_inv (b : Board) (r c : Z) (p : string) (b' : Board) :
  wf b -> placeMarker b r c p = Ok (false, b') -> b' = b.
Proof.
  intros Hwf Hpl. destruct (decide (free b r c)) as [Hf|Hnf].
  - rewrite placeMarker_free in Hpl by done. discriminate.
  - rewrite placeMarker_not_free in Hpl by done. by injection Hpl as <-.
Qed.

Lemma undoMove_placed (b : Board) (r c : Z) (p : string) :
  wf b -> free b r c ->
  undoMove (placed b r c p) = Ok (Some (mkMove r c p), b).
Proof.
  intros Hwf (Hr & Hc & Hcell). unfold undoMove, placed. simpl.
  rewrite last_snoc. simpl.
  rewrite (set_cell_put (size b)) by (try apply wf_grid_put; done). simpl.
  rewrite removelast_last, (put_put_restore (size b)) by done.
  by destruct b.
Qed.

Lemma undo_n_app (k j : nat) (b b1 b2 : Board) l1 l2 :
  undo_n k b = Ok (l1, b1) -> undo_n j b1 = Ok (l2, b2) ->
  undo_n (k + j) b = Ok (l1 ++ l2, b2).
Proof.
  revert b l1. induction k as [|k IH]; intros b l1 Hk Hj; simpl in *.
  - by injection Hk as <- <-.
  - destruct (undoMove b) as [[m b']|] eqn:Hu; [|done]. simpl in *.
    destruct (undo_n k b') as [[ms b'']|] eqn:Hk'; [|done]. simpl in *.
    injection Hk as <- <-. by rewrite (IH _ _ Hk' Hj).
Qed.

Lemma placements_wf (b : Board) ms b' : wf b -> placements b ms b' -> wf b'.
Proof.
  intros Hwf Hpl. induction Hpl as [|b m b1 ms b2 Hm _ IH]; [done|].
  apply IH. apply placeMarker_true_inv in Hm as [_ ->]; [|done].
  by apply wf_placed.
Qed.

Lemma placements_undo (b : Board) ms b' :
  wf b -> placements b ms b' ->
  undo_n (length ms) b' = Ok (Some <$> reverse ms, b).
Proof.
  intros Hwf Hpl. induction Hpl as [|b m b1 ms b2 Hm Hms IH]; [done|].
  apply placeMarker_true_inv in Hm as [Hfree ->]; [|done].
  rewrite reverse_cons, fmap_app. simpl length.
  replace (S (length ms)) with (length ms + 1)%nat by lia.
  eapply undo_n_app; [apply IH; by apply wf_placed|].
  simpl. rewrite undoMove_placed by done. by destruct m.
Qed.

Lemma newBoard_inv (n w : Z) (b0 : Board) :
  newBoard n w = Ok b0 ->
  0 <= n /\
  b0 = mkBoard n w (replicate (Z.to_nat n) (replicate (Z.to_nat n) EMPTY)) [] MARK_O.
Proof.
  unfold newBoard, array_fill. case_decide; [|done]. simpl. by intros [= <-].
Qed.

Lemma newBoard_wf (n w : Z) (b0 : Board) : newBoard n w = Ok b0 -> wf b0.
Proof.
  intros [Hn ->]%newBoard_inv. split; simpl.
  - rewrite length_replicate. lia.
  - apply Forall_replicate. rewrite length_replicate. lia.
Qed.

(** C3. [undoMove] on an empty history returns [null] and leaves the board
    as it is.  After a [placeMarker] that returned [true], [undoMove]
    returns that move and gives back exactly the board before the
    placement.  From a new board, after the placements [ms] (all
    successful), [length ms + 1] calls of [undoMove] return the moves of
    [ms] last to first and then [null], and end in the new board, whose
    grid is all empty. *)
Theorem undoMove_spec :
  (forall b, moveHistory b = [] -> undoMove b = Ok (None, b)) /\
  (forall b r c p b', wf b ->
     placeMarker b r c p = Ok (true, b') ->
     undoMove b' = Ok (Some (mkMove r c p), b)) /\
  (forall n w b0 ms b,
     newBoard n w = Ok b0 -> placements b0 ms b ->
     undo_n (S (length ms)) b = Ok ((Some <$> reverse ms) ++ [None], b0) /\
     board b0 = replicate (Z.to_nat n) (replicate (Z.to_nat n) EMPTY)).
Proof.
  split_and!.
  - intros b Hh. unfold undoMove. by rewrite Hh.
  - intros b r c p b' Hwf Hpl.
    apply placeMarker_true_inv in Hpl as [Hfree ->]; [|done].
    by apply undoMove_placed.
  - intros n w b0 ms b Hnew Hpl. split.
    + replace (S (length ms)) with (length ms + 1)%nat by lia.
      eapply undo_n_app.
      * apply placements_undo; [|done]. by eapply newBoard_wf.
      * apply newBoard_inv in Hnew as [_ ->]. done.
    + by apply newBoard_inv in Hnew as [_ ->].
Qed.

(** ** The history invariant *)

Definition valid_marker (p : string) : Prop := p = MARK_O \/ p = MARK_X.

(** States reached from [new Board(n, w)] by [placeMarker] with a valid
    marker, [undoMove] and [switchPlayer]. *)
Inductive reachable (n w : Z) : Board -> Prop :=
| reach_new b : newBoard n w = Ok b -> reachable n w b
| reach_place b r c p ok b' :
    reachable n w b -> valid_marker p ->
    placeMarker b r c p = Ok (ok, b') -> reachable n w b'
| reach_undo b m b' :
    reachable n w b -> undoMove b = Ok (m, b') -> reachable n w b'
| reach_switch b :
    reachable n w b -> reachable n w (switchPlayer b).

(** The number of cells of the grid that are not empty. *)
Definition row_count (rw : list string) : nat :=
  length (filter (fun s => s <> EMPTY) rw).

Definition nonempty_cells (g : list (list string)) : nat :=
  length (filter (fun s => s <> EMPTY) (concat g)).

(** Replaying a history: each move is placed again, in order. *)
Definition replay (b0 : Board) (hist : list Move) : res Board :=
  foldM (fun b m =>
           r ← placeMarker b (mv_row m) (mv_col m) (mv_player m); Ok r.2)
        b0 hist.

Lemma nonempty_cells_middle (A B : list (list string)) (x : list string) :
  nonempty_cells (A ++ x :: B)
  = (nonempty_cells A + row_count x + nonempty_cells B)%nat.
Proof.
  unfold nonempty_cells, row_count.
  rewrite concat_app, concat_cons, !filter_app, !length_app. lia.
Qed.

Lemma row_count_middle (A B : list string) (x : string) :
  row_count (A ++ x :: B)
  = (row_count A + (if decide (x = EMPTY) then 0 else 1) + row_count B)%nat.
Proof.
  unfold row_count. rewrite filter_app, filter_cons, length_app.
  destruct (decide (x = EMPTY)).
  - rewrite decide_False by tauto. simpl. lia.
  - rewrite decide_True by done. simpl. lia.
Qed.

Lemma nonempty_cells_put n g r c v :
  wf_grid n g -> 0 <= r < n -> 0 <= c < n ->
  cell g r c = Ok (Some EMPTY) -> v <> EMPTY ->
  nonempty_cells (put g r c v) = S (nonempty_cells g).
Proof.
  intros Hwf Hr Hc Hcell Hv. unfold put.
  destruct (idx_Some g r) as (rw & Hi & Hrw); [destruct Hwf; lia|].
  rewrite Hrw. pose proof (wf_grid_row _ _ _ _ Hwf Hrw) as Hl.
  unfold cell in Hcell. rewrite Hi in Hcell. injection Hcell as Hcell.
  unfold idx in Hcell. rewrite decide_True in Hcell by lia.
  rewrite insert_take_drop by (destruct Hwf; lia).
  rewrite <- (take_drop_middle g (Z.to_nat r) rw Hrw) at 3.
  rewrite !nonempty_cells_middle.
  rewrite insert_take_drop by lia.
  rewrite <- (take_drop_middle rw (Z.to_nat c) EMPTY Hcell) at 3.
  rewrite !row_count_middle.
  rewrite decide_False by done. rewrite decide_True by done. lia.
Qed.

Lemma nonempty_cells_new (n : nat) :
  nonempty_cells (replicate n (replicate n EMPTY)) = 0%nat.
Proof.
  unfold nonempty_cells.
  assert (forall k, filter (fun s => s <> EMPTY) (replicate k EMPTY) = []) as Hrow.
  { induction k as [|k IH]; [done|]. simpl. rewrite filter_cons.
    by rewrite decide_False by tauto. }
  generalize (replicate n EMPTY) (Hrow n). intros rw Hrw.
  induction n as [|m IH]; [done|]. simpl. rewrite filter_app, Hrw. apply IH.
Qed.

Lemma placements_snoc (a b c : Board) (ms : list Move) (m : Move) :
  placements a ms b ->
  placeMarker b (mv_row m) (mv_col m) (mv_player m) = Ok (true, c) ->
  placements a (ms ++ [m]) c.
Proof.
  induction 1 as [|a m' a1 ms b Hm' _ IH]; intros Hm; simpl.
  - econstructor; [done|constructor].
  - econstructor; [done|]. by apply IH.
Qed.

Lemma placements_snoc_inv (a c : Board) (ms : list Move) (m : Move) :
  placements a (ms ++ [m]) c ->
  exists b, placements a ms b /\
    placeMarker b (mv_row m) (mv_col m) (mv_player m) = Ok (true, c).
Proof.
  revert a. induction ms as [|m' ms IH]; intros a Hpl; simpl in Hpl.
  - inversion Hpl as [|? ? b1 ? ? Hm Hrest]; subst. inversion Hrest; subst.
    exists a. split; [constructor|done].
  - inversion Hpl as [|? ? b1 ? ? Hm Hrest]; subst.
    destruct (IH _ Hrest) as (b & Hb & Hlast).
    exists b. split; [|done]. by econstructor.
Qed.

Lemma placements_history (a b : Board) (ms : list Move) :
  wf a -> placements a ms b ->
  moveHistory b = moveHistory a ++ ms /\ size b = size a /\
  winLength b = winLength a /\ currentPlayer b = currentPlayer a.
Proof.
  intros Hwf Hpl. induction Hpl as [|a m a1 ms b Hm _ IH].
  - by rewrite app_nil_r.
  - apply placeMarker_true_inv in Hm as [_ ->]; [|done].
    destruct IH as (-> & -> & -> & ->); [by apply wf_placed|].
    simpl. rewrite <- app_assoc. by destruct m.
Qed.

Lemma placements_count (a b : Board) (ms : list Move) :
  wf a -> placements a ms b -> Forall (fun m => mv_player m <> EMPTY) ms ->
  nonempty_cells (board b) = (nonempty_cells (board a) + length ms)%nat.
Proof.
  intros Hwf Hpl Hval. induction Hpl as [|a m a1 ms b Hm _ IH]; simpl; [lia|].
  apply Forall_cons in Hval as [Hm_valid Hval].
  apply placeMarker_true_inv in Hm as [(Hr & Hc & Hcell) ->]; [|done].
  rewrite IH by (try apply wf_placed; done). simpl.
  rewrite (nonempty_cells_put (size a)) by done. lia.
Qed.

Lemma placements_replay (a b : Board) (ms : list Move) :
  placements a ms b -> replay a ms = Ok b.
Proof.
  induction 1 as [|a m a1 ms b Hm _ IH]; [done|].
  unfold replay. simpl. rewrite Hm. simpl. apply IH.
Qed.

(** The same board with the player of a new board to move. *)
Definition first_to_move (b : Board) : Board :=
  mkBoard (size b) (winLength b) (board b) (moveHistory b) MARK_O.

(** What holds in every reachable state: the board is the new board after
    exactly the successful placements of its history, up to whose turn it
    is. *)
Definition replayable (n w : Z) (b : Board) : Prop :=
  exists b0, newBoard n w = Ok b0 /\ wf b /\
    Forall (fun m => mv_player m <> EMPTY) (moveHistory b) /\
    placements b0 (moveHistory b) (first_to_move b).

Lemma valid_marker_not_empty p : valid_marker p -> p <> EMPTY.
Proof. by intros [-> | ->]. Qed.

Lemma first_to_move_placed b r c p :
  first_to_move (placed b r c p) = placed (first_to_move b) r c p.
Proof. done. Qed.

Lemma reachable_replayable (n w : Z) (b : Board) :
  reachable n w b -> replayable n w b.
Proof.
  induction 1 as [b Hnew | b r c p ok b' _ IH Hp Hpl | b m b' _ IH Hu | b _ IH].
  - exists b. split; [done|]. split; [by eapply newBoard_wf|].
    apply newBoard_inv in Hnew as [_ ->]. split; [constructor|]. constructor.
  - destruct IH as (b0 & Hnew & Hwf & Hval & Hrep). destruct ok.
    + apply placeMarker_true_inv in Hpl as [Hfree ->]; [|done].
      exists b0. split; [done|]. split; [by apply wf_placed|]. split.
      * simpl. apply Forall_app. split; [done|]. apply Forall_singleton.
        by apply valid_marker_not_empty.
      * rewrite first_to_move_placed. eapply placements_snoc; [done|].
        simpl. by apply placeMarker_free.
    + apply placeMarker_false_inv in Hpl as ->; [|done]. by exists b0.
  - destruct IH as (b0 & Hnew & Hwf & Hval & Hrep).
    unfold undoMove in Hu.
    destruct (moveHistory b) as [|x l _] eqn:Hh using rev_ind.
    { simpl in Hu. injection Hu as <- <-. exists b0. by rewrite Hh. }
    rewrite last_snoc in Hu.
    apply placements_snoc_inv in Hrep as (b1 & Hb1 & Hlast).
    pose proof (newBoard_wf _ _ _ Hnew) as Hwf0.
    pose proof (placements_wf _ _ _ Hwf0 Hb1) as Hwf1.
    apply placeMarker_true_inv in Hlast as [Hfree Heq]; [|done].
    destruct (placements_history _ _ _ Hwf0 Hb1) as (Hh1 & Hs1 & Hw1 & Hc1).
    apply newBoard_inv in Hnew as Hb0. destruct Hb0 as [_ Hb0].
    rewrite Hb0 in Hh1, Hs1, Hw1, Hc1. simpl in Hh1, Hs1, Hw1, Hc1.
    unfold first_to_move, placed in Heq. injection Heq as Hs Hw Hg _.
    destruct Hfree as (Hr & Hc & Hcell).
    rewrite Hg, (set_cell_put (size b1)) in Hu
      by (try apply wf_grid_put; done || lia).
    rewrite (put_put_restore (size b1)) in Hu by done.
    simpl in Hu. injection Hu as <- <-. rewrite removelast_last.
    exists b0. split; [done|]. split.
    { unfold wf. simpl. rewrite Hs. apply Hwf1. }
    split; [by apply Forall_app in Hval as [? _]|].
    unfold first_to_move. simpl.
    replace (mkBoard (size b) (winLength b) (board b1) l MARK_O) with b1;
      [done|].
    destruct b1; simpl in *; congruence.
  - destruct IH as (b0 & Hnew & Hwf & Hval & Hrep). by exists b0.
Qed.

(** C6. In every state reached from a new board by [placeMarker] with a
    valid marker, [undoMove] and [switchPlayer], the history is as long as
    the number of non-empty cells, and replaying the history on a new board
    of the same size succeeds and yields exactly the current grid. *)
Theorem history_invariant (n w : Z) (b : Board) :
  reachable n w b ->
  length (moveHistory b) = nonempty_cells (board b) /\
  exists b0 b1, newBoard n w = Ok b0 /\
    replay b0 (moveHistory b) = Ok b1 /\ board b1 = board b.
Proof.
  intros (b0 & Hnew & Hwf & Hval & Hrep)%reachable_replayable.
  pose proof (newBoard_wf _ _ _ Hnew) as Hwf0. split.
  - pose proof (placements_count _ _ _ Hwf0 Hrep Hval) as Hcount.
    apply newBoard_inv in Hnew as [_ ->]. simpl in Hcount.
    rewrite nonempty_cells_new in Hcount. simpl in Hcount. lia.
  - exists b0, (first_to_move b). split; [done|]. split; [|done].
    by apply placements_replay.
Qed.

(** * The object store *)

Definition loc : Type := positive.

Inductive obj : Type :=
| OBoard (size winLength : Z) (board moveHistory : loc) (currentPlayer : string)
    (* a [Board] object; [board] and [moveHistory] are references *)
| OGrid (rows : list loc)              (* the array of row arrays *)
| ORow (cells : list string)           (* one row array *)
| OHist (moves : list Move).           (* the history array *)

Abbreviation heap := (gmap loc obj).

(** A computation that reads and writes the store. *)
Definition M (A : Type) : Type := heap -> res (A * heap).

#[global] Instance M_ret : MRet M := fun A a h => Ok (a, h).
#[global] Instance M_bind : MBind M := fun A B f m h =>
  match m h with
  | Ok (a, h') => f a h'
  | Err e => Err e
  end.

Definition throw {A} (e : err) : M A := fun _ => Err e.

(** A computation that only reads the store. *)
Definition reading {A} (f : heap -> res A) : M A :=
  fun h => a ← f h; Ok (a, h).

(** [new]: the object is put at an address not in use. *)
Definition alloc (o : obj) : M loc :=
  fun h => let l := fresh (dom h) in Ok (l, <[l := o]> h).

Definition store (l : loc) (o : obj) : M unit :=
  fun h => Ok (tt, <[l := o]> h).

Definition the_board (h : heap) (l : loc) : res (Z * Z * loc * loc * string) :=
  match h !! l with
  | Some (OBoard s w g hl cp) => Ok (s, w, g, hl, cp)
  | _ => Err BadRef
  end.

Definition the_grid (h : heap) (l : loc) : res (list loc) :=
  match h !! l with
  | Some (OGrid rows) => Ok rows
  | _ => Err BadRef
  end.

Definition the_row (h : heap) (l : loc) : res (list string) :=
  match h !! l with
  | Some (ORow cells) => Ok cells
  | _ => Err BadRef
  end.

Definition the_hist (h : heap) (l : loc) : res (list Move) :=
  match h !! l with
  | Some (OHist moves) => Ok moves
  | _ => Err BadRef
  end.

Module Heap.

(** [this.size] *)
Definition size (h : heap) (this : loc) : res Z :=
  '(s, _, _, _, _) ← the_board h this; Ok s.

(** [this.winLength] *)
Definition winLength (h : heap) (this : loc) : res Z :=
  '(_, w, _, _, _) ← the_board h this; Ok w.

(** [this.board[row][col]] *)
Definition cell (h : heap) (this : loc) (row col : Z) : res (option string) :=
  '(_, _, g, _, _) ← the_board h this;
  rows ← the_grid h g;
  match idx rows row with
  | None => Err TypeError
  | Some rl => cells ← the_row h rl; Ok (idx cells col)
  end.

(** [this.board[row][col] = v] *)
Definition set_cell (this : loc) (row col : Z) (v : string) : M unit :=
  fun h =>
    '(_, _, g, _, _) ← the_board h this;
    rows ← the_grid h g;
    match idx rows row with
    | None => Err TypeError
    | Some rl =>
        cells ← the_row h rl;
        cells' ← upd cells col v;
        Ok (tt, <[rl := ORow cells']> h)
    end.

(** [this.moveHistory.push(m)] *)
Definition push (this : loc) (m : Move) : M unit :=
  fun h =>
    '(_, _, _, hl, _) ← the_board h this;
    moves ← the_hist h hl;
    Ok (tt, <[hl := OHist (moves ++ [m])]> h).

(** [this.moveHistory.pop()] on a history that is not empty. *)
Definition pop (this : loc) : M (option Move) :=
  fun h =>
    '(_, _, _, hl, _) ← the_board h this;
    moves ← the_hist h hl;
    Ok (last moves, <[hl := OHist (removelast moves)]> h).

(** [new Board(size, winLength)]: the row arrays, the array of rows and
    the history array are new objects. *)
Fixpoint alloc_all (os : list obj) : M (list loc) :=
  match os with
  | [] => mret []
  | o :: os' => l ← alloc o; ls ← alloc_all os'; mret (l :: ls)
  end.

Definition new (size winLength : Z) : M loc :=
  fun h =>
    rw ← array_fill size EMPTY;
    rws ← array_fill size (ORow rw);
    (rows ← alloc_all rws;
     g ← alloc (OGrid rows);
     hl ← alloc (OHist []);
     alloc (OBoard size winLength g hl MARK_O)) h.

Definition placeMarker (this : loc) (row col : Z) (player : string) : M bool :=
  sz ← reading (fun h => size h this);
  if bool_decide (row < 0) || bool_decide (row >= sz)
     || bool_decide (col < 0) || bool_decide (col >= sz)
  then mret false
  else
    v ← reading (fun h => cell h this row col);
    if negb (is_str v EMPTY) then mret false
    else
      _ ← set_cell this row col player;
      _ ← push this (mkMove row col player);
      mret true.

Definition undoMove (this : loc) : M (option Move) :=
  moves ← reading (fun h => '(_, _, _, hl, _) ← the_board h this; the_hist h hl);
  if bool_decide (length moves = 0%nat) then mret None
  else
    popped ← pop this;
    match popped with
    | None => throw TypeError
    | Some lastMove =>
        _ ← set_cell this (mv_row lastMove) (mv_col lastMove) EMPTY;
        mret (Some lastMove)
    end.

Definition switchPlayer (this : loc) : M unit :=
  fun h =>
    '(s, w, g, hl, cp) ← the_board h this;
    Ok (tt, <[this := OBoard s w g hl
                (if bool_decide (cp = MARK_O) then MARK_X else MARK_O)]> h).

Definition checkWin (this : loc) (player : string) : M bool :=
  reading (fun h =>
    sz ← size h this; wl ← winLength h this;
    checkWin_on sz wl (cell h this) player).

Definition checkDraw (this : loc) : M bool :=
  reading (fun h => sz ← size h this; checkDraw_on sz (cell h this)).

Definition getEmptyCells (this : loc) : M (list Cell) :=
  reading (fun h => sz ← size h this; getEmptyCells_on sz (cell h this)).

(** [{ size, winLength, board, moveHistory, currentPlayer }]: the two
    arrays are handed out by reference. *)
Definition serialize (this : loc) : M (Z * Z * loc * loc * string) :=
  reading (fun h => the_board h this).

Definition deserialize (this : loc) (data : Z * Z * loc * loc * string) : M unit :=
  fun h =>
    _ ← the_board h this;
    let '(s, w, g, hl, cp) := data in
    Ok (tt, <[this := OBoard s w g hl cp]> h).

(** [row => [...row]] *)
Definition copy_row (rl : loc) : M loc :=
  cells ← reading (fun h => the_row h rl); alloc (ORow cells).

(** [rows.map(f)] *)
Fixpoint map_rows (f : loc -> M loc) (rows : list loc) : M (list loc) :=
  match rows with
  | [] => mret []
  | rl :: rows' => l ← f rl; ls ← map_rows f rows'; mret (l :: ls)
  end.

Definition clone (this : loc) : M loc :=
  '(s, w, g, hl, cp) ← reading (fun h => the_board h this);
  newBoard ← new s w;
  rows ← reading (fun h => the_grid h g);
  rows' ← map_rows copy_row rows;
  g' ← alloc (OGrid rows');
  moves ← reading (fun h => the_hist h hl);
  hl' ← alloc (OHist moves);
  _ ← store newBoard (OBoard s w g' hl' cp);
  mret newBoard.

End Heap.

(** * The move-selection engine *)

(** Scores: integers with [-Infinity] and [Infinity]. *)
Inductive num : Type :=
| NegInf
| Fin (z : Z)
| PosInf.

(** [a <= b] *)
Definition num_le (a b : num) : bool :=
  match a, b with
  | NegInf, _ => true
  | _, PosInf => true
  | Fin x, Fin y => bool_decide (x <= y)
  | _, _ => false
  end.

(** [a < b] *)
Definition num_lt (a b : num) : bool := negb (num_le b a).

(** [Math.max(a, b)] and [Math.min(a, b)] *)
Definition nmax (a b : num) : num := if num_le a b then b else a.
Definition nmin (a b : num) : num := if num_le a b then a else b.

Record AI : Type := mkAI {
  marker : string;
  opponentMarker : string;
  difficulty : string;
  maxDepth : Z
}.

Definition getMaxDepthForDifficulty (difficulty : string) : Z :=
  if bool_decide (difficulty = "easy"%string) then 1
  else if bool_decide (difficulty = "medium"%string) then 2
  else if bool_decide (difficulty = "hard"%string) then 3
  else if bool_decide (difficulty = "master"%string) then 4
  else 2.

(** [new AI(marker, difficulty)] *)
Definition newAI (marker difficulty : string) : AI :=
  mkAI marker
       (if bool_decide (marker = MARK_O) then MARK_X else MARK_O)
       difficulty
       (getMaxDepthForDifficulty difficulty).

(** What [makeMove] hands back: [null], a cell, or [undefined] (an array
    read outside the array). *)
Inductive answer : Type :=
| Null
| Undefined
| Pick (c : Cell).

Definition pick_at (cells : list Cell) (i : Z) : answer :=
  match idx cells i with
  | Some c => Pick c
  | None => Undefined
  end.

(** The closure [evaluateLine] of [evaluateLines]. *)
Definition evaluateLine (ai : AI) (line : list (option string)) : Z :=
  let '(myMarkerCount, opponentMarkerCount, emptyCount) :=
    fold_left (fun '(my, opp, emp) cell =>
                 if is_str cell (marker ai) then (my + 1, opp, emp)
                 else if is_str cell (opponentMarker ai) then (my, opp + 1, emp)
                 else (my, opp, emp + 1))
              line (0, 0, 0) in
  if bool_decide (opponentMarkerCount = 0) && bool_decide (myMarkerCount > 0)
  then 10 ^ myMarkerCount
  else if bool_decide (myMarkerCount = 0) && bool_decide (opponentMarkerCount > 0)
  then - 10 ^ opponentMarkerCount
  else 0.

Section Evaluate.
Variable size winLength : Z.
Variable rd : Z -> Z -> res (option string).
Variable ai : AI.

(** The window pushed cell by cell into [line], then scored. *)
Definition line_score (score : Z) (at_k : Z -> Z * Z) : res Z :=
  line ← foldM (fun line k => v ← rd (at_k k).1 (at_k k).2; Ok (line ++ [v]))
               [] (range 0 winLength);
  Ok (score + evaluateLine ai line).

Definition evaluateLines_on (direction : string) : res Z :=
  if bool_decide (direction = "row"%string) then
    foldM (fun score row => foldM (fun score col =>
             line_score score (fun k => (row, col + k)))
             score (range 0 (size - winLength + 1))) 0 (range 0 size)
  else if bool_decide (direction = "col"%string) then
    foldM (fun score col => foldM (fun score row =>
             line_score score (fun k => (row + k, col)))
             score (range 0 (size - winLength + 1))) 0 (range 0 size)
  else if bool_decide (direction = "diag"%string) then
    foldM (fun score row => foldM (fun score col =>
             line_score score (fun k => (row + k, col + k)))
             score (range 0 (size - winLength + 1)))
          0 (range 0 (size - winLength + 1))
  else if bool_decide (direction = "anti-diag"%string) then
    foldM (fun score row => foldM (fun score col =>
             line_score score (fun k => (row + k, col - k)))
             score (range_down (size - 1) (winLength - 1)))
          0 (range 0 (size - winLength + 1))
  else Ok 0.

Definition evaluateBoard_on : res Z :=
  r ← evaluateLines_on "row";
  c ← evaluateLines_on "col";
  d ← evaluateLines_on "diag";
  a ← evaluateLines_on "anti-diag";
  Ok (0 + r + c + d + a).
End Evaluate.

(** [Math.floor(Math.random() * n)], for the number [u] that
    [Math.random()] returned.  The product is the exact one.  The code
    rounds it to binary64 before it takes the floor, which can give the
    next index when the exact product is just below an integer; both
    indices are in [0, n).  What is stated of a particular index is stated
    for numbers [u] whose product with [n] is a binary64 number, so that
    the two agree. *)
Definition random_index (u : Q) (n : nat) : Z :=
  Qfloor (u * inject_Z (Z.of_nat n))%Q.

Definition evaluateBoard (ai : AI) (board : loc) : M Z :=
  reading (fun h =>
    sz ← Heap.size h board; wl ← Heap.winLength h board;
    evaluateBoard_on sz wl (Heap.cell h board) ai).

Definition makeRandomMove (board : loc) (u : Q) : M answer :=
  emptyCells ← Heap.getEmptyCells board;
  if bool_decide (length emptyCells = 0%nat) then mret Null
  else mret (pick_at emptyCells (random_index u (length emptyCells))).

(** One of the first two loops of [makeMediumMove]: the first cell at which
    placing [who] wins; the loop returns there without undoing. *)
Fixpoint winning_move (boardCopy : loc) (who : string) (emptyCells : list Cell)
  : M (option Cell) :=
  match emptyCells with
  | [] => mret None
  | cell :: rest =>
      _ ← Heap.placeMarker boardCopy (row cell) (col cell) who;
      w ← Heap.checkWin boardCopy who;
      if w : bool then mret (Some cell)
      else _ ← Heap.undoMove boardCopy; winning_move boardCopy who rest
  end.

(** The loop over [corners]. *)
Fixpoint first_empty (board : loc) (corners : list Cell) : M (option Cell) :=
  match corners with
  | [] => mret None
  | corner :: rest =>
      v ← reading (fun h => Heap.cell h board (row corner) (col corner));
      if is_str v EMPTY then mret (Some corner) else first_empty board rest
  end.

Definition makeMediumMove (ai : AI) (board : loc) (u : Q) : M answer :=
  boardCopy ← Heap.clone board;
  emptyCells ← Heap.getEmptyCells boardCopy;
  win ← winning_move boardCopy (marker ai) emptyCells;
  match win with
  | Some cell => mret (Pick cell)
  | None =>
  block ← winning_move boardCopy (opponentMarker ai) emptyCells;
  match block with
  | Some cell => mret (Pick cell)
  | None =>
  sz ← reading (fun h => Heap.size h board);
  let center := sz / 2 in
  v ← reading (fun h => Heap.cell h board center center);
  if is_str v EMPTY then mret (Pick (mkCell center center))
  else
    let corners := [ mkCell 0 0; mkCell 0 (sz - 1);
                     mkCell (sz - 1) 0; mkCell (sz - 1) (sz - 1) ] in
    corner ← first_empty board corners;
    match corner with
    | Some c => mret (Pick c)
    | None => makeRandomMove board u
    end
  end
  end.

(** The two loops of [minimax].  [child alpha beta] is the recursive call
    for the cell just placed.  With [prune] false the test [beta <= alpha]
    is left out: that is the search without cutoffs. *)
Fixpoint max_loop (prune : bool) (board : loc) (who : string)
    (child : num -> num -> M num) (emptyCells : list Cell)
    (maxScore alpha beta : num) : M num :=
  match emptyCells with
  | [] => mret maxScore
  | cell :: rest =>
      _ ← Heap.placeMarker board (row cell) (col cell) who;
      score ← child alpha beta;
      _ ← Heap.undoMove board;
      let maxScore := nmax maxScore score in
      let alpha := nmax alpha score in
      if prune && num_le beta alpha then mret maxScore
      else max_loop prune board who child rest maxScore alpha beta
  end.

Fixpoint min_loop (prune : bool) (board : loc) (who : string)
    (child : num -> num -> M num) (emptyCells : list Cell)
    (minScore alpha beta : num) : M num :=
  match emptyCells with
  | [] => mret minScore
  | cell :: rest =>
      _ ← Heap.placeMarker board (row cell) (col cell) who;
      score ← child alpha beta;
      _ ← Heap.undoMove board;
      let minScore := nmin minScore score in
      let beta := nmin beta score in
      if prune && num_le beta alpha then mret minScore
      else min_loop prune board who child rest minScore alpha beta
  end.

Fixpoint minimax (prune : bool) (fuel : nat) (ai : AI) (board : loc)
    (depth : Z) (isMaximizing : bool) (alpha beta : num) : M num :=
  match fuel with
  | O => throw OutOfFuel
  | S fuel' =>
      won ← Heap.checkWin board (marker ai);
      if won : bool then mret (Fin (100 - depth)) else
      lost ← Heap.checkWin board (opponentMarker ai);
      if lost : bool then mret (Fin (-100 + depth)) else
      draw ← Heap.checkDraw board;
      if draw || bool_decide (depth >= maxDepth ai)
      then score ← evaluateBoard ai board; mret (Fin score)
      else
        emptyCells ← Heap.getEmptyCells board;
        if isMaximizing
        then max_loop prune board (marker ai)
               (minimax prune fuel' ai board (depth + 1) false)
               emptyCells NegInf alpha beta
        else min_loop prune board (opponentMarker ai)
               (minimax prune fuel' ai board (depth + 1) true)
               emptyCells PosInf alpha beta
  end.

(** The loop of [makeMinimaxMove]. *)
Fixpoint best_move (prune : bool) (fuel : nat) (ai : AI) (boardCopy : loc)
    (emptyCells : list Cell) (bestScore : num) (bestMove : answer) : M answer :=
  match emptyCells with
  | [] => mret bestMove
  | cell :: rest =>
      _ ← Heap.placeMarker boardCopy (row cell) (col cell) (marker ai);
      score ← minimax prune fuel ai boardCopy 0 false NegInf PosInf;
      _ ← Heap.undoMove boardCopy;
      if num_lt bestScore score
      then best_move prune fuel ai boardCopy rest score (Pick cell)
      else best_move prune fuel ai boardCopy rest bestScore bestMove
  end.

Definition makeMinimaxMove (prune : bool) (fuel : nat) (ai : AI) (board : loc)
    (u : Q) : M answer :=
  boardCopy ← Heap.clone board;
  emptyCells ← Heap.getEmptyCells boardCopy;
  if bool_decide (length emptyCells = 0%nat) then mret Null
  else if bool_decide (length emptyCells = 1%nat) then mret (pick_at emptyCells 0)
  else
    sz ← reading (fun h => Heap.size h board);
    if bool_decide (Z.of_nat (length emptyCells) > sz * sz - 3)
    then makeMediumMove ai board u
    else best_move prune fuel ai boardCopy emptyCells NegInf Null.

(** [makeMove]; the source is the instance [prune = true]. *)
Definition makeMove_with (prune : bool) (fuel : nat) (ai : AI) (board : loc)
    (u : Q) : M answer :=
  if bool_decide (difficulty ai = "easy"%string) then makeRandomMove board u
  else if bool_decide (difficulty ai = "medium"%string) then makeMediumMove ai board u
  else makeMinimaxMove prune fuel ai board u.

Definition makeMove : nat -> AI -> loc -> Q -> M answer := makeMove_with true.

(** * The object store against the board value *)

(** ** The reading methods depend on the reader only through its values *)

Lemma res_bind_Ok {A B} (a : A) (k : A -> res B) : (Ok a ≫= k) = k a.
Proof. done. Qed.

Lemma res_bind_ext {A B} (m m' : res A) (k k' : A -> res B) :
  m = m' -> (forall a, k a = k' a) -> (m ≫= k) = (m' ≫= k').
Proof. intros -> Hk. destruct m'; simpl; [apply Hk|done]. Qed.

Lemma all_of_ext {A} (f g : A -> res bool) (l : list A) :
  (forall x, f x = g x) -> all_of f l = all_of g l.
Proof.
  intros Hfg. induction l as [|x l IH]; [done|]. simpl.
  apply res_bind_ext; [done|]. by intros [].
Qed.

Lemma some_of_ext {A} (f g : A -> res bool) (l : list A) :
  (forall x, f x = g x) -> some_of f l = some_of g l.
Proof.
  intros Hfg. induction l as [|x l IH]; [done|]. simpl.
  apply res_bind_ext; [done|]. by intros [].
Qed.

Lemma foldM_ext {A S} (f g : S -> A -> res S) (s : S) (l : list A) :
  (forall s x, f s x = g s x) -> foldM f s l = foldM g s l.
Proof.
  intros Hfg. revert s. induction l as [|x l IH]; intros s; [done|]. simpl.
  by apply res_bind_ext.
Qed.

Ltac ext_step :=
  first [ apply some_of_ext; intros
        | apply all_of_ext; intros
        | apply foldM_ext; intros
        | apply res_bind_ext; [|intros] ].

Section ReaderExt.
Variable rd1 rd2 : Z -> Z -> res (option string).
Hypothesis Hrd : forall r c, rd1 r c = rd2 r c.

Lemma checkWin_on_ext n w p : checkWin_on n w rd1 p = checkWin_on n w rd2 p.
Proof.
  unfold checkWin_on, window.
  repeat (apply res_bind_ext;
          [ repeat ext_step; by rewrite ?Hrd
          | intros []; [done|] ]).
  done.
Qed.

Lemma checkDraw_on_ext n : checkDraw_on n rd1 = checkDraw_on n rd2.
Proof. unfold checkDraw_on. repeat ext_step; by rewrite ?Hrd. Qed.

Lemma getEmptyCells_on_ext n : getEmptyCells_on n rd1 = getEmptyCells_on n rd2.
Proof. unfold getEmptyCells_on. repeat ext_step; by rewrite ?Hrd. Qed.

Lemma evaluateLines_on_ext n w ai d :
  evaluateLines_on n w rd1 ai d = evaluateLines_on n w rd2 ai d.
Proof.
  unfold evaluateLines_on, line_score.
  repeat case_bool_decide; try done; repeat ext_step; by rewrite ?Hrd.
Qed.

Lemma evaluateBoard_on_ext n w ai :
  evaluateBoard_on n w rd1 ai = evaluateBoard_on n w rd2 ai.
Proof.
  unfold evaluateBoard_on.
  repeat (apply res_bind_ext; [apply evaluateLines_on_ext|intros]). done.
Qed.
End ReaderExt.

(** ** A board object that holds a given value *)

(** Where the arrays of a board object are. *)
Record layout : Type := mkLayout {
  l_grid : loc;
  l_hist : loc;
  l_rows : list loc
}.

(** The board object at [this] holds the value [b]; its arrays are at [ly];
    the row arrays are distinct objects. *)
Definition repr_at (h : heap) (this : loc) (ly : layout) (b : Board) : Prop :=
  h !! this = Some (OBoard (size b) (winLength b) (l_grid ly) (l_hist ly)
                           (currentPlayer b)) /\
  h !! l_grid ly = Some (OGrid (l_rows ly)) /\
  h !! l_hist ly = Some (OHist (moveHistory b)) /\
  Forall2 (fun rl cells => h !! rl = Some (ORow cells)) (l_rows ly) (board b) /\
  NoDup (l_rows ly).

(** The arrays that the methods of a board write to. *)
Definition writable (ly : layout) : list loc := l_hist ly :: l_rows ly.

Lemma repr_at_mono (h h' : heap) this ly b :
  h ⊆ h' -> repr_at h this ly b -> repr_at h' this ly b.
Proof.
  intros Hsub (Hb & Hg & Hh & Hrows & Hnd).
  split_and!; try (eapply lookup_weaken; eassumption); [|done].
  eapply Forall2_impl; [done|]. intros rl cells Hrl. simpl in Hrl.
  eapply lookup_weaken; eassumption.
Qed.

Section Reads.
Context (h : heap) (this : loc) (ly : layout) (b : Board).
Hypothesis Hrepr : repr_at h this ly b.

Lemma the_board_repr :
  the_board h this
  = Ok (size b, winLength b, l_grid ly, l_hist ly, currentPlayer b).
Proof. destruct Hrepr as (Hb & _). unfold the_board. by rewrite Hb. Qed.

Lemma heap_size_repr : Heap.size h this = Ok (size b).
Proof. unfold Heap.size. by rewrite the_board_repr. Qed.

Lemma heap_winLength_repr : Heap.winLength h this = Ok (winLength b).
Proof. unfold Heap.winLength. by rewrite the_board_repr. Qed.

Lemma the_grid_repr : the_grid h (l_grid ly) = Ok (l_rows ly).
Proof. destruct Hrepr as (_ & Hg & _). unfold the_grid. by rewrite Hg. Qed.

Lemma the_hist_repr : the_hist h (l_hist ly) = Ok (moveHistory b).
Proof. destruct Hrepr as (_ & _ & Hh & _). unfold the_hist. by rewrite Hh. Qed.

Lemma rows_repr (r : Z) :
  match idx (l_rows ly) r with
  | Some rl => exists cells,
      idx (board b) r = Some cells /\ h !! rl = Some (ORow cells)
  | None => idx (board b) r = None
  end.
Proof.
  destruct Hrepr as (_ & _ & _ & Hrows & _). unfold idx.
  case_decide; [|done].
  destruct (l_rows ly !! Z.to_nat r) as [rl|] eqn:Hrl.
  - destruct (Forall2_lookup_l _ _ _ _ _ Hrows Hrl) as (cells & Hc & Hcells).
    eauto.
  - apply lookup_ge_None. apply lookup_ge_None in Hrl.
    by rewrite <- (Forall2_length _ _ _ Hrows).
Qed.

Lemma heap_cell_repr (r c : Z) : Heap.cell h this r c = cell (board b) r c.
Proof.
  unfold Heap.cell, cell. rewrite the_board_repr. simpl.
  rewrite the_grid_repr. simpl.
  pose proof (rows_repr r) as Hr. destruct (idx (l_rows ly) r) as [rl|].
  - destruct Hr as (cells & -> & Hrl). unfold the_row. by rewrite Hrl.
  - by rewrite Hr.
Qed.

Lemma heap_checkWin_repr p :
  Heap.checkWin this p h = (w ← checkWin b p; Ok (w, h)).
Proof.
  unfold Heap.checkWin, reading, checkWin.
  rewrite heap_size_repr, heap_winLength_repr. simpl.
  by rewrite (checkWin_on_ext _ _ heap_cell_repr).
Qed.

Lemma heap_checkDraw_repr :
  Heap.checkDraw this h = (w ← checkDraw b; Ok (w, h)).
Proof.
  unfold Heap.checkDraw, reading, checkDraw. rewrite heap_size_repr. simpl.
  by rewrite (checkDraw_on_ext _ _ heap_cell_repr).
Qed.

Lemma heap_getEmptyCells_repr :
  Heap.getEmptyCells this h = (l ← getEmptyCells b; Ok (l, h)).
Proof.
  unfold Heap.getEmptyCells, reading, getEmptyCells. rewrite heap_size_repr.
  simpl. by rewrite (getEmptyCells_on_ext _ _ heap_cell_repr).
Qed.

Lemma evaluateBoard_repr ai :
  evaluateBoard ai this h
  = (z ← evaluateBoard_on (size b) (winLength b) (cell (board b)) ai; Ok (z, h)).
Proof.
  unfold evaluateBoard, reading.
  rewrite heap_size_repr, heap_winLength_repr. simpl.
  by rewrite (evaluateBoard_on_ext _ _ heap_cell_repr).
Qed.
End Reads.

(** ** Running a computation step by step *)

Lemma bind_step {A B} (m : M A) (k : A -> M B) (h h1 : heap) (a : A) :
  m h = Ok (a, h1) -> (m ≫= k) h = k a h1.
Proof. intros Hm. unfold mbind, M_bind. by rewrite Hm. Qed.

Lemma bind_reading {A B} (f : heap -> res A) (k : A -> M B) (h : heap) (a : A) :
  f h = Ok a -> (reading f ≫= k) h = k a h.
Proof. intros Hf. apply bind_step. unfold reading. by rewrite Hf. Qed.

Lemma bind_assoc_M {A B C} (m : M A) (k1 : A -> M B) (k2 : B -> M C) (h : heap) :
  ((m ≫= k1) ≫= k2) h = (m ≫= fun a => k1 a ≫= k2) h.
Proof. unfold mbind, M_bind. by destruct (m h) as [[a h1]|]. Qed.

(** [h'] differs from [h] at most at the addresses in [F]. *)
Definition modifies (F : list loc) (h h' : heap) : Prop :=
  forall l, l ∉ F -> h' !! l = h !! l.

Lemma modifies_refl F h : modifies F h h.
Proof. by intros l _. Qed.

Lemma modifies_trans F h1 h2 h3 :
  modifies F h1 h2 -> modifies F h2 h3 -> modifies F h1 h3.
Proof. intros H12 H23 l Hl. rewrite H23, H12; done. Qed.

Lemma modifies_insert F h l o : l ∈ F -> modifies F h (<[l := o]> h).
Proof.
  intros Hl l' Hl'. apply lookup_insert_ne. intros ->. by apply Hl'.
Qed.

Section Writes.
Context (h : heap) (this : loc) (ly : layout) (b : Board).
Hypothesis Hrepr : repr_at h this ly b.
Hypothesis Hwf : wf b.

Lemma heap_set_cell_repr (r c : Z) (v : string) :
  0 <= r < size b -> 0 <= c < size b ->
  exists h', Heap.set_cell this r c v h = Ok (tt, h') /\
    repr_at h' this ly
      (mkBoard (size b) (winLength b) (put (board b) r c v)
               (moveHistory b) (currentPlayer b)) /\
    modifies (writable ly) h h'.
Proof.
  intros Hr Hc. unfold Heap.set_cell.
  rewrite (the_board_repr h this ly b Hrepr). simpl.
  rewrite (the_grid_repr h this ly b Hrepr). simpl.
  pose proof (rows_repr h this ly b Hrepr r) as Hrow.
  destruct Hrepr as (Hb & Hg & Hh & Hrows & Hnd).
  destruct (idx_Some (l_rows ly) r) as (rl & Hi & Hrl).
  { rewrite (Forall2_length _ _ _ Hrows). destruct Hwf. lia. }
  rewrite Hi in Hrow |- *. destruct Hrow as (cells & Hci & Hcells).
  unfold the_row. rewrite Hcells. simpl.
  assert (board b !! Z.to_nat r = Some cells) as Hbr.
  { unfold idx in Hci. by rewrite decide_True in Hci by lia. }
  pose proof (wf_grid_row _ _ _ _ Hwf Hbr) as Hlen.
  unfold upd. rewrite decide_True by lia. simpl.
  eexists. split; [done|]. split.
  - unfold repr_at. simpl.
    rewrite !lookup_insert_ne by (intros ->; congruence).
    split_and!; try done.
    unfold put. rewrite Hbr.
    apply Forall2_same_length_lookup_2.
    { rewrite length_insert. by eapply Forall2_length. }
    intros i rl' cells' Hrl' Hcells'.
    destruct (decide (i = Z.to_nat r)) as [->|Hne].
    + rewrite list_lookup_insert_eq in Hcells'
        by (by eapply lookup_lt_Some).
      rewrite Hrl in Hrl'. injection Hrl' as <-. injection Hcells' as <-.
      apply lookup_insert_eq.
    + rewrite list_lookup_insert_ne in Hcells' by done.
      rewrite lookup_insert_ne.
      * exact (Forall2_lookup_lr _ _ _ _ _ _ Hrows Hrl' Hcells').
      * intros <-. apply Hne. by eapply NoDup_lookup.
  - apply modifies_insert. right. by eapply list_elem_of_lookup_2.
Qed.

Lemma heap_push_repr (m : Move) :
  exists h', Heap.push this m h = Ok (tt, h') /\
    repr_at h' this ly
      (mkBoard (size b) (winLength b) (board b)
               (moveHistory b ++ [m]) (currentPlayer b)) /\
    modifies (writable ly) h h'.
Proof.
  unfold Heap.push.
  rewrite (the_board_repr h this ly b Hrepr). simpl.
  rewrite (the_hist_repr h this ly b Hrepr). simpl.
  destruct Hrepr as (Hb & Hg & Hh & Hrows & Hnd).
  eexists. split; [done|]. split.
  - unfold repr_at. simpl.
    rewrite !lookup_insert_ne by congruence.
    rewrite lookup_insert_eq. split_and!; try done.
    eapply Forall2_impl; [done|]. intros rl cells Hrl. simpl in Hrl.
    rewrite lookup_insert_ne; [done|]. congruence.
  - apply modifies_insert. left.
Qed.

Lemma heap_pop_repr :
  exists h', Heap.pop this h = Ok (last (moveHistory b), h') /\
    repr_at h' this ly
      (mkBoard (size b) (winLength b) (board b)
               (removelast (moveHistory b)) (currentPlayer b)) /\
    modifies (writable ly) h h'.
Proof.
  unfold Heap.pop.
  rewrite (the_board_repr h this ly b Hrepr). simpl.
  rewrite (the_hist_repr h this ly b Hrepr). simpl.
  destruct Hrepr as (Hb & Hg & Hh & Hrows & Hnd).
  eexists. split; [done|]. split.
  - unfold repr_at. simpl.
    rewrite !lookup_insert_ne by congruence.
    rewrite lookup_insert_eq. split_and!; try done.
    eapply Forall2_impl; [done|]. intros rl cells Hrl. simpl in Hrl.
    rewrite lookup_insert_ne; [done|]. congruence.
  - apply modifies_insert. left.
Qed.
End Writes.

Lemma heap_placeMarker_free h this ly b r c p :
  repr_at h this ly b -> wf b -> free b r c ->
  exists h', Heap.placeMarker this r c p h = Ok (true, h') /\
    repr_at h' this ly (placed b r c p) /\ modifies (writable ly) h h'.
Proof.
  intros Hrepr Hwf (Hr & Hc & Hcell). unfold Heap.placeMarker.
  rewrite (bind_reading _ _ _ _ (heap_size_repr h this ly b Hrepr)).
  rewrite !bool_decide_eq_false_2 by lia. simpl.
  erewrite bind_reading by (rewrite (heap_cell_repr h this ly b Hrepr); apply Hcell).
  simpl.
  destruct (heap_set_cell_repr h this ly b Hrepr Hwf r c p Hr Hc)
    as (h1 & Hset & Hrepr1 & Hmod1).
  rewrite (bind_step _ _ _ _ _ Hset).
  destruct (heap_push_repr h1 this ly _ Hrepr1 (mkMove r c p))
    as (h2 & Hpush & Hrepr2 & Hmod2).
  rewrite (bind_step _ _ _ _ _ Hpush).
  exists h2. split; [done|]. split; [done|]. by eapply modifies_trans.
Qed.

Lemma heap_placeMarker_not_free h this ly b r c p :
  repr_at h this ly b -> wf b -> ~ free b r c ->
  Heap.placeMarker this r c p h = Ok (false, h).
Proof.
  intros Hrepr Hwf Hnf. unfold Heap.placeMarker.
  rewrite (bind_reading _ _ _ _ (heap_size_repr h this ly b Hrepr)).
  destruct (decide (0 <= r < size b /\ 0 <= c < size b)) as [[Hr Hc]|Hout].
  - rewrite !bool_decide_eq_false_2 by lia. simpl.
    destruct (cell_in_range b r c Hwf Hr Hc) as [s Hs].
    erewrite bind_reading by (rewrite (heap_cell_repr h this ly b Hrepr); apply Hs).
    unfold is_str. rewrite bool_decide_eq_false_2; [done|].
    intros [= ->]. apply Hnf. unfold free. tauto.
  - destruct (bool_decide (r < 0)) eqn:E1; [done|].
    destruct (bool_decide (r >= size b)) eqn:E2; [done|].
    destruct (bool_decide (c < 0)) eqn:E3; [done|].
    destruct (bool_decide (c >= size b)) eqn:E4; [done|].
    apply bool_decide_eq_false in E1, E2, E3, E4. lia.
Qed.

Lemma heap_undoMove_placed h this ly b r c p :
  repr_at h this ly (placed b r c p) -> wf b -> free b r c ->
  exists h', Heap.undoMove this h = Ok (Some (mkMove r c p), h') /\
    repr_at h' this ly b /\ modifies (writable ly) h h'.
Proof.
  intros Hrepr Hwf (Hr & Hc & Hcell). unfold Heap.undoMove.
  erewrite bind_reading; last first.
  { rewrite (the_board_repr _ _ _ _ Hrepr). simpl.
    apply (the_hist_repr _ _ _ _ Hrepr). }
  assert (moveHistory (placed b r c p) = moveHistory b ++ [mkMove r c p])
    as Hhist by done.
  rewrite Hhist. rewrite bool_decide_eq_false_2
    by (rewrite length_app; simpl; lia).
  destruct (heap_pop_repr h this ly _ Hrepr) as (h1 & Hpop & Hrepr1 & Hmod1).
  rewrite (bind_step _ _ _ _ _ Hpop). rewrite Hhist, last_snoc.
  simpl in Hrepr1. rewrite removelast_last in Hrepr1.
  destruct (heap_set_cell_repr h1 this ly _ Hrepr1) with (r := r) (c := c) (v := EMPTY)
    as (h2 & Hset & Hrepr2 & Hmod2); try done.
  { by apply (wf_placed b r c p). }
  simpl mv_row. simpl mv_col.
  rewrite (bind_step _ _ _ _ _ Hset).
  exists h2. split; [done|]. split; [|by eapply modifies_trans].
  simpl in Hrepr2. rewrite (put_put_restore (size b)) in Hrepr2 by done.
  by destruct b.
Qed.

(** ** Allocation and [clone] *)

Lemma alloc_spec (o : obj) (h : heap) :
  exists l, alloc o h = Ok (l, <[l := o]> h) /\ h !! l = None /\ h ⊆ <[l := o]> h.
Proof.
  exists (fresh (dom h)).
  assert (h !! fresh (dom h) = None) as Hfresh
    by (apply not_elem_of_dom, is_fresh).
  split; [done|]. split; [done|]. by apply insert_subseteq.
Qed.

Lemma alloc_all_spec (os : list obj) (h : heap) :
  exists ls h', Heap.alloc_all os h = Ok (ls, h') /\ h ⊆ h'.
Proof.
  revert h. induction os as [|o os IH]; intros h; cbn [Heap.alloc_all].
  - by exists [], h.
  - destruct (alloc_spec o h) as (l & Hl & _ & Hsub).
    rewrite (bind_step _ _ _ _ _ Hl).
    destruct (IH (<[l := o]> h)) as (ls & h' & Hls & Hsub').
    rewrite (bind_step _ _ _ _ _ Hls).
    exists (l :: ls), h'. split; [done|]. by etrans.
Qed.

Lemma heap_new_spec (n w : Z) (h : heap) :
  0 <= n ->
  exists nb h' g hl, Heap.new n w h = Ok (nb, h') /\ h ⊆ h' /\ h !! nb = None /\
    h' !! nb = Some (OBoard n w g hl MARK_O).
Proof.
  intros Hn. unfold Heap.new, array_fill.
  rewrite decide_True, res_bind_Ok, decide_True, res_bind_Ok by done.
  destruct (alloc_all_spec (replicate (Z.to_nat n)
              (ORow (replicate (Z.to_nat n) EMPTY))) h) as (rows & h1 & Hrows & Hsub1).
  rewrite (bind_step _ _ _ _ _ Hrows).
  destruct (alloc_spec (OGrid rows) h1) as (g & Hg & _ & Hsub2).
  rewrite (bind_step _ _ _ _ _ Hg).
  destruct (alloc_spec (OHist []) (<[g := OGrid rows]> h1)) as (hl & Hhl & _ & Hsub3).
  rewrite (bind_step _ _ _ _ _ Hhl).
  destruct (alloc_spec (OBoard n w g hl MARK_O)
              (<[hl := OHist []]> (<[g := OGrid rows]> h1)))
    as (nb & Hnb & Hfresh & Hsub4).
  exists nb. eexists. exists g, hl. split; [exact Hnb|]. split_and!.
  - etrans; [apply Hsub1|]. etrans; [apply Hsub2|].
    etrans; [apply Hsub3|apply Hsub4].
  - eapply lookup_weaken_None; [apply Hfresh|].
    etrans; [apply Hsub1|]. etrans; [apply Hsub2|apply Hsub3].
  - apply lookup_insert_eq.
Qed.

Lemma copy_row_spec (h : heap) (rl : loc) (cells : list string) :
  the_row h rl = Ok cells ->
  exists l, Heap.copy_row rl h = Ok (l, <[l := ORow cells]> h) /\
    h !! l = None /\ h ⊆ <[l := ORow cells]> h.
Proof.
  intros Hread. unfold Heap.copy_row. rewrite (bind_reading _ _ _ _ Hread).
  apply alloc_spec.
Qed.

Lemma map_rows_copy_spec (rows : list loc) (cellss : list (list string))
    (h0 h : heap) :
  h0 ⊆ h ->
  Forall2 (fun rl cells => h0 !! rl = Some (ORow cells)) rows cellss ->
  exists rows' h', Heap.map_rows Heap.copy_row rows h = Ok (rows', h') /\
    h ⊆ h' /\
    Forall2 (fun rl cells => h' !! rl = Some (ORow cells)) rows' cellss /\
    NoDup rows' /\ Forall (fun rl => h !! rl = None) rows'.
Proof.
  intros Hsub Hrows. revert h Hsub.
  induction Hrows as [|rl cells rows cellss Hrl _ IH]; intros h Hsub;
    cbn [Heap.map_rows].
  - exists [], h. split_and!; try done; constructor.
  - assert (the_row h rl = Ok cells) as Hread.
    { unfold the_row. by rewrite (lookup_weaken _ _ _ _ Hrl Hsub). }
    destruct (copy_row_spec h rl cells Hread) as (l & Hl & Hfresh & Hsub1).
    rewrite (bind_step _ _ _ _ _ Hl).
    destruct (IH (<[l := ORow cells]> h)) as (rows' & h' & Hmap & Hsub' & Hall & Hnd & Hfr);
      [by etrans|].
    rewrite (bind_step _ _ _ _ _ Hmap).
    exists (l :: rows'), h'. split; [done|]. split; [by etrans|]. split_and!.
    + constructor; [|done]. eapply lookup_weaken; [|apply Hsub'].
      apply lookup_insert_eq.
    + constructor; [|done]. intros Hin. rewrite Forall_forall in Hfr.
      specialize (Hfr l Hin). by rewrite lookup_insert_eq in Hfr.
    + constructor; [done|]. eapply Forall_impl; [apply Hfr|].
      intros x Hx. simpl in Hx. eapply lookup_weaken_None; [apply Hx|done].
Qed.

(** [clone] returns a new board object that holds the same value; nothing
    that existed before is changed, and the arrays of the clone are new. *)
Lemma heap_clone_spec (h : heap) (this : loc) (ly : layout) (b : Board) :
  repr_at h this ly b -> wf b ->
  exists nb ly' h', Heap.clone this h = Ok (nb, h') /\
    repr_at h' nb ly' b /\ h ⊆ h' /\
    Forall (fun l => h !! l = None) (writable ly').
Proof.
  intros Hrepr Hwf. unfold Heap.clone.
  rewrite (bind_reading _ _ _ _ (the_board_repr h this ly b Hrepr)).
  destruct (heap_new_spec (size b) (winLength b) h)
    as (nb & h1 & g0 & hl0 & Hnew & Hsub1 & Hnb & Hnb1).
  { destruct Hwf as [<- _]. lia. }
  rewrite (bind_step _ _ _ _ _ Hnew).
  pose proof (repr_at_mono _ _ _ _ _ Hsub1 Hrepr) as Hrepr1.
  rewrite (bind_reading _ _ _ _ (the_grid_repr h1 this ly b Hrepr1)).
  destruct Hrepr as (Hb & Hg & Hh & Hrows & Hnd).
  destruct (map_rows_copy_spec _ _ h h1 Hsub1 Hrows)
    as (rows' & h2 & Hmap & Hsub2 & Hrows' & Hnd' & Hfr).
  rewrite (bind_step _ _ _ _ _ Hmap).
  destruct (alloc_spec (OGrid rows') h2) as (g' & Hg' & Hfg & Hsub3).
  rewrite (bind_step _ _ _ _ _ Hg').
  assert (h ⊆ <[g' := OGrid rows']> h2) as Hsub03
    by (etrans; [apply Hsub1|]; etrans; [apply Hsub2|apply Hsub3]).
  assert (the_hist (<[g' := OGrid rows']> h2) (l_hist ly) = Ok (moveHistory b))
    as Hhist.
  { unfold the_hist. by rewrite (lookup_weaken _ _ _ _ Hh Hsub03). }
  rewrite (bind_reading _ _ _ _ Hhist).
  destruct (alloc_spec (OHist (moveHistory b)) (<[g' := OGrid rows']> h2))
    as (hl' & Hhl' & Hfh & Hsub4).
  rewrite (bind_step _ _ _ _ _ Hhl').
  unfold store. rewrite (bind_step _ _ _ _ _ eq_refl).
  exists nb, (mkLayout g' hl' rows'). eexists. split; [done|].
  pose proof (lookup_weaken _ _ _ _ Hnb1 Hsub2) as Hnb2.
  assert (g' <> nb) as Hgn by congruence.
  assert (hl' <> nb) as Hhn.
  { intros ->. rewrite lookup_insert_ne in Hfh by done. congruence. }
  assert (hl' <> g') as Hhg.
  { intros ->. by rewrite lookup_insert_eq in Hfh. }
  assert (forall rl cells, h2 !! rl = Some (ORow cells) ->
            rl <> nb /\ rl <> g' /\ rl <> hl') as Hrow_ne.
  { intros rl cells Hrl. split_and!; intros ->.
    - congruence.
    - congruence.
    - rewrite lookup_insert_ne in Hfh by done. congruence. }
  split; [|split].
  - unfold repr_at. simpl.
    rewrite lookup_insert_eq.
    rewrite (lookup_insert_ne _ nb g') by done.
    rewrite (lookup_insert_ne _ hl' g') by done.
    rewrite lookup_insert_eq.
    rewrite (lookup_insert_ne _ nb hl') by done.
    rewrite lookup_insert_eq.
    split_and!; try done.
    eapply Forall2_impl; [apply Hrows'|]. intros rl cells Hrl. simpl in Hrl.
    destruct (Hrow_ne _ _ Hrl) as (? & ? & ?).
    by rewrite !lookup_insert_ne by done.
  - apply insert_subseteq_r; [done|]. etrans; [apply Hsub03|apply Hsub4].
  - unfold writable. simpl. constructor.
    + eapply lookup_weaken_None; [apply Hfh|].
      etrans; [apply Hsub1|]. etrans; [apply Hsub2|apply Hsub3].
    + eapply Forall_impl; [apply Hfr|]. intros x Hx. simpl in Hx.
      eapply lookup_weaken_None; [apply Hx|done].
Qed.

(** * What the methods compute on a well-formed board *)

Definition wins (b : Board) (p : string) : bool :=
  match checkWin b p with Ok w => w | Err _ => false end.

Definition is_full (b : Board) : bool :=
  match checkDraw b with Ok d => d | Err _ => false end.

Definition is_empty (b : Board) (c : Cell) : bool :=
  match cell (board b) (row c) (col c) with
  | Ok v => is_str v EMPTY
  | Err _ => false
  end.

(** The cells of an [n] by [n] grid in row-major order. *)
Definition cells_of (n : Z) : list Cell :=
  flat_map (fun r => map (mkCell r) (range 0 n)) (range 0 n).

(** The empty cells in row-major order. *)
Definition empties (b : Board) : list Cell :=
  List.filter (is_empty b) (cells_of (size b)).

Definition score_of (ai : AI) (b : Board) : Z :=
  match evaluateBoard_on (size b) (winLength b) (cell (board b)) ai with
  | Ok z => z
  | Err _ => 0
  end.

Lemma foldM_ok {A S} (f : S -> A -> res S) (s : S) (l : list A) :
  (forall s x, x ∈ l -> is_ok (f s x)) -> is_ok (foldM f s l).
Proof.
  revert s. induction l as [|x l IH]; intros s Hok; simpl; [by eexists|].
  destruct (Hok s x) as [s' Hs']; [left|]. rewrite Hs'. simpl.
  apply IH. intros s'' y Hy. apply Hok. by right.
Qed.

Lemma is_ok_value {A} (m : res A) (d : A) :
  is_ok m -> m = Ok (match m with Ok a => a | Err _ => d end).
Proof. by intros [a ->]. Qed.

Section WellFormed.
Variable b : Board.
Hypothesis Hwf : wf b.

Lemma checkWin_wins (p : string) : checkWin b p = Ok (wins b p).
Proof.
  apply is_ok_value. unfold checkWin, checkWin_on.
  destruct (scan_spec b p (range 0 (size b)) (range 0 (size b - winLength b + 1))
              (fun rw cl k => (rw, cl + k)) Hwf) as (w1 & H1 & _).
  { intros x y k ?%elem_of_range ?%elem_of_range ?. simpl. lia. }
  destruct (scan_spec b p (range 0 (size b)) (range 0 (size b - winLength b + 1))
              (fun cl rw k => (rw + k, cl)) Hwf) as (w2 & H2 & _).
  { intros x y k ?%elem_of_range ?%elem_of_range ?. simpl. lia. }
  destruct (scan_spec b p (range 0 (size b - winLength b + 1))
              (range 0 (size b - winLength b + 1))
              (fun rw cl k => (rw + k, cl + k)) Hwf) as (w3 & H3 & _).
  { intros x y k ?%elem_of_range ?%elem_of_range ?. simpl. lia. }
  destruct (scan_spec b p (range 0 (size b - winLength b + 1))
              (range_down (size b - 1) (winLength b - 1))
              (fun rw cl k => (rw + k, cl - k)) Hwf) as (w4 & H4 & _).
  { intros x y k ?%elem_of_range ?%elem_of_range_down ?. simpl. lia. }
  simpl in H1, H2, H3, H4.
  rewrite H1. simpl. destruct w1; [by eexists|].
  rewrite H2. simpl. destruct w2; [by eexists|].
  rewrite H3. simpl. destruct w3; [by eexists|].
  rewrite H4. simpl. destruct w4; by eexists.
Qed.

Lemma is_empty_in_range (r c : Z) :
  0 <= r < size b -> 0 <= c < size b ->
  (v ← cell (board b) r c; Ok (is_str v EMPTY)) = Ok (is_empty b (mkCell r c)).
Proof.
  intros Hr Hc. unfold is_empty. simpl.
  by destruct (cell_in_range b r c Hwf Hr Hc) as [s ->].
Qed.

Lemma is_empty_free (c : Cell) :
  is_empty b c = true <-> free b (row c) (col c).
Proof.
  unfold is_empty, free, cell. split.
  - destruct (idx (board b) (row c)) as [rw|] eqn:Hrw; [|done].
    unfold is_str. intros Hv%bool_decide_eq_true.
    pose proof (idx_is_Some _ _ _ Hrw) as Hr.
    pose proof (idx_is_Some _ _ _ Hv) as Hc.
    unfold idx in Hrw. case_decide; [|done].
    pose proof (wf_grid_row _ _ _ _ Hwf Hrw) as Hl.
    destruct Hwf as [Hlen _]. split_and!; try lia. by rewrite Hv.
  - intros (_ & _ & Hcell). destruct (idx (board b) (row c)); [|done].
    injection Hcell as ->. unfold is_str. by apply bool_decide_eq_true.
Qed.

Lemma checkDraw_is_full : checkDraw b = Ok (is_full b).
Proof.
  apply is_ok_value. unfold checkDraw, checkDraw_on.
  destruct (some_of_spec (fun rw => some_of (fun cl =>
      v ← cell (board b) rw cl; Ok (is_str v EMPTY)) (range 0 (size b)))
      (range 0 (size b))) as (e & He & _).
  { intros r Hr%elem_of_range.
    destruct (some_of_spec (fun cl =>
      v ← cell (board b) r cl; Ok (is_str v EMPTY)) (range 0 (size b)))
      as (e & He & _); [|by exists e].
    intros c Hc%elem_of_range. rewrite is_empty_in_range by lia. by eexists. }
  rewrite He. by eexists.
Qed.

Lemma empties_row (acc : list Cell) (r : Z) (cols : list Z) :
  0 <= r < size b -> (forall c, c ∈ cols -> 0 <= c < size b) ->
  foldM (fun emptyCells cl =>
           v ← cell (board b) r cl;
           Ok (if is_str v EMPTY then emptyCells ++ [mkCell r cl] else emptyCells))
        acc cols
  = Ok (acc ++ List.filter (is_empty b) (map (mkCell r) cols)).
Proof.
  intros Hr. revert acc. induction cols as [|c cols IH]; intros acc Hcols; simpl.
  - by rewrite app_nil_r.
  - assert (0 <= c < size b) as Hc by (apply Hcols; left).
    destruct (cell_in_range b r c Hwf Hr Hc) as [s Hs].
    rewrite Hs. simpl. unfold is_empty at 1. simpl. rewrite Hs.
    rewrite IH by (intros; apply Hcols; by right).
    destruct (is_str (Some s) EMPTY); [|done]. by rewrite <- app_assoc.
Qed.

Lemma empties_rows (acc : list Cell) (rows : list Z) :
  (forall r, r ∈ rows -> 0 <= r < size b) ->
  foldM (fun emptyCells rw => foldM (fun emptyCells cl =>
           v ← cell (board b) rw cl;
           Ok (if is_str v EMPTY then emptyCells ++ [mkCell rw cl] else emptyCells))
           emptyCells (range 0 (size b))) acc rows
  = Ok (acc ++ List.filter (is_empty b)
          (flat_map (fun r => map (mkCell r) (range 0 (size b))) rows)).
Proof.
  revert acc. induction rows as [|r rows IH]; intros acc Hrows; simpl.
  - by rewrite app_nil_r.
  - rewrite empties_row;
      [|apply Hrows; left|by intros c Hc%elem_of_range].
    simpl. rewrite IH by (intros; apply Hrows; by right).
    by rewrite List.filter_app, app_assoc.
Qed.

Lemma getEmptyCells_empties : getEmptyCells b = Ok (empties b).
Proof.
  unfold getEmptyCells, getEmptyCells_on.
  rewrite empties_rows; [done|]. by intros r Hr%elem_of_range.
Qed.

Lemma elem_of_cells_of (c : Cell) (n : Z) :
  c ∈ cells_of n <-> 0 <= row c < n /\ 0 <= col c < n.
Proof.
  unfold cells_of. rewrite list_elem_of_In, in_flat_map. split.
  - intros (r & Hr & Hc). apply list_elem_of_In, elem_of_range in Hr.
    apply in_map_iff in Hc as (cl & <- & Hcl).
    apply list_elem_of_In, elem_of_range in Hcl. simpl. lia.
  - intros [Hr Hc]. exists (row c). split.
    + apply list_elem_of_In, elem_of_range. lia.
    + apply in_map_iff. exists (col c). split; [by destruct c|].
      apply list_elem_of_In, elem_of_range. lia.
Qed.

Lemma elem_of_empties (c : Cell) : c ∈ empties b <-> free b (row c) (col c).
Proof.
  unfold empties. rewrite list_elem_of_In, List.filter_In, <- list_elem_of_In.
  rewrite elem_of_cells_of, is_empty_free. unfold free. tauto.
Qed.

Lemma empties_all_free : Forall (fun c => free b (row c) (col c)) (empties b).
Proof. apply Forall_forall. intros c. apply elem_of_empties. Qed.
End WellFormed.

Section WellFormedScores.
Variable b : Board.
Hypothesis Hwf : wf b.

Lemma is_full_false : is_full b = false -> empties b <> [].
Proof.
  intros Hfull. pose proof (checkDraw_is_full b Hwf) as Hd.
  rewrite Hfull in Hd. unfold checkDraw, checkDraw_on in Hd.
  destruct (some_of_spec (fun rw => some_of (fun cl =>
      v ← cell (board b) rw cl; Ok (is_str v EMPTY)) (range 0 (size b)))
      (range 0 (size b))) as (e & He & Hiff).
  { intros r Hr%elem_of_range.
    destruct (some_of_spec (fun cl =>
      v ← cell (board b) r cl; Ok (is_str v EMPTY)) (range 0 (size b)))
      as (e & He & _); [|by exists e].
    intros c Hc%elem_of_range. rewrite (is_empty_in_range b Hwf) by lia.
    by eexists. }
  rewrite He in Hd. simpl in Hd. injection Hd as Hd. destruct e; [|done].
  destruct Hiff as [Hiff _]. destruct Hiff as (r & Hr & Hrow); [done|].
  apply elem_of_range in Hr.
  destruct (some_of_spec (fun cl =>
      v ← cell (board b) r cl; Ok (is_str v EMPTY)) (range 0 (size b)))
      as (e & He' & Hiff').
  { intros c Hc%elem_of_range. rewrite (is_empty_in_range b Hwf) by lia.
    by eexists. }
  rewrite Hrow in He'. injection He' as <-.
  destruct Hiff' as [Hiff' _]. destruct Hiff' as (c & Hc & Hcell); [done|].
  apply elem_of_range in Hc.
  rewrite (is_empty_in_range b Hwf) in Hcell by lia. injection Hcell as Hcell.
  assert (mkCell r c ∈ empties b) as Hin.
  { apply (elem_of_empties b Hwf). by apply (is_empty_free b Hwf). }
  intros Hnil. rewrite Hnil in Hin. inversion Hin.
Qed.

Lemma line_score_ok (ai : AI) (score : Z) (at_k : Z -> Z * Z) :
  (forall k, 0 <= k < winLength b ->
     0 <= (at_k k).1 < size b /\ 0 <= (at_k k).2 < size b) ->
  is_ok (line_score (winLength b) (cell (board b)) ai score at_k).
Proof.
  intros Hin. unfold line_score.
  destruct (foldM_ok (fun line k =>
      v ← cell (board b) (at_k k).1 (at_k k).2; Ok (line ++ [v])) []
      (range 0 (winLength b))) as [line Hline].
  { intros line k Hk%elem_of_range. destruct (Hin k Hk) as [Hr Hc].
    destruct (cell_in_range b _ _ Hwf Hr Hc) as [s ->]. by eexists. }
  rewrite Hline. by eexists.
Qed.

Lemma evaluateLines_ok (ai : AI) (d : string) :
  is_ok (evaluateLines_on (size b) (winLength b) (cell (board b)) ai d).
Proof.
  unfold evaluateLines_on.
  repeat case_bool_decide; try by eexists.
  all: apply foldM_ok; intros s1 x Hx; apply foldM_ok; intros s2 y Hy;
    apply line_score_ok; intros k Hk; simpl;
    apply elem_of_range in Hx;
    first [apply elem_of_range in Hy | apply elem_of_range_down in Hy]; lia.
Qed.

Lemma evaluateBoard_score_of (ai : AI) :
  evaluateBoard_on (size b) (winLength b) (cell (board b)) ai
  = Ok (score_of ai b).
Proof.
  apply is_ok_value. unfold evaluateBoard_on.
  destruct (evaluateLines_ok ai "row") as [r ->].
  destruct (evaluateLines_ok ai "col") as [c ->].
  destruct (evaluateLines_ok ai "diag") as [d ->].
  destruct (evaluateLines_ok ai "anti-diag") as [a ->].
  by eexists.
Qed.
End WellFormedScores.

(** * What the engine computes *)

(** The first empty cell in row-major order at which placing [who] makes
    [checkWin(who)] true. *)
Definition winning_cell (b : Board) (who : string) : option Cell :=
  List.find (fun c => wins (placed b (row c) (col c) who) who) (empties b).

Definition corners_of (n : Z) : list Cell :=
  [ mkCell 0 0; mkCell 0 (n - 1); mkCell (n - 1) 0; mkCell (n - 1) (n - 1) ].

(** A random empty cell, [null] when there is none. *)
Definition random_cell (b : Board) (u : Q) : answer :=
  if bool_decide (length (empties b) = 0%nat) then Null
  else pick_at (empties b) (random_index u (length (empties b))).

(** The rule cascade of the heuristic tier as the specification words it:
    win if a cell wins, else block the opponent's winning cell, else the
    centre, else the first empty corner, else a random empty cell. *)
Definition cascade (ai : AI) (b : Board) (u : Q) : answer :=
  match winning_cell b (marker ai) with
  | Some c => Pick c
  | None =>
  match winning_cell b (opponentMarker ai) with
  | Some c => Pick c
  | None =>
  let center := size b / 2 in
  if is_empty b (mkCell center center) then Pick (mkCell center center)
  else
    match List.find (is_empty b) (corners_of (size b)) with
    | Some c => Pick c
    | None => random_cell b u
    end
  end
  end.

(** The two loops of [minimax] on values; [child cell alpha beta] is the
    value of the position after [cell] is taken. *)
Fixpoint max_loopV (prune : bool) (child : Cell -> num -> num -> num)
    (cells : list Cell) (maxScore alpha beta : num) : num :=
  match cells with
  | [] => maxScore
  | cell :: rest =>
      let score := child cell alpha beta in
      let maxScore := nmax maxScore score in
      let alpha := nmax alpha score in
      if prune && num_le beta alpha then maxScore
      else max_loopV prune child rest maxScore alpha beta
  end.

Fixpoint min_loopV (prune : bool) (child : Cell -> num -> num -> num)
    (cells : list Cell) (minScore alpha beta : num) : num :=
  match cells with
  | [] => minScore
  | cell :: rest =>
      let score := child cell alpha beta in
      let minScore := nmin minScore score in
      let beta := nmin beta score in
      if prune && num_le beta alpha then minScore
      else min_loopV prune child rest minScore alpha beta
  end.

(** The score [minimax] returns, as a function of the board value.  Out of
    fuel it is 0; the engine is only run with enough fuel. *)
Fixpoint minimaxV (prune : bool) (fuel : nat) (ai : AI) (b : Board)
    (depth : Z) (isMaximizing : bool) (alpha beta : num) : num :=
  match fuel with
  | O => Fin 0
  | S fuel' =>
      if wins b (marker ai) then Fin (100 - depth)
      else if wins b (opponentMarker ai) then Fin (-100 + depth)
      else if is_full b || bool_decide (depth >= maxDepth ai)
      then Fin (score_of ai b)
      else if isMaximizing
      then max_loopV prune
             (fun c => minimaxV prune fuel' ai
                         (placed b (row c) (col c) (marker ai)) (depth + 1) false)
             (empties b) NegInf alpha beta
      else min_loopV prune
             (fun c => minimaxV prune fuel' ai
                         (placed b (row c) (col c) (opponentMarker ai)) (depth + 1) true)
             (empties b) PosInf alpha beta
  end.

Fixpoint best_moveV (score_at : Cell -> num) (cells : list Cell)
    (bestScore : num) (bestMove : answer) : answer :=
  match cells with
  | [] => bestMove
  | cell :: rest =>
      if num_lt bestScore (score_at cell)
      then best_moveV score_at rest (score_at cell) (Pick cell)
      else best_moveV score_at rest bestScore bestMove
  end.

(** The score of the root move [c]. *)
Definition root_score (prune : bool) (fuel : nat) (ai : AI) (b : Board)
    (c : Cell) : num :=
  minimaxV prune fuel ai (placed b (row c) (col c) (marker ai))
           0 false NegInf PosInf.

Definition minimax_choice (prune : bool) (fuel : nat) (ai : AI) (b : Board)
    (u : Q) : answer :=
  if bool_decide (length (empties b) = 0%nat) then Null
  else if bool_decide (length (empties b) = 1%nat) then pick_at (empties b) 0
  else if bool_decide (Z.of_nat (length (empties b)) > size b * size b - 3)
  then cascade ai b u
  else best_moveV (root_score prune fuel ai b) (empties b) NegInf Null.

Definition choice (prune : bool) (fuel : nat) (ai : AI) (b : Board) (u : Q)
  : answer :=
  if bool_decide (difficulty ai = "easy"%string) then random_cell b u
  else if bool_decide (difficulty ai = "medium"%string) then cascade ai b u
  else minimax_choice prune fuel ai b u.

(** * The engine against its value-level description *)

Section ReadsWf.
Context (h : heap) (this : loc) (ly : layout) (b : Board).
Hypothesis Hrepr : repr_at h this ly b.
Hypothesis Hwf : wf b.

Lemma heap_checkWin_wins p : Heap.checkWin this p h = Ok (wins b p, h).
Proof.
  rewrite (heap_checkWin_repr h this ly b Hrepr).
  by rewrite (checkWin_wins b Hwf).
Qed.

Lemma heap_checkDraw_is_full : Heap.checkDraw this h = Ok (is_full b, h).
Proof.
  rewrite (heap_checkDraw_repr h this ly b Hrepr).
  by rewrite (checkDraw_is_full b Hwf).
Qed.

Lemma heap_getEmptyCells_empties :
  Heap.getEmptyCells this h = Ok (empties b, h).
Proof.
  rewrite (heap_getEmptyCells_repr h this ly b Hrepr).
  by rewrite (getEmptyCells_empties b Hwf).
Qed.

Lemma evaluateBoard_score_of_heap ai :
  evaluateBoard ai this h = Ok (score_of ai b, h).
Proof.
  rewrite (evaluateBoard_repr h this ly b Hrepr).
  by rewrite (evaluateBoard_score_of b Hwf).
Qed.

Lemma heap_is_empty (c : Cell) :
  0 <= row c < size b -> 0 <= col c < size b ->
  exists v, Heap.cell h this (row c) (col c) = Ok v /\
    is_str v EMPTY = is_empty b c.
Proof.
  intros Hr Hc. rewrite (heap_cell_repr h this ly b Hrepr). unfold is_empty.
  destruct (cell_in_range b _ _ Hwf Hr Hc) as [s ->]. by eexists.
Qed.
End ReadsWf.

(** The board object [bc] holds [b]; everything that was in [h0] is still
    there unchanged; the arrays [bc] writes to did not exist in [h0]. *)
Definition owns (h0 h : heap) (bc : loc) (ly : layout) (b : Board) : Prop :=
  repr_at h bc ly b /\ h0 ⊆ h /\ Forall (fun l => h0 !! l = None) (writable ly).

Lemma modifies_keeps (h0 h h' : heap) (F : list loc) :
  h0 ⊆ h -> modifies F h h' -> Forall (fun l => h0 !! l = None) F -> h0 ⊆ h'.
Proof.
  intros Hsub Hmod Hnew. apply map_subseteq_spec. intros l o Hl.
  rewrite Hmod; [by eapply lookup_weaken|].
  intros Hin. rewrite Forall_forall in Hnew. specialize (Hnew l Hin). congruence.
Qed.

Section Owned.
Context (h0 : heap) (bc : loc) (ly : layout).

Lemma owns_place (h : heap) (b : Board) (r c : Z) (p : string) :
  owns h0 h bc ly b -> wf b -> free b r c ->
  exists h', Heap.placeMarker bc r c p h = Ok (true, h') /\
    owns h0 h' bc ly (placed b r c p).
Proof.
  intros (Hrepr & Hsub & Hnew) Hwf Hfree.
  destruct (heap_placeMarker_free h bc ly b r c p Hrepr Hwf Hfree)
    as (h' & Hpl & Hrepr' & Hmod).
  exists h'. split; [done|]. split; [done|]. split; [|done].
  by eapply modifies_keeps.
Qed.

Lemma owns_undo (h : heap) (b : Board) (r c : Z) (p : string) :
  owns h0 h bc ly (placed b r c p) -> wf b -> free b r c ->
  exists h', Heap.undoMove bc h = Ok (Some (mkMove r c p), h') /\
    owns h0 h' bc ly b.
Proof.
  intros (Hrepr & Hsub & Hnew) Hwf Hfree.
  destruct (heap_undoMove_placed h bc ly b r c p Hrepr Hwf Hfree)
    as (h' & Hpl & Hrepr' & Hmod).
  exists h'. split; [done|]. split; [done|]. split; [|done].
  by eapply modifies_keeps.
Qed.

Lemma winning_move_spec (b : Board) (who : string) (cells : list Cell) (h : heap) :
  wf b -> Forall (fun c => free b (row c) (col c)) cells ->
  owns h0 h bc ly b ->
  exists h', winning_move bc who cells h
    = Ok (List.find (fun c => wins (placed b (row c) (col c) who) who) cells, h') /\
    h0 ⊆ h' /\
    (List.find (fun c => wins (placed b (row c) (col c) who) who) cells = None ->
     owns h0 h' bc ly b).
Proof.
  intros Hwf Hfree. revert h.
  induction Hfree as [|c cells Hc _ IH]; intros h Hown; cbn [winning_move List.find].
  - exists h. split; [done|]. split; [apply Hown|done].
  - destruct (owns_place h b (row c) (col c) who Hown Hwf Hc)
      as (h1 & Hpl & Hown1).
    rewrite (bind_step _ _ _ _ _ Hpl).
    destruct Hown1 as (Hrepr1 & Hsub1 & Hnew1).
    rewrite (bind_step _ _ _ _ _
      (heap_checkWin_wins h1 bc ly _ Hrepr1 (wf_placed _ _ _ _ Hwf) who)).
    destruct (wins (placed b (row c) (col c) who) who).
    + exists h1. split; [done|]. split; [done|]. done.
    + destruct (owns_undo h1 b (row c) (col c) who) as (h2 & Hun & Hown2);
        [done..|].
      rewrite (bind_step _ _ _ _ _ Hun). by apply IH.
Qed.

(** The two loops of [minimax]: if the recursive call computes [childV]
    and gives the board back as it got it, so does the loop. *)
Lemma max_loop_spec (prune : bool) (b : Board) (who : string)
    (child : num -> num -> M num) (childV : Cell -> num -> num -> num)
    (cells : list Cell) :
  wf b -> Forall (fun c => free b (row c) (col c)) cells ->
  (forall c alpha beta h, c ∈ cells ->
     owns h0 h bc ly (placed b (row c) (col c) who) ->
     exists h', child alpha beta h = Ok (childV c alpha beta, h') /\
       owns h0 h' bc ly (placed b (row c) (col c) who)) ->
  forall maxScore alpha beta h, owns h0 h bc ly b ->
  exists h', max_loop prune bc who child cells maxScore alpha beta h
    = Ok (max_loopV prune childV cells maxScore alpha beta, h') /\
    owns h0 h' bc ly b.
Proof.
  intros Hwf Hfree.
  induction Hfree as [|c cells Hc _ IH]; intros Hchild m a be h Hown;
    cbn [max_loop max_loopV].
  - by exists h.
  - destruct (owns_place h b (row c) (col c) who Hown Hwf Hc)
      as (h1 & Hpl & Hown1).
    rewrite (bind_step _ _ _ _ _ Hpl).
    destruct (Hchild c a be h1) as (h2 & Hch & Hown2); [left|done|].
    rewrite (bind_step _ _ _ _ _ Hch).
    destruct (owns_undo h2 b (row c) (col c) who) as (h3 & Hun & Hown3);
      [done..|].
    rewrite (bind_step _ _ _ _ _ Hun).
    destruct (prune && num_le be (nmax a (childV c a be))).
    + by exists h3.
    + apply IH; [|done]. intros c' ? ? ? Hc'. apply Hchild. by right.
Qed.

Lemma min_loop_spec (prune : bool) (b : Board) (who : string)
    (child : num -> num -> M num) (childV : Cell -> num -> num -> num)
    (cells : list Cell) :
  wf b -> Forall (fun c => free b (row c) (col c)) cells ->
  (forall c alpha beta h, c ∈ cells ->
     owns h0 h bc ly (placed b (row c) (col c) who) ->
     exists h', child alpha beta h = Ok (childV c alpha beta, h') /\
       owns h0 h' bc ly (placed b (row c) (col c) who)) ->
  forall minScore alpha beta h, owns h0 h bc ly b ->
  exists h', min_loop prune bc who child cells minScore alpha beta h
    = Ok (min_loopV prune childV cells minScore alpha beta, h') /\
    owns h0 h' bc ly b.
Proof.
  intros Hwf Hfree.
  induction Hfree as [|c cells Hc _ IH]; intros Hchild m a be h Hown;
    cbn [min_loop min_loopV].
  - by exists h.
  - destruct (owns_place h b (row c) (col c) who Hown Hwf Hc)
      as (h1 & Hpl & Hown1).
    rewrite (bind_step _ _ _ _ _ Hpl).
    destruct (Hchild c a be h1) as (h2 & Hch & Hown2); [left|done|].
    rewrite (bind_step _ _ _ _ _ Hch).
    destruct (owns_undo h2 b (row c) (col c) who) as (h3 & Hun & Hown3);
      [done..|].
    rewrite (bind_step _ _ _ _ _ Hun).
    destruct (prune && num_le (nmin be (childV c a be)) a).
    + by exists h3.
    + apply IH; [|done]. intros c' ? ? ? Hc'. apply Hchild. by right.
Qed.

(** [minimax] with enough fuel returns the score [minimaxV] and gives the
    board back as it got it. *)
Lemma minimax_spec (prune : bool) (ai : AI) (fuel : nat) :
  forall (b : Board) (depth : Z) (isMax : bool) (alpha beta : num) (h : heap),
  wf b -> (Z.to_nat (maxDepth ai - depth) < fuel)%nat ->
  owns h0 h bc ly b ->
  exists h', minimax prune fuel ai bc depth isMax alpha beta h
    = Ok (minimaxV prune fuel ai b depth isMax alpha beta, h') /\
    owns h0 h' bc ly b.
Proof.
  induction fuel as [|fuel IH]; intros b depth isMax alpha beta h Hwf Hfuel Hown;
    [lia|]. cbn [minimax minimaxV].
  pose proof Hown as (Hrepr & _).
  rewrite (bind_step _ _ _ _ _ (heap_checkWin_wins h bc ly b Hrepr Hwf _)).
  destruct (wins b (marker ai)); [by exists h|].
  rewrite (bind_step _ _ _ _ _ (heap_checkWin_wins h bc ly b Hrepr Hwf _)).
  destruct (wins b (opponentMarker ai)); [by exists h|].
  rewrite (bind_step _ _ _ _ _ (heap_checkDraw_is_full h bc ly b Hrepr Hwf)).
  destruct (is_full b || bool_decide (depth >= maxDepth ai)) eqn:Hcut.
  { rewrite (bind_step _ _ _ _ _ (evaluateBoard_score_of_heap h bc ly b Hrepr Hwf ai)).
    by exists h. }
  apply orb_false_iff in Hcut as [_ Hdepth%bool_decide_eq_false].
  rewrite (bind_step _ _ _ _ _ (heap_getEmptyCells_empties h bc ly b Hrepr Hwf)).
  destruct isMax.
  - apply (max_loop_spec prune b (marker ai)); try done.
    + by apply empties_all_free.
    + intros c a be h1 _ Hown1. apply IH; [by apply wf_placed|lia|done].
  - apply (min_loop_spec prune b (opponentMarker ai)); try done.
    + by apply empties_all_free.
    + intros c a be h1 _ Hown1. apply IH; [by apply wf_placed|lia|done].
Qed.

Lemma best_move_spec (prune : bool) (fuel : nat) (ai : AI) (b : Board)
    (cells : list Cell) :
  wf b -> (Z.to_nat (maxDepth ai) < fuel)%nat ->
  Forall (fun c => free b (row c) (col c)) cells ->
  forall bestScore bestMove h, owns h0 h bc ly b ->
  exists h', best_move prune fuel ai bc cells bestScore bestMove h
    = Ok (best_moveV (root_score prune fuel ai b) cells bestScore bestMove, h') /\
    owns h0 h' bc ly b.
Proof.
  intros Hwf Hfuel Hfree.
  induction Hfree as [|c cells Hc _ IH]; intros bs bm h Hown;
    cbn [best_move best_moveV].
  - by exists h.
  - destruct (owns_place h b (row c) (col c) (marker ai) Hown Hwf Hc)
      as (h1 & Hpl & Hown1).
    rewrite (bind_step _ _ _ _ _ Hpl).
    destruct (minimax_spec prune ai fuel
                (placed b (row c) (col c) (marker ai)) 0 false NegInf PosInf h1
                (wf_placed b (row c) (col c) (marker ai) Hwf))
      as (h2 & Hmm & Hown2);
      [rewrite Z.sub_0_r; lia|done|].
    rewrite (bind_step _ _ _ _ _ Hmm).
    destruct (owns_undo h2 b (row c) (col c) (marker ai)) as (h3 & Hun & Hown3);
      [done..|].
    rewrite (bind_step _ _ _ _ _ Hun).
    fold (root_score prune fuel ai b c).
    destruct (num_lt bs (root_score prune fuel ai b c)); by apply IH.
Qed.
End Owned.

Section ReadingMoves.
Context (h : heap) (board : loc) (ly : layout) (b : Board).
Hypothesis Hrepr : repr_at h board ly b.
Hypothesis Hwf : wf b.

Lemma makeRandomMove_spec (u : Q) :
  makeRandomMove board u h = Ok (random_cell b u, h).
Proof.
  unfold makeRandomMove, random_cell.
  rewrite (bind_step _ _ _ _ _ (heap_getEmptyCells_empties h board ly b Hrepr Hwf)).
  by case_bool_decide.
Qed.

Lemma first_empty_spec (corners : list Cell) :
  Forall (fun c => 0 <= row c < size b /\ 0 <= col c < size b) corners ->
  first_empty board corners h = Ok (List.find (is_empty b) corners, h).
Proof.
  induction 1 as [|c corners [Hr Hc] _ IH]; cbn [first_empty List.find]; [done|].
  destruct (heap_is_empty h board ly b Hrepr Hwf c Hr Hc) as (v & Hv & Hemp).
  rewrite (bind_reading _ _ _ _ Hv). rewrite Hemp.
  by destruct (is_empty b c).
Qed.

End ReadingMoves.

Lemma corners_in_range (n : Z) :
  0 < n -> Forall (fun c => 0 <= row c < n /\ 0 <= col c < n) (corners_of n).
Proof. intros Hn. unfold corners_of. repeat constructor; simpl; lia. Qed.

Section MediumMove.
Context (h : heap) (board : loc) (ly : layout) (b : Board).
Hypothesis Hrepr : repr_at h board ly b.
Hypothesis Hwf : wf b.

(** [makeMediumMove] returns the cell of the cascade, and nothing that
    existed before the call is changed. *)
Lemma makeMediumMove_spec (ai : AI) (u : Q) :
  0 < size b ->
  exists h', makeMediumMove ai board u h = Ok (cascade ai b u, h') /\ h ⊆ h'.
Proof.
  intros Hsize. unfold makeMediumMove, cascade.
  destruct (heap_clone_spec h board ly b Hrepr Hwf)
    as (bc & ly' & h1 & Hclone & Hrepr1 & Hsub1 & Hnew).
  rewrite (bind_step _ _ _ _ _ Hclone).
  rewrite (bind_step _ _ _ _ _ (heap_getEmptyCells_empties h1 bc ly' b Hrepr1 Hwf)).
  assert (owns h h1 bc ly' b) as Hown by done.
  destruct (winning_move_spec h bc ly' b (marker ai) (empties b) h1 Hwf
              (empties_all_free b Hwf) Hown) as (h2 & Hwin & Hsub2 & Hown2).
  rewrite (bind_step _ _ _ _ _ Hwin). unfold winning_cell at 1.
  destruct (List.find _ (empties b)) as [c|]; [by exists h2|].
  specialize (Hown2 eq_refl).
  destruct (winning_move_spec h bc ly' b (opponentMarker ai) (empties b) h2 Hwf
              (empties_all_free b Hwf) Hown2) as (h3 & Hblock & Hsub3 & Hown3).
  rewrite (bind_step _ _ _ _ _ Hblock). unfold winning_cell at 1.
  destruct (List.find _ (empties b)) as [c|]; [by exists h3|].
  specialize (Hown3 eq_refl). destruct Hown3 as (_ & _ & _).
  pose proof (repr_at_mono _ _ _ _ _ Hsub3 Hrepr) as Hrepr3.
  rewrite (bind_reading _ _ _ _ (heap_size_repr h3 board ly b Hrepr3)).
  assert (0 <= size b / 2 < size b) as Hcenter.
  { split; [apply Z.div_pos; lia|apply Z.div_lt_upper_bound; lia]. }
  destruct (heap_is_empty h3 board ly b Hrepr3 Hwf
              (mkCell (size b / 2) (size b / 2)) Hcenter Hcenter)
    as (v & Hv & Hemp).
  rewrite (bind_reading _ _ _ _ Hv). rewrite Hemp.
  destruct (is_empty b _); [by exists h3|].
  rewrite (bind_step _ _ _ _ _
    (first_empty_spec h3 board ly b Hrepr3 Hwf (corners_of (size b))
       (corners_in_range (size b) Hsize))).
  destruct (List.find _ _) as [c|]; [by exists h3|].
  exists h3. split; [|done]. by apply (makeRandomMove_spec h3 board ly b).
Qed.
End MediumMove.

Section MinimaxMove.
Context (h : heap) (board : loc) (ly : layout) (b : Board).
Hypothesis Hrepr : repr_at h board ly b.
Hypothesis Hwf : wf b.
Hypothesis Hsize : 0 < size b.

Lemma makeMinimaxMove_spec (prune : bool) (fuel : nat) (ai : AI) (u : Q) :
  (Z.to_nat (maxDepth ai) < fuel)%nat ->
  exists h', makeMinimaxMove prune fuel ai board u h
    = Ok (minimax_choice prune fuel ai b u, h') /\ h ⊆ h'.
Proof.
  intros Hfuel. unfold makeMinimaxMove, minimax_choice.
  destruct (heap_clone_spec h board ly b Hrepr Hwf)
    as (bc & ly' & h1 & Hclone & Hrepr1 & Hsub1 & Hnew).
  rewrite (bind_step _ _ _ _ _ Hclone).
  rewrite (bind_step _ _ _ _ _ (heap_getEmptyCells_empties h1 bc ly' b Hrepr1 Hwf)).
  case_bool_decide; [by exists h1|].
  case_bool_decide; [by exists h1|].
  pose proof (repr_at_mono _ _ _ _ _ Hsub1 Hrepr) as Hrepr1'.
  rewrite (bind_reading _ _ _ _ (heap_size_repr h1 board ly b Hrepr1')).
  case_bool_decide.
  - destruct (makeMediumMove_spec h1 board ly b Hrepr1' Hwf ai u Hsize)
      as (h2 & Hmed & Hsub2).
    exists h2. split; [done|]. by etrans.
  - destruct (best_move_spec h bc ly' prune fuel ai b (empties b) Hwf Hfuel
                (empties_all_free b Hwf) NegInf Null h1) as (h2 & Hbest & Hown2);
      [done|].
    exists h2. split; [done|]. apply Hown2.
Qed.

(** [makeMove] returns [choice], and nothing that existed before the call
    is changed. *)
Lemma makeMove_spec (prune : bool) (fuel : nat) (ai : AI) (u : Q) :
  (Z.to_nat (maxDepth ai) < fuel)%nat ->
  exists h', makeMove_with prune fuel ai board u h
    = Ok (choice prune fuel ai b u, h') /\ h ⊆ h'.
Proof.
  intros Hfuel. unfold makeMove_with, choice.
  case_bool_decide.
  { exists h. split; [|done]. by apply (makeRandomMove_spec h board ly b). }
  case_bool_decide.
  { by apply (makeMediumMove_spec h board ly b). }
  by apply makeMinimaxMove_spec.
Qed.
End MinimaxMove.

(** * Alpha-beta pruning does not change the score at the root *)

Ltac num_crush :=
  unfold num_lt, nmax, nmin in *;
  repeat match goal with x : num |- _ => destruct x end;
  simpl in *;
  repeat match goal with
    | H : bool_decide _ = true |- _ => apply bool_decide_eq_true in H
    | H : bool_decide _ = false |- _ => apply bool_decide_eq_false in H
    end;
  repeat (case_bool_decide; simpl in * );
  try done; try lia; try (exfalso; lia);
  try (apply bool_decide_eq_true; lia); try (f_equal; lia).

Section Order.
Implicit Types a b c d : num.

Lemma num_le_refl a : num_le a a = true.
Proof. num_crush. Qed.

Lemma num_le_trans a b c :
  num_le a b = true -> num_le b c = true -> num_le a c = true.
Proof. intros. num_crush. Qed.

Lemma num_le_antisym a b : num_le a b = true -> num_le b a = true -> a = b.
Proof. intros. num_crush. Qed.

Lemma num_lt_le_false a b : num_lt a b = true -> num_le b a = true -> False.
Proof. intros. num_crush. Qed.

Lemma num_le_or_lt a b : num_le a b = true \/ num_lt b a = true.
Proof. num_crush; auto. Qed.

Lemma nmax_l a b : num_le a (nmax a b) = true.
Proof. num_crush. Qed.

Lemma nmax_r a b : num_le b (nmax a b) = true.
Proof. num_crush. Qed.

Lemma nmax_assoc a b c : nmax (nmax a b) c = nmax a (nmax b c).
Proof. num_crush. Qed.

Lemma nmax_absorb a b : num_le b a = true -> nmax a b = a.
Proof. intros. num_crush. Qed.

Lemma nmax_take a b : num_lt a b = true -> nmax a b = b.
Proof. intros. num_crush. Qed.

Lemma nmax_mono a b c d :
  num_le a c = true -> num_le b d = true -> num_le (nmax a b) (nmax c d) = true.
Proof. intros. num_crush. Qed.

Lemma nmax_lt a b c :
  num_lt a c = true -> num_lt b c = true -> num_lt (nmax a b) c = true.
Proof. intros. num_crush. Qed.

Lemma nmax_lt_inv_r a b c : num_lt (nmax a b) c = true -> num_lt b c = true.
Proof. intros. num_crush. Qed.

Lemma nmax_ge_inv a b c :
  num_le c (nmax a b) = true -> num_lt a c = true -> num_le c b = true.
Proof. intros. num_crush. Qed.

Lemma num_lt_le_trans a b c :
  num_lt a b = true -> num_le b c = true -> num_lt a c = true.
Proof. intros. num_crush. Qed.

Lemma num_le_lt_trans a b c :
  num_le a b = true -> num_lt b c = true -> num_lt a c = true.
Proof. intros. num_crush. Qed.

Lemma num_lt_of_not_le a b : num_le a b = false -> num_lt b a = true.
Proof. intros. num_crush. Qed.

Lemma nmin_l a b : num_le (nmin a b) a = true.
Proof. num_crush. Qed.

Lemma nmin_r a b : num_le (nmin a b) b = true.
Proof. num_crush. Qed.

Lemma nmin_assoc a b c : nmin (nmin a b) c = nmin a (nmin b c).
Proof. num_crush. Qed.

Lemma nmin_absorb a b : num_le a b = true -> nmin a b = a.
Proof. intros. num_crush. Qed.

Lemma nmin_take a b : num_lt b a = true -> nmin a b = b.
Proof. intros. num_crush. Qed.

Lemma nmin_mono a b c d :
  num_le a c = true -> num_le b d = true -> num_le (nmin a b) (nmin c d) = true.
Proof. intros. num_crush. Qed.

Lemma nmin_lt a b c :
  num_lt c a = true -> num_lt c b = true -> num_lt c (nmin a b) = true.
Proof. intros. num_crush. Qed.

Lemma nmin_lt_inv_r a b c : num_lt c (nmin a b) = true -> num_lt c b = true.
Proof. intros. num_crush. Qed.

Lemma nmin_le_inv a b c :
  num_le (nmin a b) c = true -> num_lt c a = true -> num_le b c = true.
Proof. intros. num_crush. Qed.
End Order.

(** What a search with the window [(alpha, beta)] guarantees about its
    result [r], when the search without cutoffs gives [v]: below [beta] the
    result is an upper bound of [v], above [alpha] it is a lower bound. *)
Definition within (r v alpha beta : num) : Prop :=
  (num_lt r beta = true -> num_le v r = true) /\
  (num_lt alpha r = true -> num_le r v = true).

Lemma within_exact (v alpha beta : num) : within v v alpha beta.
Proof. split; intros _; apply num_le_refl. Qed.

Lemma within_full_window (r v : num) : within r v NegInf PosInf -> r = v.
Proof. intros [HA HB]. destruct r, v; simpl in *; auto; try (by apply num_le_antisym; auto);
  try (by specialize (HA eq_refl)); try (by specialize (HB eq_refl)). Qed.

(** The maximum and the minimum over all cells, from [m]. *)
Definition maxs (f : Cell -> num) (cells : list Cell) (m : num) : num :=
  fold_left (fun acc c => nmax acc (f c)) cells m.

Definition mins (f : Cell -> num) (cells : list Cell) (m : num) : num :=
  fold_left (fun acc c => nmin acc (f c)) cells m.

Lemma maxs_ge f cells m : num_le m (maxs f cells m) = true.
Proof.
  revert m. induction cells as [|c cells IH]; intros m; simpl.
  - apply num_le_refl.
  - eapply num_le_trans; [apply (nmax_l m (f c))|apply IH].
Qed.

Lemma mins_le f cells m : num_le (mins f cells m) m = true.
Proof.
  revert m. induction cells as [|c cells IH]; intros m; simpl.
  - apply num_le_refl.
  - eapply num_le_trans; [apply IH|apply (nmin_l m (f c))].
Qed.

(** Without cutoffs the loops are plain folds, whatever the window. *)
Lemma max_loopV_full (child : Cell -> num -> num -> num) (f : Cell -> num)
    (cells : list Cell) :
  (forall c a be, c ∈ cells -> child c a be = f c) ->
  forall m a be, max_loopV false child cells m a be = maxs f cells m.
Proof.
  induction cells as [|c cells IH]; intros Hch m a be; simpl; [done|].
  rewrite (Hch c) by left. apply IH. intros; apply Hch. by right.
Qed.

Lemma min_loopV_full (child : Cell -> num -> num -> num) (f : Cell -> num)
    (cells : list Cell) :
  (forall c a be, c ∈ cells -> child c a be = f c) ->
  forall m a be, min_loopV false child cells m a be = mins f cells m.
Proof.
  induction cells as [|c cells IH]; intros Hch m a be; simpl; [done|].
  rewrite (Hch c) by left. apply IH. intros; apply Hch. by right.
Qed.

(** The maximising loop with cutoffs.  [m] is the running maximum of the
    loop, [M] the running maximum of the search without cutoffs. *)
Lemma max_loopV_within (cab : Cell -> num -> num -> num) (cex : Cell -> num)
    (alpha0 beta : num) (cells : list Cell) :
  (forall c a, c ∈ cells -> num_lt a beta = true ->
     within (cab c a beta) (cex c) a beta) ->
  forall m M,
    num_lt (nmax alpha0 m) beta = true ->
    num_le M m = true ->
    (num_lt alpha0 m = true -> num_le m M = true) ->
    within (max_loopV true cab cells m (nmax alpha0 m) beta)
           (maxs cex cells M) alpha0 beta.
Proof.
  induction cells as [|c cells IH]; intros Hch m M Ha HMm HmM; simpl.
  - by split.
  - destruct (Hch c (nmax alpha0 m)) as [HA HB]; [left|done|].
    pose proof (maxs_ge cex cells (nmax M (cex c))) as Hge.
    set (s := cab c (nmax alpha0 m) beta) in *.
    set (v := cex c) in *.
    destruct (num_le beta (nmax (nmax alpha0 m) s)) eqn:Hcut.
    + (* cutoff: the score reached beta *)
      assert (num_le beta s = true) as Hbs by (eapply nmax_ge_inv; eauto).
      assert (num_lt (nmax alpha0 m) s = true) as Has
        by (eapply num_lt_le_trans; eauto).
      assert (nmax m s = s) as Hms.
      { apply nmax_take. eapply num_le_lt_trans; [apply nmax_r|apply Has]. }
      rewrite Hms. split.
      * intros Hlt. exfalso. eapply num_lt_le_false; eauto.
      * intros _. eapply num_le_trans; [apply (HB Has)|].
        eapply num_le_trans; [apply (nmax_r M v)|apply Hge].
    + (* no cutoff *)
      apply num_lt_of_not_le in Hcut.
      assert (num_le v s = true) as Hvs
        by (apply HA; eapply nmax_lt_inv_r; eauto).
      rewrite nmax_assoc in Hcut |- *.
      apply IH; [intros c' a Hc'; apply Hch; by right|done|by apply nmax_mono|].
      intros Hlt. destruct (num_le_or_lt s m) as [Hsm|Hms].
      * rewrite (nmax_absorb m s) in Hlt |- * by done.
        eapply num_le_trans; [apply (HmM Hlt)|apply nmax_l].
      * rewrite (nmax_take m s) in Hlt |- * by done.
        eapply num_le_trans; [|apply nmax_r]. apply HB. by apply nmax_lt.
Qed.

(** The minimising loop with cutoffs. *)
Lemma min_loopV_within (cab : Cell -> num -> num -> num) (cex : Cell -> num)
    (alpha beta0 : num) (cells : list Cell) :
  (forall c be, c ∈ cells -> num_lt alpha be = true ->
     within (cab c alpha be) (cex c) alpha be) ->
  forall m M,
    num_lt alpha (nmin beta0 m) = true ->
    num_le m M = true ->
    (num_lt m beta0 = true -> num_le M m = true) ->
    within (min_loopV true cab cells m alpha (nmin beta0 m))
           (mins cex cells M) alpha beta0.
Proof.
  induction cells as [|c cells IH]; intros Hch m M Hb HmM HMm; simpl.
  - by split.
  - destruct (Hch c (nmin beta0 m)) as [HA HB]; [left|done|].
    pose proof (mins_le cex cells (nmin M (cex c))) as Hle.
    set (s := cab c alpha (nmin beta0 m)) in *.
    set (v := cex c) in *.
    destruct (num_le (nmin (nmin beta0 m) s) alpha) eqn:Hcut.
    + (* cutoff: the score fell to alpha *)
      assert (num_le s alpha = true) as Hsa by (eapply nmin_le_inv; eauto).
      assert (num_lt s (nmin beta0 m) = true) as Hsb
        by (eapply num_le_lt_trans; eauto).
      assert (nmin m s = s) as Hms.
      { apply nmin_take. eapply num_lt_le_trans; [apply Hsb|apply nmin_r]. }
      rewrite Hms. split.
      * intros _. eapply num_le_trans; [apply Hle|].
        eapply num_le_trans; [apply (nmin_r M v)|apply (HA Hsb)].
      * intros Hlt. exfalso. eapply num_lt_le_false; eauto.
    + (* no cutoff *)
      apply num_lt_of_not_le in Hcut.
      assert (num_le s v = true) as Hsv
        by (apply HB; eapply nmin_lt_inv_r; eauto).
      rewrite nmin_assoc in Hcut |- *.
      apply IH; [intros c' a Hc'; apply Hch; by right|done|by apply nmin_mono|].
      intros Hlt. destruct (num_le_or_lt m s) as [Hms|Hsm].
      * rewrite (nmin_absorb m s) in Hlt |- * by done.
        eapply num_le_trans; [apply nmin_l|apply (HMm Hlt)].
      * rewrite (nmin_take m s) in Hlt |- * by done.
        eapply num_le_trans; [apply nmin_r|]. apply HA. by apply nmin_lt.
Qed.

(** The score of the search without cutoffs. *)
Definition exact (fuel : nat) (ai : AI) (b : Board) (depth : Z) (isMax : bool)
  : num :=
  minimaxV false fuel ai b depth isMax NegInf PosInf.

Lemma minimaxV_full_window (fuel : nat) (ai : AI) :
  forall b depth isMax alpha beta,
    minimaxV false fuel ai b depth isMax alpha beta = exact fuel ai b depth isMax.
Proof.
  unfold exact. induction fuel as [|fuel IH]; intros b depth isMax alpha beta;
    [done|]. cbn [minimaxV].
  destruct (wins b (marker ai)); [done|].
  destruct (wins b (opponentMarker ai)); [done|].
  destruct (is_full b || bool_decide (depth >= maxDepth ai)); [done|].
  destruct isMax.
  - rewrite !(max_loopV_full _ (fun c => minimaxV false fuel ai
        (placed b (row c) (col c) (marker ai)) (depth + 1) false NegInf PosInf));
      [done|intros; apply IH..].
  - rewrite !(min_loopV_full _ (fun c => minimaxV false fuel ai
        (placed b (row c) (col c) (opponentMarker ai)) (depth + 1) true NegInf PosInf));
      [done|intros; apply IH..].
Qed.

(** The search with cutoffs, run with a window [alpha < beta], is within
    that window of the search without cutoffs. *)
Lemma minimaxV_within (fuel : nat) (ai : AI) :
  forall b depth isMax alpha beta,
    num_lt alpha beta = true ->
    within (minimaxV true fuel ai b depth isMax alpha beta)
           (exact fuel ai b depth isMax) alpha beta.
Proof.
  induction fuel as [|fuel IH]; intros b depth isMax alpha beta Hab;
    [apply within_exact|].
  unfold exact. cbn [minimaxV].
  destruct (wins b (marker ai)); [apply within_exact|].
  destruct (wins b (opponentMarker ai)); [apply within_exact|].
  destruct (is_full b || bool_decide (depth >= maxDepth ai)); [apply within_exact|].
  destruct isMax.
  - rewrite (max_loopV_full _ (fun c => exact fuel ai
        (placed b (row c) (col c) (marker ai)) (depth + 1) false))
      by (intros; apply minimaxV_full_window).
    replace alpha with (nmax alpha NegInf) at 1 by (by destruct alpha).
    apply max_loopV_within.
    + intros c a _ Ha. by apply IH.
    + by destruct alpha.
    + done.
    + by destruct alpha.
  - rewrite (min_loopV_full _ (fun c => exact fuel ai
        (placed b (row c) (col c) (opponentMarker ai)) (depth + 1) true))
      by (intros; apply minimaxV_full_window).
    replace beta with (nmin beta PosInf) at 1 by (by destruct beta).
    apply min_loopV_within.
    + intros c be _ Hbe. by apply IH.
    + by destruct beta.
    + done.
    + by destruct beta.
Qed.

(** At the root the window is everything, so the scores agree. *)
Lemma root_score_prune (fuel : nat) (ai : AI) (b : Board) (c : Cell) :
  root_score true fuel ai b c = root_score false fuel ai b c.
Proof.
  unfold root_score. rewrite (minimaxV_full_window fuel ai).
  apply within_full_window. by apply minimaxV_within.
Qed.

Lemma best_moveV_ext (f g : Cell -> num) (cells : list Cell) :
  (forall c, f c = g c) ->
  forall bs bm, best_moveV f cells bs bm = best_moveV g cells bs bm.
Proof.
  intros Hfg. induction cells as [|c cells IH]; intros bs bm; simpl; [done|].
  rewrite Hfg. by rewrite !IH.
Qed.

Lemma choice_prune (fuel : nat) (ai : AI) (b : Board) (u : Q) :
  choice true fuel ai b u = choice false fuel ai b u.
Proof.
  unfold choice, minimax_choice. repeat case_bool_decide; try done.
  apply best_moveV_ext. apply root_score_prune.
Qed.

(** * The selected move is legal *)

Lemma random_index_range (u : Q) (n : nat) :
  (0 <= u)%Q -> (u < 1)%Q -> (0 < n)%nat ->
  0 <= random_index u n < Z.of_nat n.
Proof.
  intros Hu0 Hu1 Hn. unfold random_index.
  set (N := inject_Z (Z.of_nat n)).
  assert (0 < N)%Q as HN.
  { unfold N. change 0%Q with (inject_Z 0). rewrite <- Zlt_Qlt. lia. }
  split.
  - change 0 with (Qfloor 0). apply Qfloor_resp_le.
    apply Qmult_le_0_compat; [done|]. by apply Qlt_le_weak.
  - rewrite Zlt_Qlt. fold N.
    eapply Qle_lt_trans; [apply Qfloor_le|].
    rewrite <- (Qmult_1_l N) at 2. by apply Qmult_lt_compat_r.
Qed.

(** [a] is a cell that is inside the grid and empty. *)
Definition legal (b : Board) (a : answer) : Prop :=
  exists c, a = Pick c /\ free b (row c) (col c).

Section Legal.
Variable b : Board.
Hypothesis Hwf : wf b.

Lemma legal_elem (c : Cell) : c ∈ empties b -> legal b (Pick c).
Proof. intros Hc. exists c. split; [done|]. by apply elem_of_empties. Qed.

Lemma legal_is_empty (c : Cell) : is_empty b c = true -> legal b (Pick c).
Proof. intros Hc. exists c. split; [done|]. by apply is_empty_free. Qed.

Lemma is_empty_nil (c : Cell) : empties b = [] -> is_empty b c = false.
Proof.
  intros Hnil. destruct (is_empty b c) eqn:Hc; [|done].
  apply is_empty_free, elem_of_empties in Hc; [|done..].
  rewrite Hnil in Hc. inversion Hc.
Qed.

Lemma find_is_empty_nil (cs : list Cell) :
  empties b = [] -> List.find (is_empty b) cs = None.
Proof.
  intros Hnil. induction cs as [|c cs IH]; [done|]. simpl.
  by rewrite is_empty_nil.
Qed.

Lemma pick_at_legal (i : Z) :
  0 <= i < Z.of_nat (length (empties b)) -> legal b (pick_at (empties b) i).
Proof.
  intros Hi. unfold pick_at.
  destruct (idx_Some (empties b) i Hi) as (c & -> & Hc).
  apply legal_elem. by eapply list_elem_of_lookup_2.
Qed.

Lemma random_cell_legal (u : Q) :
  (0 <= u)%Q -> (u < 1)%Q ->
  if decide (empties b = []) then random_cell b u = Null
  else legal b (random_cell b u).
Proof.
  intros Hu0 Hu1. unfold random_cell. case_decide as Hnil.
  - by rewrite Hnil.
  - rewrite bool_decide_eq_false_2 by (by destruct (empties b)).
    apply pick_at_legal. apply random_index_range; try done.
    destruct (empties b); [done|simpl; lia].
Qed.

Lemma cascade_legal (ai : AI) (u : Q) :
  (0 <= u)%Q -> (u < 1)%Q ->
  if decide (empties b = []) then cascade ai b u = Null
  else legal b (cascade ai b u).
Proof.
  intros Hu0 Hu1. pose proof (random_cell_legal u Hu0 Hu1) as Hrand.
  unfold cascade, winning_cell. case_decide as Hnil.
  - rewrite Hnil. cbn [List.find]. rewrite is_empty_nil by done.
    by rewrite find_is_empty_nil.
  - destruct (List.find (fun c => wins (placed b (row c) (col c) (marker ai))
                                      (marker ai)) (empties b))
      as [c|] eqn:Hwin.
    { apply List.find_some in Hwin as [Hin _].
      by apply legal_elem, list_elem_of_In. }
    destruct (List.find (fun c => wins (placed b (row c) (col c)
                                    (opponentMarker ai)) (opponentMarker ai))
                (empties b)) as [c|] eqn:Hblock.
    { apply List.find_some in Hblock as [Hin _].
      by apply legal_elem, list_elem_of_In. }
    destruct (is_empty b _) eqn:Hcenter; [by apply legal_is_empty|].
    destruct (List.find _ (corners_of _)) as [c|] eqn:Hcorner; [|done].
    apply List.find_some in Hcorner as [_ Hc]. by apply legal_is_empty.
Qed.
End Legal.

Definition is_fin (x : num) : Prop := exists z, x = Fin z.

Lemma max_loopV_fin (prune : bool) (child : Cell -> num -> num -> num)
    (cells : list Cell) :
  (forall c a be, is_fin (child c a be)) ->
  forall m a be, is_fin m \/ (m = NegInf /\ cells <> []) ->
  is_fin (max_loopV prune child cells m a be).
Proof.
  intros Hch. induction cells as [|c cells IH]; intros m a be Hm; simpl.
  - destruct Hm as [?|[_ ?]]; done.
  - assert (is_fin (nmax m (child c a be))) as Hfin.
    { destruct (Hch c a be) as [s ->].
      destruct Hm as [[z ->]|[-> _]]; unfold nmax; simpl;
        [case_bool_decide|]; by eexists. }
    destruct (prune && _); [done|]. apply IH. by left.
Qed.

Lemma min_loopV_fin (prune : bool) (child : Cell -> num -> num -> num)
    (cells : list Cell) :
  (forall c a be, is_fin (child c a be)) ->
  forall m a be, is_fin m \/ (m = PosInf /\ cells <> []) ->
  is_fin (min_loopV prune child cells m a be).
Proof.
  intros Hch. induction cells as [|c cells IH]; intros m a be Hm; simpl.
  - destruct Hm as [?|[_ ?]]; done.
  - assert (is_fin (nmin m (child c a be))) as Hfin.
    { destruct (Hch c a be) as [s ->].
      destruct Hm as [[z ->]|[-> _]]; unfold nmin; simpl;
        [case_bool_decide|]; by eexists. }
    destruct (prune && _); [done|]. apply IH. by left.
Qed.

(** On well-formed boards every score is a number. *)
Lemma minimaxV_fin (prune : bool) (fuel : nat) (ai : AI) :
  forall b depth isMax alpha beta,
    wf b -> is_fin (minimaxV prune fuel ai b depth isMax alpha beta).
Proof.
  induction fuel as [|fuel IH]; intros b depth isMax alpha beta Hwf;
    [by eexists|]. cbn [minimaxV].
  destruct (wins b (marker ai)); [by eexists|].
  destruct (wins b (opponentMarker ai)); [by eexists|].
  destruct (is_full b || _) eqn:Hcut; [by eexists|].
  apply orb_false_iff in Hcut as [Hfull _].
  pose proof (is_full_false b Hwf Hfull) as Hne.
  destruct isMax.
  - apply max_loopV_fin; [|by right]. intros. apply IH. by apply wf_placed.
  - apply min_loopV_fin; [|by right]. intros. apply IH. by apply wf_placed.
Qed.

Lemma best_moveV_pick (f : Cell -> num) (cells : list Cell) :
  forall bs c0, exists c, best_moveV f cells bs (Pick c0) = Pick c /\
    (c = c0 \/ c ∈ cells).
Proof.
  induction cells as [|c cells IH]; intros bs c0; simpl.
  - exists c0. by split; [|left].
  - destruct (num_lt bs (f c)).
    + destruct (IH (f c) c) as (c' & Heq & Hc'). exists c'.
      split; [done|]. right. destruct Hc' as [->|Hc']; [left|by right].
    + destruct (IH bs c0) as (c' & Heq & Hc'). exists c'.
      split; [done|]. destruct Hc' as [->|Hc']; [by left|right; by right].
Qed.

Lemma minimax_choice_legal (prune : bool) (fuel : nat) (ai : AI) (b : Board)
    (u : Q) :
  wf b -> (0 <= u)%Q -> (u < 1)%Q ->
  if decide (empties b = []) then minimax_choice prune fuel ai b u = Null
  else legal b (minimax_choice prune fuel ai b u).
Proof.
  intros Hwf Hu0 Hu1. unfold minimax_choice. case_decide as Hnil.
  - by rewrite Hnil.
  - rewrite bool_decide_eq_false_2 by (by destruct (empties b)).
    case_bool_decide as Hone.
    { apply pick_at_legal; [done|]. lia. }
    case_bool_decide.
    { pose proof (cascade_legal b Hwf ai u Hu0 Hu1) as Hc.
      by rewrite decide_False in Hc by done. }
    destruct (empties b) as [|c cells] eqn:He; [done|]. simpl.
    destruct (minimaxV_fin prune fuel ai
                (placed b (row c) (col c) (marker ai)) 0 false NegInf PosInf)
      as [z Hz]; [by apply wf_placed|].
    unfold root_score at 1. rewrite Hz. simpl. fold (root_score prune fuel ai b c).
    destruct (best_moveV_pick (root_score prune fuel ai b) cells
                (root_score prune fuel ai b c) c) as (c' & -> & Hc').
    exists c'. split; [done|]. apply (elem_of_empties b Hwf). rewrite He.
    destruct Hc' as [->|Hc']; [left|by right].
Qed.

Lemma choice_legal (prune : bool) (fuel : nat) (ai : AI) (b : Board) (u : Q) :
  wf b -> (0 <= u)%Q -> (u < 1)%Q ->
  if decide (empties b = []) then choice prune fuel ai b u = Null
  else legal b (choice prune fuel ai b u).
Proof.
  intros Hwf Hu0 Hu1. unfold choice. repeat case_bool_decide.
  - by apply random_cell_legal.
  - by apply cascade_legal.
  - by apply minimax_choice_legal.
Qed.

(** * Properties of the engine *)

Lemma minimax_choice_prune (fuel : nat) (ai : AI) (b : Board) (u : Q) :
  minimax_choice true fuel ai b u = minimax_choice false fuel ai b u.
Proof.
  unfold minimax_choice. repeat case_bool_decide; try done.
  apply best_moveV_ext. apply root_score_prune.
Qed.

(** C4. On every well-formed board of positive size, for every engine
    (marker, depth bound) and with fuel above the depth bound, the minimax
    branch with the cutoffs [beta <= alpha] and the same branch without them
    both return, and they return the same move. *)
Theorem alpha_beta_same_move (h : heap) (board : loc) (ly : layout) (b : Board)
    (ai : AI) (fuel : nat) (u : Q) :
  repr_at h board ly b -> wf b -> 0 < size b ->
  (Z.to_nat (maxDepth ai) < fuel)%nat ->
  exists a h1 h2,
    makeMinimaxMove true fuel ai board u h = Ok (a, h1) /\
    makeMinimaxMove false fuel ai board u h = Ok (a, h2).
Proof.
  intros Hrepr Hwf Hsize Hfuel.
  destruct (makeMinimaxMove_spec h board ly b Hrepr Hwf Hsize true fuel ai u Hfuel)
    as (h1 & H1 & _).
  destruct (makeMinimaxMove_spec h board ly b Hrepr Hwf Hsize false fuel ai u Hfuel)
    as (h2 & H2 & _).
  exists (minimax_choice true fuel ai b u), h1, h2. split; [done|].
  by rewrite minimax_choice_prune.
Qed.

(** The empty 5 by 5 board with win length 4. *)
Definition empty_5x5 : Board :=
  mkBoard 5 4 (replicate 5 (replicate 5 EMPTY)) [] MARK_O.

Lemma cascade_empty_5x5 (m : string) (u : Q) :
  valid_marker m -> cascade (newAI m "medium") empty_5x5 u = Pick (mkCell 2 2).
Proof. intros [-> | ->]; by vm_compute. Qed.

(** C5. On a well-formed board of positive size the heuristic tier of
    [makeMove] returns the cell of the rule cascade: the first empty cell in
    row-major order at which placing the engine's marker wins, else the
    first at which placing the opponent's marker wins, else the centre if
    it is empty, else the first empty corner (top-left, top-right,
    bottom-left, bottom-right), else a random empty cell.  On the empty
    5 by 5 board with win length 4, with marker O or X, that is (2, 2). *)
Theorem heuristic_cascade (h : heap) (board : loc) (ly : layout) (b : Board)
    (ai : AI) (fuel : nat) (u : Q) :
  repr_at h board ly b -> wf b -> 0 < size b ->
  difficulty ai = "medium"%string ->
  (exists h', makeMove fuel ai board u h = Ok (cascade ai b u, h')) /\
  (forall m, valid_marker m -> ai = newAI m "medium" -> b = empty_5x5 ->
     exists h', makeMove fuel ai board u h = Ok (Pick (mkCell 2 2), h')).
Proof.
  intros Hrepr Hwf Hsize Hmed.
  assert (exists h', makeMove fuel ai board u h = Ok (cascade ai b u, h')) as Hc.
  { unfold makeMove, makeMove_with. rewrite Hmed. simpl.
    destruct (makeMediumMove_spec h board ly b Hrepr Hwf ai u Hsize) as (h' & Hm & _).
    by exists h'. }
  split; [done|]. intros m Hm -> ->.
  by rewrite cascade_empty_5x5 in Hc.
Qed.

(** C8. On a well-formed board of positive size, for every engine, with
    fuel above the depth bound and a random number in [0, 1), [makeMove]
    returns; it returns [null] exactly when [getEmptyCells] is empty, and
    otherwise a cell inside the grid that is empty. *)
Theorem makeMove_null_or_legal (h : heap) (board : loc) (ly : layout)
    (b : Board) (ai : AI) (fuel : nat) (u : Q) :
  repr_at h board ly b -> wf b -> 0 < size b ->
  (Z.to_nat (maxDepth ai) < fuel)%nat -> (0 <= u)%Q -> (u < 1)%Q ->
  exists a h', makeMove fuel ai board u h = Ok (a, h') /\
    (a = Null <-> getEmptyCells b = Ok []) /\
    (getEmptyCells b <> Ok [] -> legal b a).
Proof.
  intros Hrepr Hwf Hsize Hfuel Hu0 Hu1.
  destruct (makeMove_spec h board ly b Hrepr Hwf Hsize true fuel ai u Hfuel)
    as (h' & Hmove & _).
  exists (choice true fuel ai b u), h'. split; [done|].
  rewrite (getEmptyCells_empties b Hwf).
  pose proof (choice_legal true fuel ai b u Hwf Hu0 Hu1) as Hlegal.
  case_decide as Hnil.
  - rewrite Hnil, Hlegal. by split.
  - split.
    + split.
      * intros Ha. rewrite Ha in Hlegal. by destruct Hlegal as (c & ? & _).
      * intros [= He]. done.
    + by intros _.
Qed.

(** C9. On a well-formed board of positive size, for every engine and with
    fuel above the depth bound, [makeMove] returns, and every object that
    existed before the call is unchanged after it; in particular the
    caller's board object and its arrays hold the same size, win length,
    grid, history and current player. *)
Theorem makeMove_frame (h : heap) (board : loc) (ly : layout) (b : Board)
    (ai : AI) (fuel : nat) (u : Q) :
  repr_at h board ly b -> wf b -> 0 < size b ->
  (Z.to_nat (maxDepth ai) < fuel)%nat ->
  exists a h', makeMove fuel ai board u h = Ok (a, h') /\
    (forall l o, h !! l = Some o -> h' !! l = Some o) /\
    repr_at h' board ly b.
Proof.
  intros Hrepr Hwf Hsize Hfuel.
  destruct (makeMove_spec h board ly b Hrepr Hwf Hsize true fuel ai u Hfuel)
    as (h' & Hmove & Hsub).
  exists (choice true fuel ai b u), h'. split; [done|]. split.
  - intros l o Hl. by eapply lookup_weaken.
  - by eapply repr_at_mono.
Qed.

(** With more than one and more than [size * size - 3] empty cells
    [makeMinimaxMove] hands over to [makeMediumMove] before the loop over
    the root moves: it returns whatever the fuel is, also with none. *)
Lemma makeMinimaxMove_first_moves (h : heap) (board : loc) (ly : layout)
    (b : Board) (prune : bool) (fuel : nat) (ai : AI) (u : Q) :
  repr_at h board ly b -> wf b -> 0 < size b ->
  (1 < length (empties b))%nat ->
  Z.of_nat (length (empties b)) > size b * size b - 3 ->
  exists h1 h2 bc,
    Heap.clone board h = Ok (bc, h1) /\
    makeMediumMove ai board u h1 = Ok (cascade ai b u, h2) /\
    makeMinimaxMove prune fuel ai board u h = Ok (cascade ai b u, h2).
Proof.
  intros Hrepr Hwf Hsize Hmore Hmany. unfold makeMinimaxMove.
  destruct (heap_clone_spec h board ly b Hrepr Hwf)
    as (bc & ly' & h1 & Hclone & Hrepr1 & Hsub1 & Hnew).
  rewrite (bind_step _ _ _ _ _ Hclone).
  rewrite (bind_step _ _ _ _ _ (heap_getEmptyCells_empties h1 bc ly' b Hrepr1 Hwf)).
  rewrite !bool_decide_eq_false_2 by lia.
  pose proof (repr_at_mono _ _ _ _ _ Hsub1 Hrepr) as Hrepr1'.
  rewrite (bind_reading _ _ _ _ (heap_size_repr h1 board ly b Hrepr1')).
  rewrite bool_decide_eq_true_2 by done.
  destruct (makeMediumMove_spec h1 board ly b Hrepr1' Hwf ai u Hsize)
    as (h2 & Hmed & _).
  by exists h1, h2, bc.
Qed.

(** C10. At the tiers hard and master (depth bound 3 and 4), on a
    well-formed board of positive size with more than one empty cell and
    more than [size * size - 3] empty cells, [makeMove] skips [minimax]
    entirely and returns the move of the rule cascade.  It returns that
    move for every amount of fuel, also for fuel 0, with which every call
    of [minimax] raises; and what it does is: clone the board, read the
    empty cells, and run [makeMediumMove] on the caller's board, whose
    answer and store it hands back. *)
Theorem first_moves_use_cascade (h : heap) (board : loc) (ly : layout)
    (b : Board) (m d : string) (fuel : nat) (u : Q) (cells : list Cell) :
  repr_at h board ly b -> wf b -> 0 < size b ->
  d = "hard"%string \/ d = "master"%string ->
  getEmptyCells b = Ok cells ->
  Z.of_nat (length cells) > size b * size b - 3 -> (1 < length cells)%nat ->
  (maxDepth (newAI m d) = 3 \/ maxDepth (newAI m d) = 4) /\
  (forall prune ai bd depth isMax alpha beta h',
     minimax prune 0 ai bd depth isMax alpha beta h' = Err OutOfFuel) /\
  exists h1 h2 h3 bc,
    Heap.clone board h = Ok (bc, h1) /\
    makeMediumMove (newAI m d) board u h1 = Ok (cascade (newAI m d) b u, h2) /\
    makeMove fuel (newAI m d) board u h = Ok (cascade (newAI m d) b u, h2) /\
    makeMove 0 (newAI m d) board u h = Ok (cascade (newAI m d) b u, h2) /\
    makeMediumMove (newAI m d) board u h = Ok (cascade (newAI m d) b u, h3).
Proof.
  intros Hrepr Hwf Hsize Hd Hcells Hmany Hmore.
  rewrite (getEmptyCells_empties b Hwf) in Hcells. injection Hcells as <-.
  split; [destruct Hd as [-> | ->]; [by left|by right]|].
  split; [done|].
  destruct (makeMinimaxMove_first_moves h board ly b true fuel (newAI m d) u
              Hrepr Hwf Hsize Hmore Hmany) as (h1 & h2 & bc & Hclone & Hmed1 & Hmm).
  destruct (makeMinimaxMove_first_moves h board ly b true 0 (newAI m d) u
              Hrepr Hwf Hsize Hmore Hmany) as (h1' & h2' & bc' & Hclone' & Hmed1' & Hmm0).
  rewrite Hclone in Hclone'. injection Hclone' as <- <-.
  rewrite Hmed1 in Hmed1'. injection Hmed1' as <-.
  destruct (makeMediumMove_spec h board ly b Hrepr Hwf (newAI m d) u Hsize)
    as (h3 & Hmed & _).
  exists h1, h2, h3, bc.
  assert (forall f, makeMove f (newAI m d) board u h
                    = makeMinimaxMove true f (newAI m d) board u h) as Hmove.
  { intros f. unfold makeMove, makeMove_with.
    assert (difficulty (newAI m d) = d) as -> by done.
    by rewrite !bool_decide_eq_false_2 by (destruct Hd as [-> | ->]; done). }
  rewrite !Hmove. by split_and!.
Qed.

(** ** Saving and restoring *)

(** [dst.deserialize(src.serialize())] *)
Definition restore (src dst : loc) : M unit :=
  data ← Heap.serialize src; Heap.deserialize dst data.

(** C7. If the board object [src] holds the value [b] and [dst] is a board
    object, then after [dst.deserialize(src.serialize())] the object [dst]
    holds [b]: the same size, win length, grid, history and current player;
    [src] still holds [b]. *)
Theorem serialize_deserialize_roundtrip (h : heap) (src dst : loc)
    (ly : layout) (b : Board) :
  repr_at h src ly b -> is_ok (the_board h dst) ->
  exists h', restore src dst h = Ok (tt, h') /\
    repr_at h' dst ly b /\ repr_at h' src ly b.
Proof.
  intros Hrepr [d0 Hdst]. unfold restore, Heap.serialize.
  rewrite (bind_reading _ _ _ _ (the_board_repr h src ly b Hrepr)).
  unfold Heap.deserialize. rewrite Hdst. simpl.
  eexists. split; [done|].
  destruct Hrepr as (Hb & Hg & Hh & Hrows & Hnd).
  assert (exists s w g hl cp, h !! dst = Some (OBoard s w g hl cp)) as Hd.
  { unfold the_board in Hdst. destruct (h !! dst) as [[]|]; try done.
    by eexists _, _, _, _, _. }
  destruct Hd as (s & w & g & hl & cp & Hd).
  assert (forall rl cells, h !! rl = Some (ORow cells) -> dst <> rl)
    as Hrow by congruence.
  split.
  - unfold repr_at. rewrite lookup_insert_eq.
    rewrite !lookup_insert_ne by congruence. split_and!; try done.
    eapply Forall2_impl; [done|]. intros rl cells Hrl. simpl in Hrl.
    rewrite lookup_insert_ne; [done|]. by eapply Hrow.
  - unfold repr_at. rewrite !(lookup_insert_ne _ dst (l_grid ly)) by congruence.
    rewrite !(lookup_insert_ne _ dst (l_hist ly)) by congruence.
    split_and!; try done.
    + destruct (decide (dst = src)) as [->|Hne].
      * by rewrite lookup_insert_eq.
      * by rewrite lookup_insert_ne.
    + eapply Forall2_impl; [done|]. intros rl cells Hrl. simpl in Hrl.
      rewrite lookup_insert_ne; [done|]. by eapply Hrow.
Qed.

(** * The theorems at concrete boards *)

(** The empty 3 by 3 board with win length 3. *)
Definition empty_3x3 : Board :=
  mkBoard 3 3 (replicate 3 (replicate 3 EMPTY)) [] MARK_O.

(** A store that holds the board [b] at address 1, its array of rows at 2,
    its history at 3 and its rows from 4 on. *)
Definition row_locs (b : Board) : list loc :=
  (fun i => Pos.of_nat (4 + i)) <$> seq 0 (length (board b)).

Definition heap_of (b : Board) : heap :=
  <[1%positive := OBoard (size b) (winLength b) 2%positive 3%positive
                        (currentPlayer b)]>
    (<[2%positive := OGrid (row_locs b)]>
       (<[3%positive := OHist (moveHistory b)]>
          (list_to_map (zip (row_locs b) (ORow <$> board b))))).

Definition layout_of (b : Board) : layout :=
  mkLayout 2%positive 3%positive (row_locs b).

Lemma wf_empty_3x3 : wf empty_3x3.
Proof. split; [reflexivity|]. repeat constructor. Defined.

Lemma wf_empty_5x5 : wf empty_5x5.
Proof. split; [reflexivity|]. repeat constructor. Defined.

Lemma repr_empty_3x3 : repr_at (heap_of empty_3x3) 1%positive (layout_of empty_3x3) empty_3x3.
Proof.
  unfold repr_at. split_and!; try by vm_compute.
  - repeat constructor.
  - apply (bool_decide_unpack _). by vm_compute.
Defined.

Lemma repr_empty_5x5 : repr_at (heap_of empty_5x5) 1%positive (layout_of empty_5x5) empty_5x5.
Proof.
  unfold repr_at. split_and!; try by vm_compute.
  - repeat constructor.
  - apply (bool_decide_unpack _). by vm_compute.
Defined.

(** Three X in the top row of the 3 by 3 board. *)
Definition top_row_3x3 : Board :=
  placed (placed (placed empty_3x3 0 0 MARK_X) 0 1 MARK_X) 0 2 MARK_X.

Lemma wf_top_row_3x3 : wf top_row_3x3.
Proof. split; [reflexivity|]. repeat constructor. Defined.

(** A position in the middle of a 3 by 3 game, X to move: five cells are
    empty, so the search tier is used. *)
Definition middle_game : Board :=
  placed (placed (placed (placed empty_3x3 1 1 MARK_X) 0 0 MARK_O) 0 1 MARK_X)
         2 1 MARK_O.

Lemma wf_middle_game : wf middle_game.
Proof. split; [reflexivity|]. repeat constructor. Defined.

Lemma repr_middle_game :
  repr_at (heap_of middle_game) 1%positive (layout_of middle_game) middle_game.
Proof.
  unfold repr_at. split_and!; try by vm_compute.
  - repeat constructor.
  - apply (bool_decide_unpack _). by vm_compute.
Defined.

(** The 3 by 3 board after O took the centre. *)
Definition centre_taken : Board := placed empty_3x3 1 1 MARK_O.

Lemma wf_centre_taken : wf centre_taken.
Proof. split; [reflexivity|]. repeat constructor. Defined.

Lemma repr_centre_taken :
  repr_at (heap_of centre_taken) 1%positive (layout_of centre_taken) centre_taken.
Proof.
  unfold repr_at. split_and!; try by vm_compute.
  - repeat constructor.
  - apply (bool_decide_unpack _). by vm_compute.
Defined.

(** On the board with three X in the top row: [checkWin("X")] is computed
    as [true], and the run is the one from (0, 0) to the right. *)
Lemma checkWin_iff_run_witness :
  exists w, checkWin top_row_3x3 MARK_X = Ok w /\
    (w = true <-> has_run top_row_3x3 MARK_X).
Proof.
  apply (checkWin_iff_run top_row_3x3 MARK_X); [apply wf_top_row_3x3|simpl; lia].
Defined.

Lemma placeMarker_spec_witness :
  (~ free empty_3x3 1 1 -> placeMarker empty_3x3 1 1 MARK_X = Ok (false, empty_3x3)) /\
  (free empty_3x3 1 1 ->
     exists b', placeMarker empty_3x3 1 1 MARK_X = Ok (true, b') /\
       size b' = size empty_3x3 /\ winLength b' = winLength empty_3x3 /\
       currentPlayer b' = currentPlayer empty_3x3 /\
       moveHistory b' = moveHistory empty_3x3 ++ [mkMove 1 1 MARK_X] /\
       wf b' /\
       forall r' c', cell (board b') r' c' =
         if decide (r' = 1 /\ c' = 1) then Ok (Some MARK_X)
         else cell (board empty_3x3) r' c').
Proof. apply (placeMarker_spec empty_3x3 1 1 MARK_X), wf_empty_3x3. Defined.

Lemma two_placements :
  placements empty_3x3 [mkMove 0 0 MARK_O; mkMove 1 1 MARK_X]
             (placed (placed empty_3x3 0 0 MARK_O) 1 1 MARK_X).
Proof.
  apply (placements_cons _ _ (placed empty_3x3 0 0 MARK_O)); [reflexivity|].
  apply (placements_cons _ _ (placed (placed empty_3x3 0 0 MARK_O) 1 1 MARK_X));
    [reflexivity|].
  apply placements_nil.
Defined.

Lemma undoMove_spec_witness :
  undo_n 3 (placed (placed empty_3x3 0 0 MARK_O) 1 1 MARK_X)
  = Ok ([Some (mkMove 1 1 MARK_X); Some (mkMove 0 0 MARK_O); None], empty_3x3).
Proof.
  apply (proj1 (proj2 (proj2 undoMove_spec) 3 3 empty_3x3
                  [mkMove 0 0 MARK_O; mkMove 1 1 MARK_X]
                  (placed (placed empty_3x3 0 0 MARK_O) 1 1 MARK_X)
                  eq_refl two_placements)).
Defined.

(** O at (0, 0), the turn passed, X at (1, 1), the turn passed, O at
    (0, 1), and that last move taken back: two markers are on the grid and
    two moves in the history. *)
Definition after_undo : Board :=
  placed (switchPlayer (placed empty_3x3 0 0 MARK_O)) 1 1 MARK_X.

Lemma reachable_after_undo : reachable 3 3 (switchPlayer after_undo).
Proof.
  apply (reach_undo 3 3 (placed (switchPlayer after_undo) 0 1 MARK_O)
           (Some (mkMove 0 1 MARK_O)) (switchPlayer after_undo)); [|reflexivity].
  apply (reach_place 3 3 (switchPlayer after_undo) 0 1 MARK_O true); [|by left|reflexivity].
  apply reach_switch.
  apply (reach_place 3 3 (switchPlayer (placed empty_3x3 0 0 MARK_O)) 1 1 MARK_X true);
    [|by right|reflexivity].
  apply reach_switch.
  apply (reach_place 3 3 empty_3x3 0 0 MARK_O true); [|by left|reflexivity].
  by apply reach_new.
Defined.

Lemma history_invariant_witness :
  length (moveHistory (switchPlayer after_undo))
  = nonempty_cells (board (switchPlayer after_undo)) /\
  exists b0 b1, newBoard 3 3 = Ok b0 /\
    replay b0 (moveHistory (switchPlayer after_undo)) = Ok b1 /\
    board b1 = board (switchPlayer after_undo).
Proof.
  apply (history_invariant 3 3 (switchPlayer after_undo)).
  apply reachable_after_undo.
Defined.

(** In [middle_game] five cells are empty, which is not more than
    [3 * 3 - 3]: both runs search every root move with [minimax] to depth
    4, and inside the tree cutoffs are taken ([cutoff_changes_inner_score]
    below). *)
Lemma alpha_beta_same_move_witness :
  exists a h1 h2,
    makeMinimaxMove true 5 (newAI MARK_X "master") 1%positive (1 # 2)
                    (heap_of middle_game)
      = Ok (a, h1) /\
    makeMinimaxMove false 5 (newAI MARK_X "master") 1%positive (1 # 2)
                    (heap_of middle_game)
      = Ok (a, h2).
Proof.
  apply (alpha_beta_same_move (heap_of middle_game) 1%positive (layout_of middle_game)
           middle_game (newAI MARK_X "master") 5 (1 # 2));
    [apply repr_middle_game|apply wf_middle_game|reflexivity|vm_compute; lia].
Defined.

Lemma heuristic_cascade_witness :
  (exists h', makeMove 5 (newAI MARK_X "medium") 1%positive (1 # 2) (heap_of empty_5x5)
     = Ok (cascade (newAI MARK_X "medium") empty_5x5 (1 # 2), h')) /\
  (forall m, valid_marker m -> newAI MARK_X "medium" = newAI m "medium" ->
     empty_5x5 = empty_5x5 ->
     exists h', makeMove 5 (newAI MARK_X "medium") 1%positive (1 # 2) (heap_of empty_5x5)
       = Ok (Pick (mkCell 2 2), h')).
Proof.
  apply (heuristic_cascade (heap_of empty_5x5) 1%positive (layout_of empty_5x5)
           empty_5x5 (newAI MARK_X "medium") 5 (1 # 2));
    [apply repr_empty_5x5|apply wf_empty_5x5|reflexivity|reflexivity].
Defined.

Lemma makeMove_null_or_legal_witness :
  exists a h', makeMove 5 (newAI MARK_X "master") 1%positive (1 # 2) (heap_of empty_3x3)
      = Ok (a, h') /\
    (a = Null <-> getEmptyCells empty_3x3 = Ok []) /\
    (getEmptyCells empty_3x3 <> Ok [] -> legal empty_3x3 a).
Proof.
  apply (makeMove_null_or_legal (heap_of empty_3x3) 1%positive (layout_of empty_3x3)
           empty_3x3 (newAI MARK_X "master") 5 (1 # 2));
    [apply repr_empty_3x3|apply wf_empty_3x3|reflexivity|vm_compute; lia
    |discriminate|reflexivity].
Defined.

Lemma makeMove_frame_witness :
  exists a h', makeMove 5 (newAI MARK_X "hard") 1%positive (1 # 2) (heap_of empty_3x3)
      = Ok (a, h') /\
    (forall l o, heap_of empty_3x3 !! l = Some o -> h' !! l = Some o) /\
    repr_at h' 1%positive (layout_of empty_3x3) empty_3x3.
Proof.
  apply (makeMove_frame (heap_of empty_3x3) 1%positive (layout_of empty_3x3)
           empty_3x3 (newAI MARK_X "hard") 5 (1 # 2));
    [apply repr_empty_3x3|apply wf_empty_3x3|reflexivity|vm_compute; lia].
Defined.

(** After O took the centre eight cells are empty, more than
    [3 * 3 - 3]: the engine for X at the tier hard answers with the cascade
    (the first empty corner), with fuel 5 as with fuel 0. *)
Lemma first_moves_use_cascade_witness :
  (maxDepth (newAI MARK_X "hard") = 3 \/ maxDepth (newAI MARK_X "hard") = 4) /\
  (forall prune ai bd depth isMax alpha beta h',
     minimax prune 0 ai bd depth isMax alpha beta h' = Err OutOfFuel) /\
  exists h1 h2 h3 bc,
    Heap.clone 1%positive (heap_of centre_taken) = Ok (bc, h1) /\
    makeMediumMove (newAI MARK_X "hard") 1%positive (1 # 2) h1
      = Ok (cascade (newAI MARK_X "hard") centre_taken (1 # 2), h2) /\
    makeMove 5 (newAI MARK_X "hard") 1%positive (1 # 2) (heap_of centre_taken)
      = Ok (cascade (newAI MARK_X "hard") centre_taken (1 # 2), h2) /\
    makeMove 0 (newAI MARK_X "hard") 1%positive (1 # 2) (heap_of centre_taken)
      = Ok (cascade (newAI MARK_X "hard") centre_taken (1 # 2), h2) /\
    makeMediumMove (newAI MARK_X "hard") 1%positive (1 # 2) (heap_of centre_taken)
      = Ok (cascade (newAI MARK_X "hard") centre_taken (1 # 2), h3).
Proof.
  apply (first_moves_use_cascade (heap_of centre_taken) 1%positive
           (layout_of centre_taken) centre_taken MARK_X "hard" 5 (1 # 2)
           (empties centre_taken));
    [apply repr_centre_taken|apply wf_centre_taken|reflexivity|by left
    |reflexivity|reflexivity|vm_compute; lia].
Defined.

(** Two 1 by 1 boards in one store: at 1 a board with X played, at 5 an
    empty board. *)
Definition two_boards : heap :=
  <[1%positive := OBoard 1 1 2%positive 3%positive MARK_X]>
    (<[2%positive := OGrid [4%positive]]>
       (<[3%positive := OHist [mkMove 0 0 MARK_X]]>
          (<[4%positive := ORow [MARK_X]]>
             (<[5%positive := OBoard 1 1 6%positive 7%positive MARK_O]>
                (<[6%positive := OGrid [8%positive]]>
                   (<[7%positive := OHist []]>
                      (<[8%positive := ORow [EMPTY]]> ∅))))))).

Definition played_1x1 : Board :=
  mkBoard 1 1 [[MARK_X]] [mkMove 0 0 MARK_X] MARK_X.

Lemma serialize_deserialize_roundtrip_witness :
  exists h', restore 1%positive 5%positive two_boards = Ok (tt, h') /\
    repr_at h' 5%positive (mkLayout 2%positive 3%positive [4%positive]) played_1x1 /\
    repr_at h' 1%positive (mkLayout 2%positive 3%positive [4%positive]) played_1x1.
Proof.
  apply (serialize_deserialize_roundtrip two_boards 1%positive 5%positive
           (mkLayout 2%positive 3%positive [4%positive]) played_1x1).
  - unfold repr_at. split_and!; try by vm_compute.
    + repeat constructor.
    + apply (bool_decide_unpack _). by vm_compute.
  - eexists. by vm_compute.
Defined.

(** * The model run on the inputs of the repository's tests *)

(** The value a computation returns, without the store. *)
Definition returned {A} (m : res (A * heap)) : res A :=
  match m with
  | Ok (a, _) => Ok a
  | Err e => Err e
  end.

(** [AI.test.js]: three O in the top row of the 5 by 5 board. *)
Definition three_in_a_row (p : string) : Board :=
  placed (placed (placed empty_5x5 0 0 p) 0 1 p) 0 2 p.

Example medium_blocks :
  returned (makeMediumMove (newAI MARK_X "medium") 1%positive (1 # 2)
              (heap_of (three_in_a_row MARK_O)))
  = Ok (Pick (mkCell 0 3)).
Proof. by vm_compute. Qed.

Example medium_wins :
  returned (makeMediumMove (newAI MARK_X "medium") 1%positive (1 # 2)
              (heap_of (three_in_a_row MARK_X)))
  = Ok (Pick (mkCell 0 3)).
Proof. by vm_compute. Qed.

Example medium_takes_a_corner :
  returned (makeMediumMove (newAI MARK_X "medium") 1%positive (1 # 2)
              (heap_of (placed empty_5x5 2 2 MARK_O)))
  = Ok (Pick (mkCell 0 0)).
Proof. by vm_compute. Qed.

Example hard_completes_the_row :
  returned (makeMinimaxMove true 4 (newAI MARK_X "hard") 1%positive (1 # 2)
              (heap_of (placed (placed empty_3x3 0 0 MARK_X) 0 1 MARK_X)))
  = Ok (Pick (mkCell 0 2)).
Proof. by vm_compute. Qed.

Example evaluation_is_negative_for_the_opponent :
  evaluateBoard_on 5 4 (cell (board (three_in_a_row MARK_O)))
                   (newAI MARK_X "medium")
  = Ok (-1150).
Proof. by vm_compute. Qed.

(** [Board.test.js]: a change of the clone does not reach the original. *)
Example clone_is_independent :
  returned ((clonedBoard ← Heap.clone 1%positive;
             _ ← Heap.placeMarker clonedBoard 2 2 MARK_O;
             original ← reading (fun h => Heap.cell h 1%positive 2 2);
             copy ← reading (fun h => Heap.cell h clonedBoard 2 2);
             mret (original, copy))
              (heap_of (placed (placed empty_5x5 0 0 MARK_O) 1 1 MARK_X)))
  = Ok (Some EMPTY, Some MARK_O).
Proof. by vm_compute. Qed.

(** Inside the tree a cutoff does change the score that is returned: with
    the window (-1000, -500) the search with cutoffs stops at -100, the
    search without them finds -97. *)
Example cutoff_changes_inner_score :
  minimaxV true 5 (newAI MARK_X "master") middle_game 0 false
           (Fin (-1000)) (Fin (-500)) = Fin (-100) /\
  minimaxV false 5 (newAI MARK_X "master") middle_game 0 false
           (Fin (-1000)) (Fin (-500)) = Fin (-97).
Proof. by vm_compute. Qed.

Example master_move_in_middle_game :
  returned (makeMinimaxMove true 5 (newAI MARK_X "master") 1%positive (1 # 2)
              (heap_of middle_game))
  = Ok (Pick (mkCell 1 0)) /\
  returned (makeMinimaxMove false 5 (newAI MARK_X "master") 1%positive (1 # 2)
              (heap_of middle_game))
  = Ok (Pick (mkCell 1 0)).
Proof. by vm_compute. Qed.

(** On a board of size 0 the heuristic tier reads [board[0][0]] and raises;
    the properties of the engine are stated for boards of positive size. *)
Example medium_on_size_0 :
  returned (makeMediumMove (newAI MARK_X "medium") 1%positive (1 # 2)
              (heap_of (mkBoard 0 0 [] [] MARK_O)))
  = Err TypeError.
Proof. by vm_compute. Qed.

(** * Further properties of the board *)

(** ** [checkDraw] and [getEmptyCells] *)

Lemma is_full_true (b : Board) : wf b -> is_full b = true -> empties b = [].
Proof.
  intros Hwf Hfull. pose proof (checkDraw_is_full b Hwf) as Hd.
  rewrite Hfull in Hd. unfold checkDraw, checkDraw_on in Hd.
  destruct (some_of_spec (fun rw => some_of (fun cl =>
      v ← cell (board b) rw cl; Ok (is_str v EMPTY)) (range 0 (size b)))
      (range 0 (size b))) as (e & He & Hiff).
  { intros r Hr%elem_of_range.
    destruct (some_of_spec (fun cl =>
      v ← cell (board b) r cl; Ok (is_str v EMPTY)) (range 0 (size b)))
      as (e & He & _); [|by exists e].
    intros c Hc%elem_of_range. rewrite (is_empty_in_range b Hwf) by lia.
    by eexists. }
  rewrite He in Hd. simpl in Hd. injection Hd as Hd. destruct e; [done|].
  destruct (empties b) as [|c0 l] eqn:He0; [done|]. exfalso.
  assert (free b (row c0) (col c0)) as (Hr & Hc & Hcell).
  { apply (elem_of_empties b Hwf). rewrite He0. left. }
  assert (false = true) as Habs; [|done]. apply Hiff.
  exists (row c0). split; [by apply elem_of_range|].
  destruct (some_of_spec (fun cl =>
      v ← cell (board b) (row c0) cl; Ok (is_str v EMPTY)) (range 0 (size b)))
      as (e & He' & Hiff').
  { intros c Hc'%elem_of_range. rewrite (is_empty_in_range b Hwf) by lia.
    by eexists. }
  rewrite He'. f_equal. apply Hiff'. exists (col c0).
  split; [by apply elem_of_range|]. by rewrite Hcell.
Qed.

(** X1. On a well-formed board [checkDraw] returns, and it returns [true]
    exactly when [getEmptyCells] is empty, that is when no cell inside the
    grid is empty; it does not look at who has won. *)
Theorem checkDraw_iff_no_empty (b : Board) :
  wf b ->
  exists d, checkDraw b = Ok d /\
    (d = true <-> getEmptyCells b = Ok []) /\
    (d = true <-> forall r c, ~ free b r c).
Proof.
  intros Hwf. exists (is_full b). split; [by apply checkDraw_is_full|].
  rewrite (getEmptyCells_empties b Hwf).
  assert (is_full b = true <-> empties b = []) as Hiff.
  { split; [by apply is_full_true|]. intros Hnil.
    destruct (is_full b) eqn:Hf; [done|]. by apply is_full_false in Hf. }
  split.
  - rewrite Hiff. split; [by intros ->|by intros [= ->]].
  - rewrite Hiff. split.
    + intros Hnil r c Hfree.
      assert (mkCell r c ∈ empties b) as Hin by (by apply elem_of_empties).
      rewrite Hnil in Hin. inversion Hin.
    + intros Hnone. destruct (empties b) as [|c0 l] eqn:He; [done|].
      exfalso. apply (Hnone (row c0) (col c0)).
      apply (elem_of_empties b Hwf). rewrite He. left.
Qed.

Lemma checkDraw_iff_no_empty_witness :
  exists d, checkDraw middle_game = Ok d /\
    (d = true <-> getEmptyCells middle_game = Ok []) /\
    (d = true <-> forall r c, ~ free middle_game r c).
Proof. apply (checkDraw_iff_no_empty middle_game), wf_middle_game. Defined.


(** Row-major order on cells. *)
Definition cell_lt (c1 c2 : Cell) : Prop :=
  row c1 < row c2 \/ (row c1 = row c2 /\ col c1 < col c2).

Lemma seqZ_sorted (m n : Z) : StronglySorted Z.lt (seqZ m n).
Proof.
  destruct (decide (n <= 0)) as [Hn|Hn]; [rewrite seqZ_nil by done; constructor|].
  replace n with (Z.of_nat (Z.to_nat n)) by lia.
  generalize (Z.to_nat n). clear. intros k. revert m.
  induction k as [|k IH]; intros m; [constructor|].
  rewrite seqZ_cons by lia.
  replace (Z.pred (Z.of_nat (S k))) with (Z.of_nat k) by lia.
  constructor; [apply IH|].
  apply Forall_forall. intros x Hx%elem_of_seqZ. lia.
Qed.

Lemma cells_sorted (rows cols : list Z) :
  StronglySorted Z.lt rows -> StronglySorted Z.lt cols ->
  StronglySorted cell_lt (flat_map (fun r => map (mkCell r) cols) rows).
Proof.
  intros Hrows Hcols. induction Hrows as [|r rows _ IH Hr]; simpl; [constructor|].
  apply sorting.StronglySorted_app_2; [| |done].
  - intros c1 c2 Hc1 Hc2.
    apply list_elem_of_In, in_map_iff in Hc1 as (x & <- & _).
    apply list_elem_of_In, in_flat_map in Hc2 as (r' & Hr' & Hc2).
    apply in_map_iff in Hc2 as (y & <- & _). left. simpl.
    rewrite Forall_forall in Hr. apply Hr. by apply list_elem_of_In.
  - clear -Hcols. induction Hcols as [|c cols _ IH Hc]; simpl; [constructor|].
    constructor; [done|]. apply Forall_forall. intros x Hx.
    apply list_elem_of_In, in_map_iff in Hx as (y & <- & Hy). right. simpl.
    split; [done|]. rewrite Forall_forall in Hc. apply Hc.
    by apply list_elem_of_In.
Qed.

Lemma filter_sorted {A} (R : A -> A -> Prop) (f : A -> bool) (l : list A) :
  StronglySorted R l -> StronglySorted R (List.filter f l).
Proof.
  induction 1 as [|x l _ IH Hx]; simpl; [constructor|].
  destruct (f x); [|done]. constructor; [done|].
  apply Forall_forall. intros y Hy%list_elem_of_In%List.filter_In.
  rewrite Forall_forall in Hx. apply Hx. apply list_elem_of_In. tauto.
Qed.

Lemma empties_sorted (b : Board) : StronglySorted cell_lt (empties b).
Proof.
  unfold empties, cells_of, range.
  apply filter_sorted, cells_sorted; apply seqZ_sorted.
Qed.

(** The number of cells of a row, and of a grid, that read as empty. *)
Lemma row_empty_count (rw : list string) :
  (length (List.filter (fun s => bool_decide (s = EMPTY)) rw) + row_count rw
   = length rw)%nat.
Proof.
  unfold row_count. induction rw as [|s rw IH]; [done|]. simpl.
  rewrite filter_cons. case_bool_decide.
  - rewrite decide_False by tauto. simpl. lia.
  - rewrite decide_True by done. simpl. lia.
Qed.

Lemma idx_seqZ_all {A} (l : list A) :
  map (idx l) (seqZ 0 (Z.of_nat (length l))) = map Some l.
Proof.
  apply list_eq. intros i. rewrite !list_lookup_fmap.
  destruct (decide (i < length l)%nat) as [Hi|Hi].
  - rewrite lookup_seqZ_lt by lia. simpl. unfold idx.
    rewrite decide_True by lia. rewrite Z.add_0_l, Nat2Z.id.
    by destruct (l !! i) eqn:Hl; [|apply lookup_ge_None in Hl; lia].
  - rewrite lookup_seqZ_ge by lia. rewrite lookup_ge_None_2 by lia. done.
Qed.

Lemma length_filter_map {A B} (f : A -> B) (p : B -> bool) (l : list A) :
  length (List.filter (fun x => p (f x)) l) = length (List.filter p (map f l)).
Proof.
  induction l as [|x l IH]; [done|]. simpl. destruct (p (f x)); simpl; lia.
Qed.

Section CountEmpties.
Variable b : Board.
Hypothesis Hwf : wf b.

Lemma empties_of_row (r : Z) (rw : list string) :
  idx (board b) r = Some rw ->
  length (List.filter (is_empty b) (map (mkCell r) (range 0 (size b))))
  = length (List.filter (fun s => bool_decide (s = EMPTY)) rw).
Proof.
  intros Hr.
  assert (Z.of_nat (length rw) = size b) as Hlen.
  { unfold idx in Hr. case_decide; [|done]. by eapply wf_grid_row. }
  rewrite <- (length_filter_map (mkCell r) (is_empty b)).
  erewrite List.filter_ext; last first.
  { intros c. unfold is_empty, cell. simpl. rewrite Hr. reflexivity. }
  rewrite (length_filter_map (idx rw) (fun v => is_str v EMPTY)).
  unfold range. rewrite Z.sub_0_r, <- Hlen, idx_seqZ_all.
  rewrite <- (length_filter_map Some (fun v => is_str v EMPTY)).
  f_equal. apply List.filter_ext. intros s. unfold is_str.
  apply bool_decide_ext. split; [by intros [= ->]|by intros ->].
Qed.

Lemma empties_of_rows (rows : list Z) (g : list (list string)) :
  map (idx (board b)) rows = map Some g ->
  (length (List.filter (is_empty b)
     (flat_map (fun r => map (mkCell r) (range 0 (size b))) rows))
   + nonempty_cells g
   = length (concat g))%nat.
Proof.
  revert g. induction rows as [|r rows IH]; intros [|rw g] Hmap; try done.
  simpl in Hmap. injection Hmap as Hr Hrest. simpl flat_map.
  rewrite List.filter_app, length_app, (empties_of_row r rw Hr).
  change (rw :: g) with ([] ++ rw :: g). rewrite nonempty_cells_middle.
  specialize (IH g Hrest). simpl concat. rewrite length_app.
  pose proof (row_empty_count rw). unfold nonempty_cells at 1. simpl. lia.
Qed.

Lemma length_concat_wf : Z.of_nat (length (concat (board b))) = size b * size b.
Proof.
  destruct Hwf as [Hlen Hrows]. rewrite <- Hlen at 1.
  generalize (size b) Hrows. clear. intros n Hrows.
  induction Hrows as [|rw g Hrw _ IH]; simpl; [lia|].
  rewrite length_app. lia.
Qed.

Lemma empties_count :
  Z.of_nat (length (empties b)) + Z.of_nat (nonempty_cells (board b))
  = size b * size b.
Proof.
  rewrite <- length_concat_wf.
  pose proof (empties_of_rows (range 0 (size b)) (board b)) as Hc.
  unfold empties, cells_of.
  rewrite <- Hc; [lia|].
  unfold range. rewrite Z.sub_0_r. destruct Hwf as [<- _]. apply idx_seqZ_all.
Qed.
End CountEmpties.

(** X2. On a well-formed board [getEmptyCells] returns exactly the cells
    inside the grid that are empty, each once, in row-major order; their
    number and the number of non-empty cells add up to [size * size]. *)
Theorem getEmptyCells_spec (b : Board) :
  wf b ->
  exists l, getEmptyCells b = Ok l /\
    (forall c, c ∈ l <-> free b (row c) (col c)) /\
    StronglySorted cell_lt l /\
    Z.of_nat (length l) + Z.of_nat (nonempty_cells (board b)) = size b * size b.
Proof.
  intros Hwf. exists (empties b). split; [by apply getEmptyCells_empties|].
  split; [intros c; by apply elem_of_empties|].
  split; [apply empties_sorted|by apply empties_count].
Qed.

Lemma getEmptyCells_spec_witness :
  exists l, getEmptyCells middle_game = Ok l /\
    (forall c, c ∈ l <-> free middle_game (row c) (col c)) /\
    StronglySorted cell_lt l /\
    Z.of_nat (length l) + Z.of_nat (nonempty_cells (board middle_game))
    = size middle_game * size middle_game.
Proof. apply (getEmptyCells_spec middle_game), wf_middle_game. Defined.


(** ** The constructor *)

Lemma cell_new (n : Z) (r c : Z) :
  0 <= r < n -> 0 <= c < n ->
  cell (replicate (Z.to_nat n) (replicate (Z.to_nat n) EMPTY)) r c
  = Ok (Some EMPTY).
Proof.
  intros Hr Hc. unfold cell, idx. rewrite !decide_True by lia.
  rewrite lookup_replicate_2 by lia. rewrite decide_True by lia.
  by rewrite lookup_replicate_2 by lia.
Qed.

Lemma filter_all {A} (f : A -> bool) (l : list A) :
  (forall x, x ∈ l -> f x = true) -> List.filter f l = l.
Proof.
  induction l as [|x l IH]; intros Hall; [done|]. simpl.
  rewrite Hall by left. f_equal. apply IH. intros; apply Hall. by right.
Qed.

Lemma some_of_none {A} (f : A -> res bool) (l : list A) :
  (forall x, x ∈ l -> f x = Ok false) -> some_of f l = Ok false.
Proof.
  induction l as [|x l IH]; intros Hall; [done|]. simpl.
  rewrite Hall by left. simpl. apply IH. intros; apply Hall. by right.
Qed.

(** If no cell of the grid holds [p], and windows have at least one cell,
    [checkWin(p)] is false. *)
Lemma checkWin_absent (b : Board) (p : string) :
  wf b -> 1 <= winLength b ->
  (forall r c, ~ holds b p r c) -> checkWin b p = Ok false.
Proof.
  intros Hwf Hwl Habs.
  assert (forall (outer inner : list Z) (at_k : Z -> Z -> Z -> Z * Z),
    (forall x y k, x ∈ outer -> y ∈ inner -> 0 <= k < winLength b ->
       0 <= (at_k x y k).1 < size b /\ 0 <= (at_k x y k).2 < size b) ->
    some_of (fun x => some_of (fun y =>
      window (winLength b) (cell (board b)) p (at_k x y)) inner) outer = Ok false)
    as Hscan.
  { intros outer inner at_k Hin.
    destruct (scan_spec b p outer inner at_k Hwf Hin) as (w & Hw & Hiff).
    destruct w; [|done]. destruct Hiff as [Hiff _].
    destruct Hiff as (x & y & _ & _ & Hrun); [done|].
    exfalso. apply (Habs _ _ (Hrun 0 ltac:(lia))). }
  unfold checkWin, checkWin_on.
  rewrite (Hscan _ _ (fun rw cl k => (rw, cl + k)))
    by (intros x y k ?%elem_of_range ?%elem_of_range ?; simpl; lia). simpl.
  rewrite (Hscan _ _ (fun cl rw k => (rw + k, cl)))
    by (intros x y k ?%elem_of_range ?%elem_of_range ?; simpl; lia). simpl.
  rewrite (Hscan _ _ (fun rw cl k => (rw + k, cl + k)))
    by (intros x y k ?%elem_of_range ?%elem_of_range ?; simpl; lia). simpl.
  rewrite (Hscan _ _ (fun rw cl k => (rw + k, cl - k)))
    by (intros x y k ?%elem_of_range ?%elem_of_range_down ?; simpl; lia).
  done.
Qed.

(** X3. [new Board(n, w)] raises a [RangeError] for negative [n].  For
    [0 <= n < 2^32], the lengths an array can have, it gives a well-formed
    board of that size and win length with an empty history and O to move,
    on which [getEmptyCells] returns all [n * n] cells and, when [w >= 1],
    [checkWin] is false for every marker other than the empty-cell
    string. *)
Theorem newBoard_spec (n w : Z) :
  (n < 0 -> newBoard n w = Err RangeError) /\
  (0 <= n < 2 ^ 32 ->
   exists b, newBoard n w = Ok b /\ wf b /\
     size b = n /\ winLength b = w /\
     moveHistory b = [] /\ currentPlayer b = MARK_O /\
     getEmptyCells b = Ok (cells_of n) /\
     (forall p, p <> EMPTY -> 1 <= w -> checkWin b p = Ok false)).
Proof.
  split.
  - intros Hn. unfold newBoard, array_fill. by rewrite decide_False by lia.
  - intros [Hn _].
    set (b := mkBoard n w (replicate (Z.to_nat n) (replicate (Z.to_nat n) EMPTY))
                      [] MARK_O).
    assert (newBoard n w = Ok b) as Hnew.
    { unfold newBoard, array_fill. rewrite decide_True by lia. simpl.
      rewrite decide_True by lia. reflexivity. }
    pose proof (newBoard_wf _ _ _ Hnew) as Hwf.
    exists b. split_and!; try done.
    + rewrite (getEmptyCells_empties b Hwf). f_equal. unfold empties.
      apply filter_all. intros c [Hr Hc]%elem_of_cells_of.
      unfold is_empty. simpl. by rewrite cell_new.
    + intros p Hp Hw. apply checkWin_absent; [done..|].
      intros r c (Hr & Hc & Hcell). simpl in Hcell.
      rewrite cell_new in Hcell by done. congruence.
Qed.

Lemma newBoard_spec_witness :
  newBoard (-1) 3 = Err RangeError /\
  exists b, newBoard 3 3 = Ok b /\ wf b /\
    size b = 3 /\ winLength b = 3 /\
    moveHistory b = [] /\ currentPlayer b = MARK_O /\
    getEmptyCells b = Ok (cells_of 3) /\
    (forall p, p <> EMPTY -> 1 <= 3 -> checkWin b p = Ok false).
Proof.
  split.
  - apply (proj1 (newBoard_spec (-1) 3)). lia.
  - apply (proj2 (newBoard_spec 3 3)). lia.
Defined.


(** ** Degenerate win lengths *)

Lemma range_empty (lo hi : Z) : hi <= lo -> range lo hi = [].
Proof. intros. unfold range. apply seqZ_nil. lia. Qed.

Lemma range_first (lo hi : Z) : lo < hi -> exists l, range lo hi = lo :: l.
Proof. intros. unfold range. rewrite seqZ_cons by lia. by eexists. Qed.

(** X4. On a well-formed board, if [winLength] exceeds [size] no window
    fits and [checkWin] is false for every marker; if [winLength] is zero
    or negative (and the board has a cell) the first window is empty and
    [checkWin] is true for every marker, whatever the grid holds. *)
Theorem checkWin_degenerate (b : Board) (p : string) :
  wf b ->
  (size b < winLength b -> checkWin b p = Ok false) /\
  (winLength b <= 0 -> 0 < size b -> checkWin b p = Ok true).
Proof.
  intros Hwf. split.
  - intros Hbig. unfold checkWin, checkWin_on.
    rewrite (range_empty 0 (size b - winLength b + 1)) by lia.
    unfold range_down. rewrite seqZ_nil by lia. simpl.
    rewrite !some_of_none by done. done.
  - intros Hwl Hsize. unfold checkWin, checkWin_on, window.
    rewrite (range_empty 0 (winLength b)) by lia. simpl.
    destruct (range_first 0 (size b)) as [l1 ->]; [lia|].
    destruct (range_first 0 (size b - winLength b + 1)) as [l2 ->]; [lia|].
    done.
Qed.

Lemma checkWin_degenerate_witness :
  checkWin (mkBoard 3 4 (replicate 3 (replicate 3 EMPTY)) [] MARK_O) MARK_X
    = Ok false /\
  checkWin (mkBoard 3 0 (replicate 3 (replicate 3 EMPTY)) [] MARK_O) MARK_X
    = Ok true.
Proof.
  split.
  - apply (proj1 (checkWin_degenerate
             (mkBoard 3 4 (replicate 3 (replicate 3 EMPTY)) [] MARK_O) MARK_X
             wf_empty_3x3)).
    simpl. lia.
  - apply (proj2 (checkWin_degenerate
             (mkBoard 3 0 (replicate 3 (replicate 3 EMPTY)) [] MARK_O) MARK_X
             wf_empty_3x3)); simpl; lia.
Defined.


(** ** Wins and further placements *)

(** The characterisation of [checkWin] by runs, for use below. *)
Lemma wins_iff_has_run (b : Board) (p : string) :
  wf b -> 1 <= winLength b <= size b -> (wins b p = true <-> has_run b p).
Proof.
  intros Hwf Hwl.
  destruct (scan_spec b p (range 0 (size b)) (range 0 (size b - winLength b + 1))
              (fun rw cl k => (rw, cl + k)) Hwf) as (w1 & H1 & I1).
  { intros x y k ?%elem_of_range ?%elem_of_range ?. simpl. lia. }
  destruct (scan_spec b p (range 0 (size b)) (range 0 (size b - winLength b + 1))
              (fun cl rw k => (rw + k, cl)) Hwf) as (w2 & H2 & I2).
  { intros x y k ?%elem_of_range ?%elem_of_range ?. simpl. lia. }
  destruct (scan_spec b p (range 0 (size b - winLength b + 1))
              (range 0 (size b - winLength b + 1))
              (fun rw cl k => (rw + k, cl + k)) Hwf) as (w3 & H3 & I3).
  { intros x y k ?%elem_of_range ?%elem_of_range ?. simpl. lia. }
  destruct (scan_spec b p (range 0 (size b - winLength b + 1))
              (range_down (size b - 1) (winLength b - 1))
              (fun rw cl k => (rw + k, cl - k)) Hwf) as (w4 & H4 & I4).
  { intros x y k ?%elem_of_range ?%elem_of_range_down ?. simpl. lia. }
  simpl in H1, H2, H3, H4, I1, I2, I3, I4.
  assert (wins b p = w1 || w2 || w3 || w4) as ->.
  { unfold wins, checkWin, checkWin_on. rewrite H1. simpl. destruct w1; [done|].
    rewrite H2. simpl. destruct w2; [done|].
    rewrite H3. simpl. destruct w3; [done|].
    rewrite H4. simpl. by destruct w4. }
  split.
  - intros Hw. unfold has_run.
    destruct w1.
    { destruct I1 as [I1 _]. destruct I1 as (x & y & _ & _ & Hrun); [done|].
      exists x, y. left. intros k Hk.
      eapply holds_ext; [| |apply (Hrun k Hk)]; lia. }
    destruct w2.
    { destruct I2 as [I2 _]. destruct I2 as (x & y & _ & _ & Hrun); [done|].
      exists y, x. right; left. intros k Hk.
      eapply holds_ext; [| |apply (Hrun k Hk)]; lia. }
    destruct w3.
    { destruct I3 as [I3 _]. destruct I3 as (x & y & _ & _ & Hrun); [done|].
      exists x, y. right; right; left. intros k Hk.
      eapply holds_ext; [| |apply (Hrun k Hk)]; lia. }
    destruct w4; [|done].
    destruct I4 as [I4 _]. destruct I4 as (x & y & _ & _ & Hrun); [done|].
    exists x, y. right; right; right. intros k Hk.
    eapply holds_ext; [| |apply (Hrun k Hk)]; lia.
  - intros (r & c & Hrun).
    assert (forall dr dc, run_from b p r c dr dc ->
              holds b p r c /\
              holds b p (r + (winLength b - 1) * dr) (c + (winLength b - 1) * dc))
      as Hends.
    { intros dr dc H. split.
      - eapply holds_ext; [| |apply (H 0)]; lia.
      - apply H. lia. }
    destruct Hrun as [Hrun|[Hrun|[Hrun|Hrun]]];
      destruct (Hends _ _ Hrun) as [(? & ? & _) (? & ? & _)].
    + assert (w1 = true) as ->; [|done]. apply I1. exists r, c.
      rewrite !elem_of_range. split_and!; try lia.
      intros k Hk. eapply holds_ext; [| |apply (Hrun k Hk)]; lia.
    + assert (w2 = true) as ->; [|by destruct w1]. apply I2. exists c, r.
      rewrite !elem_of_range. split_and!; try lia.
      intros k Hk. eapply holds_ext; [| |apply (Hrun k Hk)]; lia.
    + assert (w3 = true) as ->; [|by destruct w1, w2]. apply I3. exists r, c.
      rewrite !elem_of_range. split_and!; try lia.
      intros k Hk. eapply holds_ext; [| |apply (Hrun k Hk)]; lia.
    + assert (w4 = true) as ->; [|by destruct w1, w2, w3]. apply I4. exists r, c.
      rewrite elem_of_range, elem_of_range_down. split_and!; try lia.
      intros k Hk. eapply holds_ext; [| |apply (Hrun k Hk)]; lia.
Qed.

Lemma holds_placed (b : Board) (p q : string) (r c r' c' : Z) :
  wf b -> free b r c -> p <> EMPTY ->
  holds b p r' c' -> holds (placed b r c q) p r' c'.
Proof.
  intros Hwf (Hr & Hc & Hcell) Hp (Hr' & Hc' & Hcell').
  split_and!; try (simpl; lia).
  change (cell (put (board b) r c q) r' c' = Ok (Some p)).
  rewrite (cell_put (size b)) by done.
  case_decide as Heq; [|done]. destruct Heq as [-> ->]. congruence.
Qed.

(** X5. With [1 <= winLength <= size], a win is never lost by a further
    placement: if [checkWin(p)] is true for a marker [p] other than the
    empty-cell string, it is still true after any successful [placeMarker],
    by either player. *)
Theorem win_persists (b b' : Board) (p q : string) (r c : Z) :
  wf b -> 1 <= winLength b <= size b -> p <> EMPTY ->
  checkWin b p = Ok true ->
  placeMarker b r c q = Ok (true, b') ->
  checkWin b' p = Ok true.
Proof.
  intros Hwf Hwl Hp Hwin Hpl.
  apply placeMarker_true_inv in Hpl as [Hfree ->]; [|done].
  pose proof (wf_placed b r c q Hwf) as Hwf'.
  rewrite (checkWin_wins b Hwf) in Hwin. injection Hwin as Hwin.
  rewrite (checkWin_wins _ Hwf'). f_equal.
  apply wins_iff_has_run; [done..|].
  apply wins_iff_has_run in Hwin as (r0 & c0 & Hrun); [|done..].
  exists r0, c0.
  destruct Hrun as [Hrun|[Hrun|[Hrun|Hrun]]];
    [left|right; left|right; right; left|right; right; right];
    intros k Hk; apply holds_placed; try done; by apply Hrun.
Qed.

Lemma win_persists_witness :
  checkWin (placed top_row_3x3 1 1 MARK_O) MARK_X = Ok true.
Proof.
  apply (win_persists top_row_3x3 (placed top_row_3x3 1 1 MARK_O)
           MARK_X MARK_O 1 1 wf_top_row_3x3);
    [simpl; lia|discriminate|reflexivity|reflexivity].
Defined.


(** ** Placing twice, and the marker that is the empty-cell string *)

(** X6. After a successful [placeMarker] with a marker other than the
    empty-cell string, every further [placeMarker] at the same cell, with
    any marker, returns [false] and leaves the board as it is. *)
Theorem placeMarker_occupied (b b' : Board) (r c : Z) (p q : string) :
  wf b -> p <> EMPTY ->
  placeMarker b r c p = Ok (true, b') ->
  placeMarker b' r c q = Ok (false, b').
Proof.
  intros Hwf Hp Hpl.
  apply placeMarker_true_inv in Hpl as [(Hr & Hc & Hcell) ->]; [|done].
  apply placeMarker_not_free; [by apply wf_placed|].
  intros (_ & _ & Hcell'). simpl in Hcell'.
  rewrite (cell_put (size b)) in Hcell' by done.
  rewrite decide_True in Hcell' by done. congruence.
Qed.

Lemma placeMarker_occupied_witness :
  placeMarker (placed empty_3x3 1 1 MARK_X) 1 1 MARK_O
  = Ok (false, placed empty_3x3 1 1 MARK_X).
Proof.
  apply (placeMarker_occupied empty_3x3 (placed empty_3x3 1 1 MARK_X)
           1 1 MARK_X MARK_O wf_empty_3x3); [discriminate|reflexivity].
Defined.


Lemma put_same (n : Z) (g : list (list string)) (r c : Z) (v : string) :
  wf_grid n g -> 0 <= r < n -> 0 <= c < n ->
  cell g r c = Ok (Some v) -> put g r c v = g.
Proof.
  intros Hwf Hr Hc Hcell. unfold put.
  destruct (idx_Some g r) as (rw & Hi & Hrw); [destruct Hwf; lia|].
  rewrite Hrw. unfold cell in Hcell. rewrite Hi in Hcell.
  injection Hcell as Hcell. unfold idx in Hcell.
  rewrite decide_True in Hcell by lia.
  rewrite (list_insert_id rw) by done. by apply list_insert_id.
Qed.

(** X7. [placeMarker] does not look at the marker.  With the empty-cell
    string as marker, on an empty cell inside the grid, it returns [true]
    and appends the move although the grid stays exactly as it was; the
    cell is still free, and the history is then longer than the number of
    non-empty cells. *)
Theorem placeMarker_empty_marker (b : Board) (r c : Z) :
  wf b -> free b r c ->
  exists b', placeMarker b r c EMPTY = Ok (true, b') /\
    board b' = board b /\
    moveHistory b' = moveHistory b ++ [mkMove r c EMPTY] /\
    free b' r c /\
    (length (moveHistory b) = nonempty_cells (board b) ->
     length (moveHistory b') = S (nonempty_cells (board b'))).
Proof.
  intros Hwf Hfree. exists (placed b r c EMPTY).
  split; [by apply placeMarker_free|].
  destruct Hfree as (Hr & Hc & Hcell).
  assert (board (placed b r c EMPTY) = board b) as Hsame.
  { simpl. by apply (put_same (size b)). }
  split_and!; try done.
  - unfold free. rewrite Hsame. simpl. done.
  - intros Hlen. rewrite Hsame. simpl. rewrite length_app, Hlen. simpl. lia.
Qed.

Lemma free_empty_3x3 : free empty_3x3 1 1.
Proof. unfold free. simpl. split_and!; [lia..|reflexivity]. Defined.

Lemma placeMarker_empty_marker_witness :
  exists b', placeMarker empty_3x3 1 1 EMPTY = Ok (true, b') /\
    board b' = board empty_3x3 /\
    moveHistory b' = moveHistory empty_3x3 ++ [mkMove 1 1 EMPTY] /\
    free b' 1 1 /\
    (length (moveHistory empty_3x3) = nonempty_cells (board empty_3x3) ->
     length (moveHistory b') = S (nonempty_cells (board b'))).
Proof.
  apply (placeMarker_empty_marker empty_3x3 1 1 wf_empty_3x3 free_empty_3x3).
Defined.


(** ** The empty cells after a placement *)

Lemma filter_andb {A} (f g : A -> bool) (l : list A) :
  List.filter (fun x => f x && g x) l = List.filter g (List.filter f l).
Proof.
  induction l as [|x l IH]; [done|]. simpl.
  destruct (f x); simpl; [destruct (g x); by rewrite IH|done].
Qed.

Lemma is_empty_placed (b : Board) (r c : Z) (p : string) (c' : Cell) :
  wf b -> free b r c -> p <> EMPTY ->
  is_empty (placed b r c p) c'
  = is_empty b c' && negb (bool_decide (c' = mkCell r c)).
Proof.
  intros Hwf (Hr & Hc & Hcell) Hp. unfold is_empty.
  change (board (placed b r c p)) with (put (board b) r c p).
  rewrite (cell_put (size b)) by done.
  case_decide as Heq.
  - destruct Heq as [Hr' Hc'].
    rewrite bool_decide_eq_true_2 by (destruct c'; simpl in *; congruence).
    rewrite andb_false_r. unfold is_str. apply bool_decide_eq_false_2. congruence.
  - rewrite bool_decide_eq_false_2; [by rewrite andb_true_r|].
    intros ->. simpl in Heq. tauto.
Qed.

(** X8. After a [placeMarker] that returned [true], with a marker other
    than the empty-cell string, [getEmptyCells] returns the list it returned
    before without the cell just taken, in the same order; the cell was in
    the list, and the list is shorter by exactly one. *)
Theorem getEmptyCells_after_placeMarker (b b' : Board) (r c : Z) (p : string)
    (l : list Cell) :
  wf b -> p <> EMPTY ->
  placeMarker b r c p = Ok (true, b') -> getEmptyCells b = Ok l ->
  mkCell r c ∈ l /\
  exists l', getEmptyCells b' = Ok l' /\
    l' = List.filter (fun c' => negb (bool_decide (c' = mkCell r c))) l /\
    S (length l') = length l.
Proof.
  intros Hwf Hp Hpl Hl.
  apply placeMarker_true_inv in Hpl as [Hfree ->]; [|done].
  pose proof (wf_placed b r c p Hwf) as Hwf'.
  rewrite (getEmptyCells_empties b Hwf) in Hl. injection Hl as <-.
  split; [by apply (elem_of_empties b Hwf)|].
  exists (empties (placed b r c p)).
  split; [by apply getEmptyCells_empties|].
  split.
  - unfold empties. rewrite <- filter_andb.
    apply List.filter_ext. intros c'. by apply is_empty_placed.
  - pose proof (empties_count b Hwf) as H1.
    pose proof (empties_count _ Hwf') as H2.
    destruct Hfree as (Hr & Hc & Hcell).
    change (board (placed b r c p)) with (put (board b) r c p) in H2.
    rewrite (nonempty_cells_put (size b)) in H2 by done.
    change (size (placed b r c p)) with (size b) in H2. lia.
Qed.

Lemma getEmptyCells_after_placeMarker_witness :
  mkCell 1 1 ∈ cells_of 3 /\
  exists l', getEmptyCells (placed empty_3x3 1 1 MARK_X) = Ok l' /\
    l' = List.filter (fun c' => negb (bool_decide (c' = mkCell 1 1))) (cells_of 3) /\
    S (length l') = length (cells_of 3).
Proof.
  apply (getEmptyCells_after_placeMarker empty_3x3 (placed empty_3x3 1 1 MARK_X)
           1 1 MARK_X (cells_of 3) wf_empty_3x3);
    [discriminate|reflexivity|reflexivity].
Defined.

(** ** Whose turn it is *)

Lemma reachable_current_player (n w : Z) (b : Board) :
  reachable n w b -> valid_marker (currentPlayer b).
Proof.
  induction 1 as [b Hnew | b r c p ok b' Hb IH Hp Hpl | b m b' Hb IH Hu | b _ IH].
  - apply newBoard_inv in Hnew as [_ ->]. by left.
  - pose proof (reachable_replayable _ _ _ Hb) as (_ & _ & Hwf & _).
    destruct ok.
    + by apply placeMarker_true_inv in Hpl as [_ ->].
    + by apply placeMarker_false_inv in Hpl as ->.
  - unfold undoMove in Hu. destruct (last (moveHistory b)); [|by injection Hu as _ <-].
    destruct (set_cell _ _ _ _); [|done]. simpl in Hu. by injection Hu as _ <-.
  - simpl. case_bool_decide; [by right|by left].
Qed.

(** X9. In every state reached from a new board by [placeMarker],
    [undoMove] and [switchPlayer] the player to move is O or X,
    [switchPlayer] changes it to the other one and nothing else, and two
    calls give the state back. *)
Theorem switchPlayer_toggles (n w : Z) (b : Board) :
  reachable n w b ->
  valid_marker (currentPlayer b) /\
  currentPlayer (switchPlayer b) <> currentPlayer b /\
  valid_marker (currentPlayer (switchPlayer b)) /\
  board (switchPlayer b) = board b /\
  moveHistory (switchPlayer b) = moveHistory b /\
  switchPlayer (switchPlayer b) = b.
Proof.
  intros Hvalid%reachable_current_player. split; [done|].
  destruct b as [s wl g hist cp]. simpl in *.
  destruct Hvalid as [-> | ->]; cbv [switchPlayer]; simpl; split_and!;
    try done; [by right|by left].
Qed.

Lemma switchPlayer_toggles_witness :
  valid_marker (currentPlayer (switchPlayer empty_3x3)) /\
  currentPlayer (switchPlayer (switchPlayer empty_3x3))
    <> currentPlayer (switchPlayer empty_3x3) /\
  valid_marker (currentPlayer (switchPlayer (switchPlayer empty_3x3))) /\
  board (switchPlayer (switchPlayer empty_3x3)) = board (switchPlayer empty_3x3) /\
  moveHistory (switchPlayer (switchPlayer empty_3x3))
    = moveHistory (switchPlayer empty_3x3) /\
  switchPlayer (switchPlayer (switchPlayer empty_3x3)) = switchPlayer empty_3x3.
Proof.
  apply (switchPlayer_toggles 3 3 (switchPlayer empty_3x3)).
  apply reach_switch. by apply reach_new.
Defined.


(** * Further properties of the object store *)

(** The addresses that make up the board object at [this]. *)
Definition footprint (this : loc) (ly : layout) : list loc :=
  this :: l_grid ly :: writable ly.

(** A board object is untouched by writes outside its footprint. *)
Lemma repr_at_frame (F : list loc) (h h' : heap) this ly b :
  repr_at h this ly b -> modifies F h h' ->
  (forall l, l ∈ F -> l ∉ footprint this ly) ->
  repr_at h' this ly b.
Proof.
  intros (Hb & Hg & Hh & Hrows & Hnd) Hmod Hdisj.
  assert (forall l, l ∈ footprint this ly -> h' !! l = h !! l) as Hsame.
  { intros l Hl. apply Hmod. intros HF. by apply (Hdisj l HF). }
  unfold footprint, writable in Hsame.
  split_and!; try done.
  - rewrite Hsame; [done|left].
  - rewrite Hsame; [done|right; left].
  - rewrite Hsame; [done|right; right; left].
  - apply Forall2_same_length_lookup. split; [by eapply Forall2_length|].
    intros i rl cells Hrl Hcells. rewrite Hsame.
    + exact (Forall2_lookup_lr _ _ _ _ _ _ Hrows Hrl Hcells).
    + right; right; right. by eapply list_elem_of_lookup_2.
Qed.

(** [placeMarker] on the store does what [placeMarker] does on the value. *)
Lemma heap_placeMarker_sim h this ly b r c p :
  repr_at h this ly b -> wf b ->
  exists ok b' h', placeMarker b r c p = Ok (ok, b') /\
    Heap.placeMarker this r c p h = Ok (ok, h') /\
    repr_at h' this ly b' /\ wf b' /\ modifies (writable ly) h h'.
Proof.
  intros Hrepr Hwf. destruct (decide (free b r c)) as [Hfree|Hnf].
  - destruct (heap_placeMarker_free h this ly b r c p Hrepr Hwf Hfree)
      as (h' & Hpl & Hrepr' & Hmod).
    exists true, (placed b r c p), h'.
    split; [by apply placeMarker_free|]. split_and!; try done.
    by apply wf_placed.
  - exists false, b, h. split; [by apply placeMarker_not_free|].
    split; [by eapply heap_placeMarker_not_free|].
    split_and!; try done; apply modifies_refl.
Qed.

(** X10. [placeMarker] on a board object does to the object what the
    function [placeMarker] does to the value it holds, writes only to the
    object's own row arrays and history array, and leaves every other board
    object whose parts are none of these arrays holding the value it held. *)
Theorem heap_placeMarker_refines h this ly b r c p :
  repr_at h this ly b -> wf b ->
  exists ok b' h', placeMarker b r c p = Ok (ok, b') /\
    Heap.placeMarker this r c p h = Ok (ok, h') /\
    repr_at h' this ly b' /\ modifies (writable ly) h h' /\
    (forall other ly2 b2, repr_at h other ly2 b2 ->
       (forall l, l ∈ writable ly -> l ∉ footprint other ly2) ->
       repr_at h' other ly2 b2).
Proof.
  intros Hrepr Hwf.
  destruct (heap_placeMarker_sim h this ly b r c p Hrepr Hwf)
    as (ok & b' & h' & Hv & Hh & Hrepr' & _ & Hmod).
  exists ok, b', h'. split_and!; try done.
  intros other ly2 b2 Hother Hdisj. by eapply repr_at_frame.
Qed.

Lemma heap_placeMarker_refines_witness :
  exists ok b' h', placeMarker empty_3x3 1 1 MARK_X = Ok (ok, b') /\
    Heap.placeMarker 1%positive 1 1 MARK_X (heap_of empty_3x3) = Ok (ok, h') /\
    repr_at h' 1%positive (layout_of empty_3x3) b' /\
    modifies (writable (layout_of empty_3x3)) (heap_of empty_3x3) h' /\
    (forall other ly2 b2, repr_at (heap_of empty_3x3) other ly2 b2 ->
       (forall l, l ∈ writable (layout_of empty_3x3) -> l ∉ footprint other ly2) ->
       repr_at h' other ly2 b2).
Proof.
  apply (heap_placeMarker_refines (heap_of empty_3x3) 1%positive
           (layout_of empty_3x3) empty_3x3 1 1 MARK_X
           repr_empty_3x3 wf_empty_3x3).
Defined.


Lemma set_cell_Ok_inv n g r c v g' :
  wf_grid n g -> set_cell g r c v = Ok g' -> 0 <= r < n /\ 0 <= c < n.
Proof.
  intros Hwf. unfold set_cell. destruct (idx g r) as [rw|] eqn:Hi; [|done].
  pose proof (idx_is_Some _ _ _ Hi) as Hr.
  unfold idx in Hi. rewrite decide_True in Hi by lia.
  pose proof (wf_grid_row _ _ _ _ Hwf Hi) as Hl.
  unfold upd. destruct (decide (0 <= c < Z.of_nat (length rw))); [|done].
  intros _. destruct Hwf. lia.
Qed.

(** X11. Whenever [undoMove] on the value returns, [undoMove] on a board
    object holding that value returns the same move (or [null]), the object
    then holds the value the function gives, only the object's own arrays
    are written, and on an empty history the store is not written at all. *)
Theorem heap_undoMove_refines h this ly b m b' :
  repr_at h this ly b -> wf b -> undoMove b = Ok (m, b') ->
  exists h', Heap.undoMove this h = Ok (m, h') /\
    repr_at h' this ly b' /\ wf b' /\ modifies (writable ly) h h' /\
    (moveHistory b = [] -> m = None /\ h' = h).
Proof.
  intros Hrepr Hwf Hu. unfold undoMove in Hu. unfold Heap.undoMove.
  erewrite bind_reading; last first.
  { rewrite (the_board_repr _ _ _ _ Hrepr). simpl.
    apply (the_hist_repr _ _ _ _ Hrepr). }
  destruct (last (moveHistory b)) as [lastMove|] eqn:Hlast.
  - destruct (set_cell (board b) (mv_row lastMove) (mv_col lastMove) EMPTY)
      as [g|] eqn:Hset; [|done].
    simpl in Hu. injection Hu as <- <-.
    destruct (set_cell_Ok_inv _ _ _ _ _ _ Hwf Hset) as [Hr Hc].
    rewrite (set_cell_put (size b)) in Hset by done. injection Hset as <-.
    rewrite bool_decide_eq_false_2
      by (intros Hlen; destruct (moveHistory b); done).
    destruct (heap_pop_repr h this ly _ Hrepr) as (h1 & Hpop & Hrepr1 & Hmod1).
    rewrite (bind_step _ _ _ _ _ Hpop). rewrite Hlast.
    destruct (heap_set_cell_repr h1 this ly _ Hrepr1) with
      (r := mv_row lastMove) (c := mv_col lastMove) (v := EMPTY)
      as (h2 & Hset & Hrepr2 & Hmod2); try done.
    rewrite (bind_step _ _ _ _ _ Hset).
    exists h2. split_and!; try done.
    + unfold wf. simpl. by apply wf_grid_put.
    + by eapply modifies_trans.
    + intros Hnil. by rewrite Hnil in Hlast.
  - injection Hu as <- <-. apply last_None in Hlast. rewrite Hlast.
    exists h. split_and!; try done; apply modifies_refl.
Qed.

Lemma repr_placed_3x3 :
  repr_at (heap_of (placed empty_3x3 1 1 MARK_X)) 1%positive
          (layout_of (placed empty_3x3 1 1 MARK_X)) (placed empty_3x3 1 1 MARK_X).
Proof.
  unfold repr_at. split_and!; try by vm_compute.
  - repeat constructor.
  - apply (bool_decide_unpack _). by vm_compute.
Defined.

Lemma wf_placed_3x3 : wf (placed empty_3x3 1 1 MARK_X).
Proof. split; [reflexivity|]. repeat constructor. Defined.

Lemma heap_undoMove_refines_witness :
  exists h', Heap.undoMove 1%positive (heap_of (placed empty_3x3 1 1 MARK_X))
      = Ok (Some (mkMove 1 1 MARK_X), h') /\
    repr_at h' 1%positive (layout_of (placed empty_3x3 1 1 MARK_X)) empty_3x3 /\
    wf empty_3x3 /\
    modifies (writable (layout_of (placed empty_3x3 1 1 MARK_X)))
             (heap_of (placed empty_3x3 1 1 MARK_X)) h' /\
    (moveHistory (placed empty_3x3 1 1 MARK_X) = [] ->
     Some (mkMove 1 1 MARK_X) = None /\
     h' = heap_of (placed empty_3x3 1 1 MARK_X)).
Proof.
  apply (heap_undoMove_refines (heap_of (placed empty_3x3 1 1 MARK_X)) 1%positive
           (layout_of (placed empty_3x3 1 1 MARK_X)) (placed empty_3x3 1 1 MARK_X)
           (Some (mkMove 1 1 MARK_X)) empty_3x3
           repr_placed_3x3 wf_placed_3x3).
  reflexivity.
Defined.


(** ** The constructor on the store *)

Lemma alloc_all_rows (cellss : list (list string)) (h : heap) :
  exists ls h', Heap.alloc_all (ORow <$> cellss) h = Ok (ls, h') /\ h ⊆ h' /\
    Forall2 (fun rl cells => h' !! rl = Some (ORow cells)) ls cellss /\
    NoDup ls /\ Forall (fun rl => h !! rl = None) ls.
Proof.
  revert h. induction cellss as [|cells cellss IH]; intros h;
    cbn [fmap list_fmap Heap.alloc_all].
  - exists [], h. split_and!; try done; constructor.
  - destruct (alloc_spec (ORow cells) h) as (l & Hl & Hfresh & Hsub).
    rewrite (bind_step _ _ _ _ _ Hl).
    destruct (IH (<[l := ORow cells]> h))
      as (ls & h' & Hls & Hsub' & Hall & Hnd & Hfr).
    rewrite (bind_step _ _ _ _ _ Hls).
    exists (l :: ls), h'. split; [done|]. split; [by etrans|]. split_and!.
    + constructor; [|done]. eapply lookup_weaken; [|apply Hsub'].
      apply lookup_insert_eq.
    + constructor; [|done]. intros Hin. rewrite Forall_forall in Hfr.
      specialize (Hfr l Hin). by rewrite lookup_insert_eq in Hfr.
    + constructor; [done|]. eapply Forall_impl; [apply Hfr|].
      intros x Hx. simpl in Hx. eapply lookup_weaken_None; [apply Hx|done].
Qed.

(** X12. [new Board(n, w)] on the store raises a [RangeError] for negative
    [n]; for [0 <= n < 2^32], the lengths an array can have, it returns a
    new board object that holds the value of [newBoard n w].  Every row of the grid is an array of its own (no two
    rows are the same object), all parts of the object are new addresses,
    and nothing that existed is changed. *)
Theorem heap_new_refines (n w : Z) (h : heap) :
  (n < 0 -> Heap.new n w h = Err RangeError) /\
  (0 <= n < 2 ^ 32 ->
   exists nb ly h' b, Heap.new n w h = Ok (nb, h') /\ newBoard n w = Ok b /\
     repr_at h' nb ly b /\ NoDup (l_rows ly) /\ h ⊆ h' /\
     Forall (fun l => h !! l = None) (footprint nb ly)).
Proof.
  split; [intros Hn|intros [Hn _]]; unfold Heap.new, array_fill.
  { by rewrite decide_False by lia. }
  rewrite decide_True, res_bind_Ok, decide_True, res_bind_Ok by done.
  rewrite <- fmap_replicate.
  destruct (alloc_all_rows (replicate (Z.to_nat n) (replicate (Z.to_nat n) EMPTY)) h)
    as (rows & h1 & Hrows & Hsub1 & Hall & Hnd & Hfr).
  rewrite (bind_step _ _ _ _ _ Hrows).
  destruct (alloc_spec (OGrid rows) h1) as (g & Hg & Hfg & Hsub2).
  rewrite (bind_step _ _ _ _ _ Hg).
  destruct (alloc_spec (OHist []) (<[g := OGrid rows]> h1))
    as (hl & Hhl & Hfh & Hsub3).
  rewrite (bind_step _ _ _ _ _ Hhl).
  destruct (alloc_spec (OBoard n w g hl MARK_O)
              (<[hl := OHist []]> (<[g := OGrid rows]> h1)))
    as (nb & Hnb & Hfnb & Hsub4).
  assert (hl <> g) as Hhg.
  { intros ->. by rewrite lookup_insert_eq in Hfh. }
  assert (nb <> hl) as Hnh.
  { intros ->. by rewrite lookup_insert_eq in Hfnb. }
  assert (nb <> g) as Hng.
  { intros ->. rewrite lookup_insert_ne, lookup_insert_eq in Hfnb; done. }
  rewrite lookup_insert_ne in Hfh by done.
  rewrite !lookup_insert_ne in Hfnb by done.
  exists nb, (mkLayout g hl rows). eexists.
  exists (mkBoard n w (replicate (Z.to_nat n) (replicate (Z.to_nat n) EMPTY))
                  [] MARK_O).
  split; [exact Hnb|]. split.
  { unfold newBoard, array_fill. rewrite decide_True by lia. simpl.
    rewrite decide_True by lia. reflexivity. }
  split_and!.
  - unfold repr_at. simpl. rewrite lookup_insert_eq.
    rewrite (lookup_insert_ne _ nb hl), lookup_insert_eq by done.
    rewrite (lookup_insert_ne _ nb g), (lookup_insert_ne _ hl g),
      lookup_insert_eq by done.
    split_and!; try done.
    eapply Forall2_impl; [apply Hall|]. intros rl cells Hrl. simpl in Hrl.
    rewrite !lookup_insert_ne; [done|congruence..].
  - done.
  - etrans; [apply Hsub1|]. etrans; [apply Hsub2|].
    etrans; [apply Hsub3|apply Hsub4].
  - unfold footprint, writable. simpl. repeat apply Forall_cons_2.
    + eapply lookup_weaken_None; [apply Hfnb|done].
    + eapply lookup_weaken_None; [apply Hfg|done].
    + eapply lookup_weaken_None; [apply Hfh|done].
    + done.
Qed.

(** A second board made in the store that holds [middle_game]. *)
Lemma heap_new_refines_witness :
  Heap.new (-1) 3 (heap_of middle_game) = Err RangeError /\
  exists nb ly h' b,
    Heap.new 3 3 (heap_of middle_game) = Ok (nb, h') /\ newBoard 3 3 = Ok b /\
    repr_at h' nb ly b /\ NoDup (l_rows ly) /\ heap_of middle_game ⊆ h' /\
    Forall (fun l => heap_of middle_game !! l = None) (footprint nb ly).
Proof.
  split.
  - apply (proj1 (heap_new_refines (-1) 3 (heap_of middle_game))). lia.
  - apply (proj2 (heap_new_refines 3 3 (heap_of middle_game))). lia.
Defined.

(** ** [clone] *)

(** [clone] with what it allocates: the new board object, its array of rows,
    its history array and its row arrays are all addresses that were not in
    use. *)
Lemma heap_clone_fresh (h : heap) (this : loc) (ly : layout) (b : Board) :
  repr_at h this ly b -> wf b ->
  exists nb ly' h', Heap.clone this h = Ok (nb, h') /\
    repr_at h' nb ly' b /\ h ⊆ h' /\
    Forall (fun l => h !! l = None) (footprint nb ly').
Proof.
  intros Hrepr Hwf. unfold Heap.clone.
  rewrite (bind_reading _ _ _ _ (the_board_repr h this ly b Hrepr)).
  destruct (heap_new_spec (size b) (winLength b) h)
    as (nb & h1 & g0 & hl0 & Hnew & Hsub1 & Hnb & Hnb1).
  { destruct Hwf as [<- _]. lia. }
  rewrite (bind_step _ _ _ _ _ Hnew).
  pose proof (repr_at_mono _ _ _ _ _ Hsub1 Hrepr) as Hrepr1.
  rewrite (bind_reading _ _ _ _ (the_grid_repr h1 this ly b Hrepr1)).
  destruct Hrepr as (Hb & Hg & Hh & Hrows & Hnd).
  destruct (map_rows_copy_spec _ _ h h1 Hsub1 Hrows)
    as (rows' & h2 & Hmap & Hsub2 & Hrows' & Hnd' & Hfr).
  rewrite (bind_step _ _ _ _ _ Hmap).
  destruct (alloc_spec (OGrid rows') h2) as (g' & Hg' & Hfg & Hsub3).
  rewrite (bind_step _ _ _ _ _ Hg').
  assert (h ⊆ <[g' := OGrid rows']> h2) as Hsub03
    by (etrans; [apply Hsub1|]; etrans; [apply Hsub2|apply Hsub3]).
  assert (the_hist (<[g' := OGrid rows']> h2) (l_hist ly) = Ok (moveHistory b))
    as Hhist.
  { unfold the_hist. by rewrite (lookup_weaken _ _ _ _ Hh Hsub03). }
  rewrite (bind_reading _ _ _ _ Hhist).
  destruct (alloc_spec (OHist (moveHistory b)) (<[g' := OGrid rows']> h2))
    as (hl' & Hhl' & Hfh & Hsub4).
  rewrite (bind_step _ _ _ _ _ Hhl').
  unfold store. rewrite (bind_step _ _ _ _ _ eq_refl).
  exists nb, (mkLayout g' hl' rows'). eexists. split; [done|].
  pose proof (lookup_weaken _ _ _ _ Hnb1 Hsub2) as Hnb2.
  assert (g' <> nb) as Hgn by congruence.
  assert (hl' <> nb) as Hhn.
  { intros ->. rewrite lookup_insert_ne in Hfh by done. congruence. }
  assert (hl' <> g') as Hhg.
  { intros ->. by rewrite lookup_insert_eq in Hfh. }
  assert (forall rl cells, h2 !! rl = Some (ORow cells) ->
            rl <> nb /\ rl <> g' /\ rl <> hl') as Hrow_ne.
  { intros rl cells Hrl. split_and!; intros ->.
    - congruence.
    - congruence.
    - rewrite lookup_insert_ne in Hfh by done. congruence. }
  split; [|split].
  - unfold repr_at. simpl.
    rewrite lookup_insert_eq.
    rewrite (lookup_insert_ne _ nb g') by done.
    rewrite (lookup_insert_ne _ hl' g') by done.
    rewrite lookup_insert_eq.
    rewrite (lookup_insert_ne _ nb hl') by done.
    rewrite lookup_insert_eq.
    split_and!; try done.
    eapply Forall2_impl; [apply Hrows'|]. intros rl cells Hrl. simpl in Hrl.
    destruct (Hrow_ne _ _ Hrl) as (? & ? & ?).
    by rewrite !lookup_insert_ne by done.
  - apply insert_subseteq_r; [done|]. etrans; [apply Hsub03|apply Hsub4].
  - unfold footprint, writable. simpl. repeat apply Forall_cons_2.
    + done.
    + eapply lookup_weaken_None; [apply Hfg|]. etrans; [apply Hsub1|apply Hsub2].
    + eapply lookup_weaken_None; [apply Hfh|].
      etrans; [apply Hsub1|]. etrans; [apply Hsub2|apply Hsub3].
    + eapply Forall_impl; [apply Hfr|]. intros x Hx. simpl in Hx.
      eapply lookup_weaken_None; [apply Hx|done].
Qed.

(** Every part of a board object is an address in use. *)
Lemma footprint_in_use h this ly b l :
  repr_at h this ly b -> l ∈ footprint this ly -> is_Some (h !! l).
Proof.
  intros (Hb & Hg & Hh & Hrows & _) Hl. unfold footprint, writable in Hl.
  apply elem_of_cons in Hl as [->|Hl]; [by eexists|].
  apply elem_of_cons in Hl as [->|Hl]; [by eexists|].
  apply elem_of_cons in Hl as [->|Hl]; [by eexists|].
  apply list_elem_of_lookup in Hl as [i Hi].
  destruct (Forall2_lookup_l _ _ _ _ _ Hrows Hi) as (cells & _ & Hcells).
  by eexists.
Qed.

(** X13. [clone] returns a new board object holding the same value, and
    the two objects share nothing: whatever [placeMarker] is then called on
    the clone, the original still holds its value, and whatever
    [placeMarker] is called on the original, the clone still holds the
    value that was cloned. *)
Theorem clone_independent (h : heap) (this : loc) (ly : layout) (b : Board) :
  repr_at h this ly b -> wf b ->
  exists nb ly' h1, Heap.clone this h = Ok (nb, h1) /\
    nb <> this /\ repr_at h1 nb ly' b /\ repr_at h1 this ly b /\
    (forall r c p, exists ok b' h2,
       placeMarker b r c p = Ok (ok, b') /\
       Heap.placeMarker nb r c p h1 = Ok (ok, h2) /\
       repr_at h2 nb ly' b' /\ repr_at h2 this ly b) /\
    (forall r c p, exists ok b' h2,
       placeMarker b r c p = Ok (ok, b') /\
       Heap.placeMarker this r c p h1 = Ok (ok, h2) /\
       repr_at h2 this ly b' /\ repr_at h2 nb ly' b).
Proof.
  intros Hrepr Hwf.
  destruct (heap_clone_fresh h this ly b Hrepr Hwf)
    as (nb & ly' & h1 & Hclone & Hrepr1 & Hsub & Hfresh).
  pose proof (repr_at_mono _ _ _ _ _ Hsub Hrepr) as Hrepr0.
  rewrite Forall_forall in Hfresh.
  assert (forall l, l ∈ footprint nb ly' -> l ∉ footprint this ly) as Hdisj.
  { intros l Hnew Hold.
    destruct (footprint_in_use _ _ _ _ _ Hrepr Hold) as [o Ho].
    specialize (Hfresh l Hnew). congruence. }
  exists nb, ly', h1. split_and!; try done.
  - intros ->. apply (Hdisj this); left.
  - intros r c p.
    destruct (heap_placeMarker_sim h1 nb ly' b r c p Hrepr1 Hwf)
      as (ok & b' & h2 & Hv & Hh & Hrepr2 & _ & Hmod).
    exists ok, b', h2. split_and!; try done.
    eapply repr_at_frame; [done..|].
    intros l Hl. apply Hdisj. by do 2 right.
  - intros r c p.
    destruct (heap_placeMarker_sim h1 this ly b r c p Hrepr0 Hwf)
      as (ok & b' & h2 & Hv & Hh & Hrepr2 & _ & Hmod).
    exists ok, b', h2. split_and!; try done.
    eapply repr_at_frame; [done..|].
    intros l Hl Hnew. apply (Hdisj l Hnew). by do 2 right.
Qed.

Lemma clone_independent_witness :
  exists nb ly' h1, Heap.clone 1%positive (heap_of empty_3x3) = Ok (nb, h1) /\
    nb <> 1%positive /\ repr_at h1 nb ly' empty_3x3 /\
    repr_at h1 1%positive (layout_of empty_3x3) empty_3x3 /\
    (forall r c p, exists ok b' h2,
       placeMarker empty_3x3 r c p = Ok (ok, b') /\
       Heap.placeMarker nb r c p h1 = Ok (ok, h2) /\
       repr_at h2 nb ly' b' /\
       repr_at h2 1%positive (layout_of empty_3x3) empty_3x3) /\
    (forall r c p, exists ok b' h2,
       placeMarker empty_3x3 r c p = Ok (ok, b') /\
       Heap.placeMarker 1%positive r c p h1 = Ok (ok, h2) /\
       repr_at h2 1%positive (layout_of empty_3x3) b' /\
       repr_at h2 nb ly' empty_3x3).
Proof.
  apply (clone_independent (heap_of empty_3x3) 1%positive (layout_of empty_3x3)
           empty_3x3 repr_empty_3x3 wf_empty_3x3).
Defined.


(** ** [deserialize] shares the arrays *)

(** X14. [serialize] hands out the grid and the history by reference and
    [deserialize] stores these references: after
    [dst.deserialize(src.serialize())] the two board objects share their
    arrays, so a [placeMarker] on [dst] at a free cell also changes what
    [src] holds: both then hold the board with the marker placed and the
    move appended. *)
Theorem restore_shares_arrays (h : heap) (src dst : loc) (ly : layout)
    (b : Board) (r c : Z) (p : string) :
  repr_at h src ly b -> wf b -> is_ok (the_board h dst) -> free b r c ->
  exists h1 h2, restore src dst h = Ok (tt, h1) /\
    Heap.placeMarker dst r c p h1 = Ok (true, h2) /\
    repr_at h2 dst ly (placed b r c p) /\
    repr_at h2 src ly (placed b r c p).
Proof.
  intros Hrepr Hwf [d0 Hdst] Hfree.
  assert (exists h1, restore src dst h = Ok (tt, h1) /\
            repr_at h1 dst ly b /\ repr_at h1 src ly b)
    as (h1 & Hres & Hdst1 & Hsrc1).
  { unfold restore, Heap.serialize.
    rewrite (bind_reading _ _ _ _ (the_board_repr h src ly b Hrepr)).
    unfold Heap.deserialize. rewrite Hdst. simpl.
    eexists. split; [done|].
    destruct Hrepr as (Hb & Hg & Hh & Hrows & Hnd).
    assert (exists s w g hl cp, h !! dst = Some (OBoard s w g hl cp)) as Hd.
    { unfold the_board in Hdst. destruct (h !! dst) as [[]|]; try done.
      by eexists _, _, _, _, _. }
    destruct Hd as (s & w & g & hl & cp & Hd).
    assert (forall rl cells, h !! rl = Some (ORow cells) -> dst <> rl)
      as Hrow by congruence.
    split.
    - unfold repr_at. rewrite lookup_insert_eq.
      rewrite !lookup_insert_ne by congruence. split_and!; try done.
      eapply Forall2_impl; [done|]. intros rl cells Hrl. simpl in Hrl.
      rewrite lookup_insert_ne; [done|]. by eapply Hrow.
    - unfold repr_at. rewrite !(lookup_insert_ne _ dst (l_grid ly)) by congruence.
      rewrite !(lookup_insert_ne _ dst (l_hist ly)) by congruence.
      split_and!; try done.
      + destruct (decide (dst = src)) as [->|Hne].
        * by rewrite lookup_insert_eq.
        * by rewrite lookup_insert_ne.
      + eapply Forall2_impl; [done|]. intros rl cells Hrl. simpl in Hrl.
        rewrite lookup_insert_ne; [done|]. by eapply Hrow. }
  destruct (heap_placeMarker_free h1 dst ly b r c p Hdst1 Hwf Hfree)
    as (h2 & Hpl & Hdst2 & Hmod).
  exists h1, h2. split_and!; try done.
  destruct Hdst2 as (_ & Hg2 & Hh2 & Hrows2 & Hnd2).
  destruct Hsrc1 as (Hb1 & Hg1 & Hh1 & Hrows1 & _).
  split_and!; try done.
  rewrite Hmod; [done|]. unfold writable. intros Hin.
  apply elem_of_cons in Hin as [->|Hin]; [congruence|].
  apply list_elem_of_lookup in Hin as [i Hi].
  destruct (Forall2_lookup_l _ _ _ _ _ Hrows1 Hi) as (cells & _ & Hcells).
  congruence.
Qed.

(** The empty 3 by 3 board at address 1 and a second board object at 20. *)
Definition board_and_spare : heap :=
  <[20%positive := OBoard 3 3 21%positive 22%positive MARK_O]> (heap_of empty_3x3).

Lemma repr_board_and_spare :
  repr_at board_and_spare 1%positive (layout_of empty_3x3) empty_3x3.
Proof.
  unfold repr_at. split_and!; try by vm_compute.
  - repeat constructor.
  - apply (bool_decide_unpack _). by vm_compute.
Defined.

Lemma restore_shares_arrays_witness :
  exists h1 h2, restore 1%positive 20%positive board_and_spare = Ok (tt, h1) /\
    Heap.placeMarker 20%positive 1 1 MARK_X h1 = Ok (true, h2) /\
    repr_at h2 20%positive (layout_of empty_3x3) (placed empty_3x3 1 1 MARK_X) /\
    repr_at h2 1%positive (layout_of empty_3x3) (placed empty_3x3 1 1 MARK_X).
Proof.
  apply (restore_shares_arrays board_and_spare 1%positive 20%positive
           (layout_of empty_3x3) empty_3x3 1 1 MARK_X
           repr_board_and_spare wf_empty_3x3).
  - eexists. by vm_compute.
  - apply free_empty_3x3.
Defined.


(** * Further properties of the engine *)

(** ** The constructor *)

(** X15. [new AI(marker, difficulty)] keeps the marker; the opponent marker
    is O or X and never the engine's own marker, whatever string the marker
    is; the depth bound is between 1 and 4 for every difficulty string, and
    2 for a string that is none of the four names. *)
Theorem newAI_spec (m d : string) :
  marker (newAI m d) = m /\
  opponentMarker (newAI m d) <> m /\
  valid_marker (opponentMarker (newAI m d)) /\
  1 <= maxDepth (newAI m d) <= 4 /\
  (d <> "easy"%string -> d <> "medium"%string -> d <> "hard"%string ->
   d <> "master"%string -> maxDepth (newAI m d) = 2).
Proof.
  unfold newAI, getMaxDepthForDifficulty. simpl.
  split; [done|]. split; [case_bool_decide; [by subst|done]|].
  split; [case_bool_decide; [by right|by left]|].
  split; [repeat case_bool_decide; lia|].
  intros. by rewrite !bool_decide_eq_false_2 by done.
Qed.

Lemma newAI_spec_witness :
  marker (newAI "Z" "expert") = "Z"%string /\
  opponentMarker (newAI "Z" "expert") <> "Z"%string /\
  valid_marker (opponentMarker (newAI "Z" "expert")) /\
  1 <= maxDepth (newAI "Z" "expert") <= 4 /\
  maxDepth (newAI "Z" "expert") = 2.
Proof.
  destruct (newAI_spec "Z" "expert") as (H1 & H2 & H3 & H4 & H5).
  split_and!; [exact H1|exact H2|exact H3|apply H4|apply H4|].
  apply H5; discriminate.
Defined.

(** ** The evaluation changes sign with the side *)

(** The engine of the other side. *)
Definition swap_sides (ai : AI) : AI :=
  mkAI (opponentMarker ai) (marker ai) (difficulty ai) (maxDepth ai).

Lemma counts_swap (ai : AI) (line : list (option string)) :
  marker ai <> opponentMarker ai ->
  forall my opp emp,
    fold_left (fun '(my, opp, emp) cell =>
                 if is_str cell (marker (swap_sides ai)) then (my + 1, opp, emp)
                 else if is_str cell (opponentMarker (swap_sides ai))
                      then (my, opp + 1, emp)
                 else (my, opp, emp + 1))
              line (opp, my, emp)
    = (let '(m, o, e) :=
         fold_left (fun '(my, opp, emp) cell =>
                      if is_str cell (marker ai) then (my + 1, opp, emp)
                      else if is_str cell (opponentMarker ai) then (my, opp + 1, emp)
                      else (my, opp, emp + 1))
                   line (my, opp, emp) in
       (o, m, e)).
Proof.
  intros Hne. induction line as [|cell line IH]; intros my opp emp; [done|].
  cbn [fold_left]. cbn [swap_sides marker opponentMarker] in IH |- *.
  destruct (is_str cell (marker ai)) eqn:Hm;
    destruct (is_str cell (opponentMarker ai)) eqn:Ho.
  - unfold is_str in Hm, Ho.
    apply bool_decide_eq_true in Hm, Ho. congruence.
  - apply (IH (my + 1) opp emp).
  - apply (IH my (opp + 1) emp).
  - apply (IH my opp (emp + 1)).
Qed.

Lemma evaluateLine_swap (ai : AI) (line : list (option string)) :
  marker ai <> opponentMarker ai ->
  evaluateLine (swap_sides ai) line = - evaluateLine ai line.
Proof.
  intros Hne. unfold evaluateLine.
  rewrite (counts_swap ai line Hne 0 0 0).
  destruct (fold_left _ line (0, 0, 0)) as [[m o] e].
  repeat case_bool_decide; simpl; lia.
Qed.

Lemma foldM_neg {A} (f g : Z -> A -> res Z) (l : list A) :
  (forall s x, g (- s) x = (z ← f s x; Ok (- z))) ->
  forall s, foldM g (- s) l = (z ← foldM f s l; Ok (- z)).
Proof.
  intros Hfg. induction l as [|x l IH]; intros s; simpl; [done|].
  rewrite Hfg. destruct (f s x) as [z|e]; simpl; [apply IH|done].
Qed.

Section Antisymmetry.
Variable n w : Z.
Variable rd : Z -> Z -> res (option string).
Variable ai : AI.
Hypothesis Hne : marker ai <> opponentMarker ai.

Lemma line_score_neg (s : Z) (at_k : Z -> Z * Z) :
  line_score w rd (swap_sides ai) (- s) at_k
  = (z ← line_score w rd ai s at_k; Ok (- z)).
Proof.
  unfold line_score. destruct (foldM _ _ _) as [line|e]; simpl; [|done].
  rewrite evaluateLine_swap by done. f_equal. lia.
Qed.

Lemma evaluateLines_neg (d : string) :
  evaluateLines_on n w rd (swap_sides ai) d
  = (z ← evaluateLines_on n w rd ai d; Ok (- z)).
Proof.
  unfold evaluateLines_on. repeat case_bool_decide; try done.
  all: apply (foldM_neg _ _ _) with (s := 0); intros s x;
    apply foldM_neg; intros s' y; apply line_score_neg.
Qed.

Lemma evaluateBoard_neg :
  evaluateBoard_on n w rd (swap_sides ai)
  = (z ← evaluateBoard_on n w rd ai; Ok (- z)).
Proof.
  unfold evaluateBoard_on. rewrite !evaluateLines_neg.
  destruct (evaluateLines_on n w rd ai "row") as [r|]; simpl; [|done].
  destruct (evaluateLines_on n w rd ai "col") as [c|]; simpl; [|done].
  destruct (evaluateLines_on n w rd ai "diag") as [d|]; simpl; [|done].
  destruct (evaluateLines_on n w rd ai "anti-diag") as [a|]; simpl; [|done].
  f_equal. lia.
Qed.
End Antisymmetry.

(** X16. The evaluation is antisymmetric in the two sides: for an engine
    whose two markers differ, the engine of the other side evaluates every
    grid to the negative of the score (and raises when it raises).  In
    particular the engines built for O and for X evaluate every grid to
    opposite scores. *)
Theorem evaluateBoard_antisymmetric (n w : Z) (rd : Z -> Z -> res (option string))
    (ai : AI) :
  marker ai <> opponentMarker ai ->
  evaluateBoard_on n w rd (swap_sides ai)
    = (z ← evaluateBoard_on n w rd ai; Ok (- z)) /\
  (forall d, ai = newAI MARK_X d ->
     evaluateBoard_on n w rd (newAI MARK_O d)
     = (z ← evaluateBoard_on n w rd (newAI MARK_X d); Ok (- z))).
Proof.
  intros Hne. split; [by apply evaluateBoard_neg|].
  intros d ->. by apply (evaluateBoard_neg n w rd (newAI MARK_X d)).
Qed.

Lemma evaluateBoard_antisymmetric_witness :
  evaluateBoard_on 3 3 (cell (board middle_game)) (swap_sides (newAI MARK_X "hard"))
    = (z ← evaluateBoard_on 3 3 (cell (board middle_game)) (newAI MARK_X "hard");
       Ok (- z)) /\
  (forall d, newAI MARK_X "hard" = newAI MARK_X d ->
     evaluateBoard_on 3 3 (cell (board middle_game)) (newAI MARK_O d)
     = (z ← evaluateBoard_on 3 3 (cell (board middle_game)) (newAI MARK_X d);
        Ok (- z))).
Proof.
  apply (evaluateBoard_antisymmetric 3 3 (cell (board middle_game))
           (newAI MARK_X "hard")).
  discriminate.
Defined.

(** ** The search gives the store back as it got it *)

(** Two stores that hold the same value at a board object and differ at
    most at its arrays are the same store. *)
Lemma repr_at_modifies_eq (h h' : heap) this ly b :
  repr_at h this ly b -> repr_at h' this ly b ->
  modifies (writable ly) h h' -> h' = h.
Proof.
  intros (_ & _ & Hh & Hrows & _) (_ & _ & Hh' & Hrows' & _) Hmod.
  apply map_eq. intros l.
  destruct (decide (l ∈ writable ly)) as [Hin|Hout]; [|by apply Hmod].
  unfold writable in Hin. apply elem_of_cons in Hin as [->|Hin]; [congruence|].
  apply list_elem_of_lookup in Hin as [i Hi].
  destruct (Forall2_lookup_l _ _ _ _ _ Hrows Hi) as (cells & Hc & Hcells).
  rewrite Hcells. exact (Forall2_lookup_lr _ _ _ _ _ _ Hrows' Hi Hc).
Qed.

(** A placement followed by [undoMove] gives back the very same store. *)
Lemma place_undo_exact (h : heap) this ly b r c p :
  repr_at h this ly b -> wf b -> free b r c ->
  exists h1, Heap.placeMarker this r c p h = Ok (true, h1) /\
    repr_at h1 this ly (placed b r c p) /\
    Heap.undoMove this h1 = Ok (Some (mkMove r c p), h).
Proof.
  intros Hrepr Hwf Hfree.
  destruct (heap_placeMarker_free h this ly b r c p Hrepr Hwf Hfree)
    as (h1 & Hpl & Hrepr1 & Hmod1).
  destruct (heap_undoMove_placed h1 this ly b r c p Hrepr1 Hwf Hfree)
    as (h2 & Hun & Hrepr2 & Hmod2).
  exists h1. split_and!; try done.
  rewrite Hun. do 2 f_equal.
  eapply repr_at_modifies_eq; [done..|]. by eapply modifies_trans.
Qed.

Section Exact.
Context (this : loc) (ly : layout).

Lemma max_loop_exact (prune : bool) (b : Board) (who : string)
    (child : num -> num -> M num) (childV : Cell -> num -> num -> num)
    (cells : list Cell) :
  wf b -> Forall (fun c => free b (row c) (col c)) cells ->
  (forall c alpha beta h, c ∈ cells ->
     repr_at h this ly (placed b (row c) (col c) who) ->
     child alpha beta h = Ok (childV c alpha beta, h)) ->
  forall maxScore alpha beta h, repr_at h this ly b ->
  max_loop prune this who child cells maxScore alpha beta h
  = Ok (max_loopV prune childV cells maxScore alpha beta, h).
Proof.
  intros Hwf Hfree.
  induction Hfree as [|c cells Hc _ IH]; intros Hchild m a be h Hrepr;
    cbn [max_loop max_loopV]; [done|].
  destruct (place_undo_exact h this ly b (row c) (col c) who Hrepr Hwf Hc)
    as (h1 & Hpl & Hrepr1 & Hun).
  rewrite (bind_step _ _ _ _ _ Hpl).
  rewrite (bind_step _ _ _ _ _ (Hchild c a be h1 ltac:(left) Hrepr1)).
  rewrite (bind_step _ _ _ _ _ Hun).
  destruct (prune && num_le be (nmax a (childV c a be))); [done|].
  apply IH; [|done]. intros c' ? ? ? Hc'. apply Hchild. by right.
Qed.

Lemma min_loop_exact (prune : bool) (b : Board) (who : string)
    (child : num -> num -> M num) (childV : Cell -> num -> num -> num)
    (cells : list Cell) :
  wf b -> Forall (fun c => free b (row c) (col c)) cells ->
  (forall c alpha beta h, c ∈ cells ->
     repr_at h this ly (placed b (row c) (col c) who) ->
     child alpha beta h = Ok (childV c alpha beta, h)) ->
  forall minScore alpha beta h, repr_at h this ly b ->
  min_loop prune this who child cells minScore alpha beta h
  = Ok (min_loopV prune childV cells minScore alpha beta, h).
Proof.
  intros Hwf Hfree.
  induction Hfree as [|c cells Hc _ IH]; intros Hchild m a be h Hrepr;
    cbn [min_loop min_loopV]; [done|].
  destruct (place_undo_exact h this ly b (row c) (col c) who Hrepr Hwf Hc)
    as (h1 & Hpl & Hrepr1 & Hun).
  rewrite (bind_step _ _ _ _ _ Hpl).
  rewrite (bind_step _ _ _ _ _ (Hchild c a be h1 ltac:(left) Hrepr1)).
  rewrite (bind_step _ _ _ _ _ Hun).
  destruct (prune && num_le (nmin be (childV c a be)) a); [done|].
  apply IH; [|done]. intros c' ? ? ? Hc'. apply Hchild. by right.
Qed.

Lemma minimax_exact (prune : bool) (ai : AI) (fuel : nat) :
  forall (b : Board) (depth : Z) (isMax : bool) (alpha beta : num) (h : heap),
  wf b -> (Z.to_nat (maxDepth ai - depth) < fuel)%nat ->
  repr_at h this ly b ->
  minimax prune fuel ai this depth isMax alpha beta h
  = Ok (minimaxV prune fuel ai b depth isMax alpha beta, h).
Proof.
  induction fuel as [|fuel IH]; intros b depth isMax alpha beta h Hwf Hfuel Hrepr;
    [lia|]. cbn [minimax minimaxV].
  rewrite (bind_step _ _ _ _ _ (heap_checkWin_wins h this ly b Hrepr Hwf _)).
  destruct (wins b (marker ai)); [done|].
  rewrite (bind_step _ _ _ _ _ (heap_checkWin_wins h this ly b Hrepr Hwf _)).
  destruct (wins b (opponentMarker ai)); [done|].
  rewrite (bind_step _ _ _ _ _ (heap_checkDraw_is_full h this ly b Hrepr Hwf)).
  destruct (is_full b || bool_decide (depth >= maxDepth ai)) eqn:Hcut.
  { by rewrite (bind_step _ _ _ _ _
                  (evaluateBoard_score_of_heap h this ly b Hrepr Hwf ai)). }
  apply orb_false_iff in Hcut as [_ Hdepth%bool_decide_eq_false].
  rewrite (bind_step _ _ _ _ _ (heap_getEmptyCells_empties h this ly b Hrepr Hwf)).
  destruct isMax.
  - apply (max_loop_exact prune b (marker ai)); try done.
    + by apply empties_all_free.
    + intros c a be h1 _ Hrepr1. apply IH; [by apply wf_placed|lia|done].
  - apply (min_loop_exact prune b (opponentMarker ai)); try done.
    + by apply empties_all_free.
    + intros c a be h1 _ Hrepr1. apply IH; [by apply wf_placed|lia|done].
Qed.
End Exact.

(** X17. [minimax], run on a board object that holds a well-formed value
    with fuel above [maxDepth - depth], returns a number (never an
    infinity), and the store it returns is exactly the store it was given:
    every marker it placed is taken back and the history is as before. *)
Theorem minimax_restores_store (h : heap) (this : loc) (ly : layout)
    (b : Board) (prune : bool) (ai : AI) (fuel : nat) (depth : Z)
    (isMax : bool) (alpha beta : num) :
  repr_at h this ly b -> wf b ->
  (Z.to_nat (maxDepth ai - depth) < fuel)%nat ->
  exists s, minimax prune fuel ai this depth isMax alpha beta h = Ok (Fin s, h).
Proof.
  intros Hrepr Hwf Hfuel.
  destruct (minimaxV_fin prune fuel ai b depth isMax alpha beta Hwf) as [s Hs].
  exists s. rewrite <- Hs. by apply (minimax_exact this ly).
Qed.

Lemma minimax_restores_store_witness :
  exists s, minimax true 4 (newAI MARK_X "hard") 1%positive 0 true NegInf PosInf
              (heap_of middle_game) = Ok (Fin s, heap_of middle_game).
Proof.
  apply (minimax_restores_store (heap_of middle_game) 1%positive
           (layout_of middle_game) middle_game true (newAI MARK_X "hard") 4 0
           true NegInf PosInf).
  - unfold repr_at. split_and!; try by vm_compute.
    + repeat constructor.
    + apply (bool_decide_unpack _). by vm_compute.
  - apply wf_middle_game.
  - vm_compute. lia.
Defined.

(** X18. Fail-soft alpha-beta: for a window [alpha < beta], the score [r]
    that [minimax] returns with the cutoffs and the score [v] it returns
    without them and with the full window satisfy: if [r < beta] then
    [v <= r], and if [alpha < r] then [r <= v].  So a result strictly
    inside the window is the exact score. *)
Theorem minimax_window (h : heap) (this : loc) (ly : layout) (b : Board)
    (ai : AI) (fuel : nat) (depth : Z) (isMax : bool) (alpha beta : num) :
  repr_at h this ly b -> wf b ->
  (Z.to_nat (maxDepth ai - depth) < fuel)%nat ->
  num_lt alpha beta = true ->
  exists r v,
    minimax true fuel ai this depth isMax alpha beta h = Ok (r, h) /\
    minimax false fuel ai this depth isMax NegInf PosInf h = Ok (v, h) /\
    within r v alpha beta /\
    (num_lt alpha r = true -> num_lt r beta = true -> r = v).
Proof.
  intros Hrepr Hwf Hfuel Hab.
  exists (minimaxV true fuel ai b depth isMax alpha beta),
         (exact fuel ai b depth isMax).
  pose proof (minimaxV_within fuel ai b depth isMax alpha beta Hab) as Hwithin.
  split_and!.
  - by apply (minimax_exact this ly).
  - by apply (minimax_exact this ly).
  - done.
  - intros Ha Hb. destruct Hwithin as [Hup Hlow].
    apply num_le_antisym; auto.
Qed.

Lemma minimax_window_witness :
  exists r v,
    minimax true 5 (newAI MARK_X "master") 1%positive 0 false
            (Fin (-1000)) (Fin (-500)) (heap_of middle_game)
      = Ok (r, heap_of middle_game) /\
    minimax false 5 (newAI MARK_X "master") 1%positive 0 false
            NegInf PosInf (heap_of middle_game)
      = Ok (v, heap_of middle_game) /\
    within r v (Fin (-1000)) (Fin (-500)) /\
    (num_lt (Fin (-1000)) r = true -> num_lt r (Fin (-500)) = true -> r = v).
Proof.
  apply (minimax_window (heap_of middle_game) 1%positive
           (layout_of middle_game) middle_game (newAI MARK_X "master") 5 0
           false (Fin (-1000)) (Fin (-500))).
  - unfold repr_at. split_and!; try by vm_compute.
    + repeat constructor.
    + apply (bool_decide_unpack _). by vm_compute.
  - apply wf_middle_game.
  - vm_compute. lia.
  - reflexivity.
Defined.

(** ** Which root move the search returns *)

(** [c] is the first cell of [cells] at which [f] is greatest. *)
Definition first_best (f : Cell -> num) (cells : list Cell) (c : Cell) : Prop :=
  exists i, cells !! i = Some c /\
    (forall c', c' ∈ cells -> num_le (f c') (f c) = true) /\
    (forall j c', (j < i)%nat -> cells !! j = Some c' -> num_lt (f c') (f c) = true).

Lemma num_lt_le a b : num_lt a b = true -> num_le a b = true.
Proof. num_crush. Qed.

Lemma num_lt_trans a b c :
  num_lt a b = true -> num_lt b c = true -> num_lt a c = true.
Proof. num_crush. Qed.

Lemma num_lt_false_le a b : num_lt a b = false -> num_le b a = true.
Proof. unfold num_lt. by destruct (num_le b a). Qed.

(** The loop of [makeMinimaxMove]: either no cell beats the score so far and
    the move so far is kept, or the result is the first cell with the
    greatest score, and that score beats the score so far. *)
Lemma best_moveV_inv (f : Cell -> num) (cells : list Cell) :
  forall bs bm,
    (best_moveV f cells bs bm = bm /\
     forall c, c ∈ cells -> num_lt bs (f c) = false) \/
    (exists c, best_moveV f cells bs bm = Pick c /\
       num_lt bs (f c) = true /\ first_best f cells c).
Proof.
  induction cells as [|c cells IH]; intros bs bm; cbn [best_moveV].
  - left. split; [done|]. intros c Hc. inversion Hc.
  - destruct (num_lt bs (f c)) eqn:Hlt.
    + right. destruct (IH (f c) (Pick c)) as [[Heq Hnone]|(c2 & Heq & Hgt & Hfb)].
      * exists c. split; [done|]. split; [done|]. exists 0%nat.
        split; [done|]. split; [|intros; lia].
        intros c' Hc'. apply elem_of_cons in Hc' as [->|Hc'].
        -- apply num_le_refl.
        -- apply num_lt_false_le. by apply Hnone.
      * exists c2. split; [done|]. split; [by eapply num_lt_trans|].
        destruct Hfb as (i & Hi & Hall & Hbefore). exists (S i).
        split; [done|]. split.
        -- intros c' Hc'. apply elem_of_cons in Hc' as [->|Hc'].
           ++ by apply num_lt_le.
           ++ by apply Hall.
        -- intros [|j] c' Hj Hc'.
           ++ injection Hc' as <-. done.
           ++ apply (Hbefore j); [lia|done].
    + destruct (IH bs bm) as [[Heq Hnone]|(c2 & Heq & Hgt & Hfb)].
      * left. split; [done|]. intros c' Hc'.
        apply elem_of_cons in Hc' as [->|Hc']; [done|by apply Hnone].
      * right. exists c2. split; [done|]. split; [done|].
        destruct Hfb as (i & Hi & Hall & Hbefore). exists (S i).
        apply num_lt_false_le in Hlt.
        split; [done|]. split.
        -- intros c' Hc'. apply elem_of_cons in Hc' as [->|Hc'].
           ++ apply num_lt_le. by eapply num_le_lt_trans.
           ++ by apply Hall.
        -- intros [|j] c' Hj Hc'.
           ++ injection Hc' as <-. by eapply num_le_lt_trans.
           ++ apply (Hbefore j); [lia|done].
Qed.

(** X19. When the search tier is used (more than one empty cell, and at
    most [size * size - 3] of them), [makeMinimaxMove] returns the first
    empty cell, in row-major order, whose depth-limited minimax score
    (computed without cutoffs) is greatest: every empty cell scores at most
    as much and every earlier empty cell scores strictly less. *)
Theorem search_picks_first_best (h : heap) (board : loc) (ly : layout)
    (b : Board) (ai : AI) (fuel : nat) (u : Q) :
  repr_at h board ly b -> wf b -> 0 < size b ->
  (Z.to_nat (maxDepth ai) < fuel)%nat ->
  (1 < length (empties b))%nat ->
  Z.of_nat (length (empties b)) <= size b * size b - 3 ->
  exists c h', makeMinimaxMove true fuel ai board u h = Ok (Pick c, h') /\
    first_best (root_score false fuel ai b) (empties b) c.
Proof.
  intros Hrepr Hwf Hsize Hfuel Hmany Hfew.
  destruct (makeMinimaxMove_spec h board ly b Hrepr Hwf Hsize true fuel ai u Hfuel)
    as (h' & Hmm & _).
  unfold minimax_choice in Hmm.
  rewrite !bool_decide_eq_false_2 in Hmm by lia.
  rewrite (best_moveV_ext _ _ _ (root_score_prune fuel ai b)) in Hmm.
  destruct (best_moveV_inv (root_score false fuel ai b) (empties b) NegInf Null)
    as [[_ Hnone]|(c & Heq & _ & Hfb)].
  - exfalso. destruct (empties b) as [|c cells] eqn:He; [simpl in Hmany; lia|].
    specialize (Hnone c ltac:(left)).
    destruct (minimaxV_fin false fuel ai
                (placed b (row c) (col c) (marker ai)) 0 false NegInf PosInf)
      as [z Hz]; [by apply wf_placed|].
    unfold root_score in Hnone. rewrite Hz in Hnone. done.
  - exists c, h'. split; [by rewrite <- Heq|done].
Qed.

Lemma search_picks_first_best_witness :
  exists c h', makeMinimaxMove true 5 (newAI MARK_X "master") 1%positive (1 # 2)
                 (heap_of middle_game) = Ok (Pick c, h') /\
    first_best (root_score false 5 (newAI MARK_X "master") middle_game)
               (empties middle_game) c.
Proof.
  apply (search_picks_first_best (heap_of middle_game) 1%positive
           (layout_of middle_game) middle_game (newAI MARK_X "master") 5 (1 # 2)).
  - unfold repr_at. split_and!; try by vm_compute.
    + repeat constructor.
    + apply (bool_decide_unpack _). by vm_compute.
  - apply wf_middle_game.
  - reflexivity.
  - vm_compute. lia.
  - vm_compute. lia.
  - vm_compute. discriminate.
Defined.

(** ** The random tier *)

(** For [u = m / 2^26] the index is [m * n / 2^26], integer division. *)
Lemma random_index_dyadic (m : Z) (n : nat) :
  random_index (m # 67108864) n = (m * Z.of_nat n) / 2 ^ 26.
Proof.
  unfold random_index, Qfloor, Qmult, inject_Z. cbn [Qnum Qden].
  by rewrite Pos.mul_1_r.
Qed.

(** For every index [i] below [n <= 2^26] a numerator [m] below 2^26 hits
    it: the least [m] with [i * 2^26 <= m * n]. *)
Lemma dyadic_hit (i n : Z) :
  0 <= i < n -> n <= 2 ^ 26 ->
  let m := (i * 2 ^ 26 + n - 1) / n in
  0 <= m < 2 ^ 26 /\ m * n < n * 2 ^ 26 /\ (m * n) / 2 ^ 26 = i.
Proof.
  intros Hi Hn m.
  pose proof (Z.div_mod (i * 2 ^ 26 + n - 1) n ltac:(lia)) as Hdiv.
  pose proof (Z.mod_pos_bound (i * 2 ^ 26 + n - 1) n ltac:(lia)) as Hmod.
  fold m in Hdiv.
  change (2 ^ 26) with 67108864 in *.
  assert (i * 67108864 <= n * m < i * 67108864 + 67108864) as Hnm by lia.
  assert (0 <= m < 67108864) as Hm by nia.
  split; [done|]. split; [nia|].
  symmetry. apply (Z.div_unique _ _ _ (m * n - i * 67108864)); lia.
Qed.

(** X20. [makeRandomMove] can return every empty cell.  On a board of size
    at most 4096, for each cell that is inside the grid and empty there is a
    numerator [m] below 2^26 such that the cell is returned when
    [Math.random()] returns [m / 2^26]; the store is not written.  That
    number is a binary64 number in [0, 1), and its product with the number
    [n] of empty cells is [m * n / 2^26] with [m * n] below 2^53, a
    binary64 number as well: the product the code computes is the exact
    one. *)
Theorem makeRandomMove_reaches_every_cell (h : heap) (board : loc)
    (ly : layout) (b : Board) (c : Cell) :
  repr_at h board ly b -> wf b -> size b <= 4096 -> free b (row c) (col c) ->
  exists (m : Z) (cells : list Cell),
    getEmptyCells b = Ok cells /\
    0 <= m < 2 ^ 26 /\ m * Z.of_nat (length cells) < 2 ^ 53 /\
    makeRandomMove board (m # 67108864) h = Ok (Pick c, h).
Proof.
  intros Hrepr Hwf Hsize Hfree.
  apply (elem_of_empties b Hwf), list_elem_of_lookup in Hfree as [i Hi].
  pose proof (lookup_lt_Some _ _ _ Hi) as Hlt.
  pose proof (empties_count b Hwf) as Hcount.
  assert (0 <= size b) as Hsize0 by (destruct Hwf as [<- _]; lia).
  assert (Z.of_nat (length (empties b)) <= 4096 * 4096) as Hn by nia.
  destruct (dyadic_hit (Z.of_nat i) (Z.of_nat (length (empties b))))
    as (Hm & Hprod & Hidx); [lia|change (2 ^ 26) with 67108864; lia|].
  set (m := (Z.of_nat i * 2 ^ 26 + Z.of_nat (length (empties b)) - 1)
            / Z.of_nat (length (empties b))) in *.
  exists m, (empties b). split; [by apply getEmptyCells_empties|].
  split; [done|]. split.
  - change (2 ^ 26) with 67108864 in Hprod. change (2 ^ 53) with 9007199254740992.
    lia.
  - rewrite (makeRandomMove_spec h board ly b Hrepr Hwf). do 2 f_equal.
    unfold random_cell. rewrite bool_decide_eq_false_2 by lia.
    rewrite random_index_dyadic, Hidx.
    unfold pick_at, idx. rewrite decide_True by lia.
    by rewrite Nat2Z.id, Hi.
Qed.

Lemma makeRandomMove_reaches_every_cell_witness :
  exists (m : Z) (cells : list Cell),
    getEmptyCells middle_game = Ok cells /\
    0 <= m < 2 ^ 26 /\ m * Z.of_nat (length cells) < 2 ^ 53 /\
    makeRandomMove 1%positive (m # 67108864) (heap_of middle_game)
    = Ok (Pick (mkCell 1 2), heap_of middle_game).
Proof.
  apply (makeRandomMove_reaches_every_cell (heap_of middle_game) 1%positive
           (layout_of middle_game) middle_game (mkCell 1 2)
           repr_middle_game wf_middle_game).
  - simpl. lia.
  - unfold free. simpl. split_and!; [lia..|reflexivity].
Defined.

(** ** The heuristic tier *)

(** Placing [who] at the empty cell [c] makes [checkWin(who)] true. *)
Definition wins_at (b : Board) (who : string) (c : Cell) : Prop :=
  free b (row c) (col c) /\
  checkWin (placed b (row c) (col c) who) who = Ok true.

Lemma winning_cell_Some (b : Board) (who : string) (c : Cell) :
  wf b -> winning_cell b who = Some c -> wins_at b who c.
Proof.
  intros Hwf Hfind. unfold winning_cell in Hfind.
  apply List.find_some in Hfind as [Hin Hw].
  split; [by apply (elem_of_empties b Hwf), list_elem_of_In|].
  rewrite (checkWin_wins _ (wf_placed b _ _ who Hwf)). by rewrite Hw.
Qed.

Lemma winning_cell_None (b : Board) (who : string) (c : Cell) :
  wf b -> winning_cell b who = None -> ~ wins_at b who c.
Proof.
  intros Hwf Hfind [Hfree Hwin]. unfold winning_cell in Hfind.
  apply (elem_of_empties b Hwf), list_elem_of_In in Hfree.
  pose proof (List.find_none _ _ Hfind c Hfree) as Hw. simpl in Hw.
  rewrite (checkWin_wins _ (wf_placed b _ _ who Hwf)) in Hwin. congruence.
Qed.

(** X21. The heuristic tier never passes over a win in one move: if some
    empty cell wins for the engine, [makeMediumMove] returns a cell that
    wins for the engine.  If no cell does but some empty cell would win for
    the opponent, it returns a cell at which the opponent would win. *)
Theorem medium_wins_or_blocks (h : heap) (board : loc) (ly : layout)
    (b : Board) (ai : AI) (u : Q) :
  repr_at h board ly b -> wf b -> 0 < size b ->
  ((exists c, wins_at b (marker ai) c) ->
   exists c h', makeMediumMove ai board u h = Ok (Pick c, h') /\
     wins_at b (marker ai) c) /\
  ((forall c, ~ wins_at b (marker ai) c) ->
   (exists c, wins_at b (opponentMarker ai) c) ->
   exists c h', makeMediumMove ai board u h = Ok (Pick c, h') /\
     wins_at b (opponentMarker ai) c).
Proof.
  intros Hrepr Hwf Hsize.
  destruct (makeMediumMove_spec h board ly b Hrepr Hwf ai u Hsize)
    as (h' & Hmed & _).
  unfold cascade in Hmed. split.
  - intros [c0 Hc0].
    destruct (winning_cell b (marker ai)) as [c|] eqn:Hwin.
    + exists c, h'. split; [done|]. by apply winning_cell_Some.
    + by destruct (winning_cell_None b (marker ai) c0 Hwf Hwin).
  - intros Hnone [c0 Hc0].
    destruct (winning_cell b (marker ai)) as [c|] eqn:Hwin.
    { by destruct (Hnone c (winning_cell_Some b _ c Hwf Hwin)). }
    destruct (winning_cell b (opponentMarker ai)) as [c|] eqn:Hblock.
    + exists c, h'. split; [done|]. by apply winning_cell_Some.
    + by destruct (winning_cell_None b (opponentMarker ai) c0 Hwf Hblock).
Qed.

(** Two X, then two O, in the top row of the 3 by 3 board. *)
Definition two_in_a_row (p : string) : Board :=
  placed (placed empty_3x3 0 0 p) 0 1 p.

Lemma wf_two_in_a_row (p : string) : wf (two_in_a_row p).
Proof. split; [reflexivity|]. repeat constructor. Defined.

Lemma repr_two_in_a_row_X :
  repr_at (heap_of (two_in_a_row MARK_X)) 1%positive
          (layout_of (two_in_a_row MARK_X)) (two_in_a_row MARK_X).
Proof.
  unfold repr_at. split_and!; try by vm_compute.
  - repeat constructor.
  - apply (bool_decide_unpack _). by vm_compute.
Defined.

Lemma repr_two_in_a_row_O :
  repr_at (heap_of (two_in_a_row MARK_O)) 1%positive
          (layout_of (two_in_a_row MARK_O)) (two_in_a_row MARK_O).
Proof.
  unfold repr_at. split_and!; try by vm_compute.
  - repeat constructor.
  - apply (bool_decide_unpack _). by vm_compute.
Defined.

Lemma wins_at_top_right (p : string) :
  p = MARK_X \/ p = MARK_O -> wins_at (two_in_a_row p) p (mkCell 0 2).
Proof.
  intros [-> | ->]; (split; [|reflexivity]); unfold free; simpl;
    (split_and!; [lia..|reflexivity]).
Defined.

Lemma medium_wins_or_blocks_witness :
  (exists c h', makeMediumMove (newAI MARK_X "medium") 1%positive (1 # 2)
                  (heap_of (two_in_a_row MARK_X)) = Ok (Pick c, h') /\
     wins_at (two_in_a_row MARK_X) MARK_X c) /\
  (exists c h', makeMediumMove (newAI MARK_X "medium") 1%positive (1 # 2)
                  (heap_of (two_in_a_row MARK_O)) = Ok (Pick c, h') /\
     wins_at (two_in_a_row MARK_O) MARK_O c).
Proof.
  split.
  - apply (proj1 (medium_wins_or_blocks (heap_of (two_in_a_row MARK_X)) 1%positive
             (layout_of (two_in_a_row MARK_X)) (two_in_a_row MARK_X)
             (newAI MARK_X "medium") (1 # 2)
             repr_two_in_a_row_X (wf_two_in_a_row MARK_X) eq_refl)).
    exists (mkCell 0 2). apply wins_at_top_right. by left.
  - apply (proj2 (medium_wins_or_blocks (heap_of (two_in_a_row MARK_O)) 1%positive
             (layout_of (two_in_a_row MARK_O)) (two_in_a_row MARK_O)
             (newAI MARK_X "medium") (1 # 2)
             repr_two_in_a_row_O (wf_two_in_a_row MARK_O) eq_refl)).
    + intros c. apply winning_cell_None; [apply wf_two_in_a_row|reflexivity].
    + exists (mkCell 0 2). apply wins_at_top_right. by right.
Defined.

(** * The settings and the game loop

    [UI] holds the two settings; [Game] holds the board, the two flags of
    the outcome and the statistics.  The answers of the menus
    ([readlineSync.keyInSelect], which with [cancel: false] returns an index
    into the options it was given) and the coordinates the player typed are
    arguments.  Printing is left out.  Of a turn only the path on which the
    player typed coordinates is modelled: the commands save, load, hint,
    stats and quit, which read and write files or go back to the menus, are
    not. *)

Module UI.

Record t : Type := mk { boardSize : Z; winLength : Z }.

(** [new UI()] *)
Definition new : t := mk 5 4.

(** [showSettingsMenu()]: [index] is the answer of the first menu,
    [choice] the answer of the menu that follows for the entries 0 and 1.
    The object returned has the two fields of [this] after the call. *)
Definition showSettingsMenu (this : t) (index choice : Z) : t :=
  if bool_decide (index = 0) then
    let boardSize := choice + 3 in
    mk boardSize (Z.min (winLength this) boardSize)
  else if bool_decide (index = 1) then
    mk (boardSize this) (choice + 3)
  else this.

(** The number of entries of [winOptions]: one for each [i] from 3 to
    [boardSize]. *)
Definition winOptions_length (this : t) : Z := Z.max 0 (boardSize this - 2).

(** The two tests that the integers [row] and [col] parsed from the input
    pass before [getPlayerMove(board)] returns them as [{ row, col }]: the
    position is in range and its cell is empty.  Until they pass,
    [getPlayerMove] asks again. *)
Definition getPlayerMove_accepts (b : Board) (row col : Z) : res bool :=
  if bool_decide (row < 0) || bool_decide (row >= size b)
     || bool_decide (col < 0) || bool_decide (col >= size b)
  then Ok false
  else
    v ← cell (board b) row col;
    Ok (is_str v EMPTY).

End UI.

(** The statistics: four counters, integers. *)
Record Stats : Type := mkStats {
  oWins : Z;
  xWins : Z;
  draws : Z;
  totalGames : Z
}.

(** The counters are below 2^53 in absolute value.  There [++] on the
    binary64 number adds exactly one; from 2^53 on it would not (2^53 + 1
    is rounded back to 2^53), and what is stated of [updateStats] is stated
    for counters in this range. *)
Definition exact_counter (x : Z) : Prop := - 2 ^ 53 < x < 2 ^ 53.

Definition exact_stats (s : Stats) : Prop :=
  exact_counter (oWins s) /\ exact_counter (xWins s) /\
  exact_counter (draws s) /\ exact_counter (totalGames s).

Module Game.

Record t : Type := mk {
  ui : UI.t;
  stats : Stats;
  board : Board;
  gameOver : bool;
  winner : option string       (* [None] is [null] *)
}.

(** [updateSettings(settings)] *)
Definition updateSettings (this : t) (settings : UI.t) : t :=
  mk (UI.mk (UI.boardSize settings) (UI.winLength settings))
     (stats this) (board this) (gameOver this) (winner this).

(** Entry 1 of the main menu: [updateSettings(ui.showSettingsMenu())]. *)
Definition settings (this : t) (index choice : Z) : t :=
  let ui' := UI.showSettingsMenu (ui this) index choice in
  updateSettings (mk ui' (stats this) (board this) (gameOver this) (winner this))
                 ui'.

(** [resetGame()], on the fields above. *)
Definition resetGame (this : t) : res t :=
  b ← newBoard (UI.boardSize (ui this)) (UI.winLength (ui this));
  Ok (mk (ui this) (stats this) b false None).

Definition checkGameStatus (this : t) : res t :=
  w ← checkWin (board this) (currentPlayer (board this));
  if w : bool then
    Ok (mk (ui this) (stats this) (board this) true
           (Some (currentPlayer (board this))))
  else
    d ← checkDraw (board this);
    if d : bool then Ok (mk (ui this) (stats this) (board this) true None)
    else Ok this.

(** The end of [handlePlayerTurn()], after the [switch] over the commands:
    the two statements reached when [getPlayerMove] returned the
    coordinates [move] and not a command. *)
Definition handlePlayerTurn_coordinates (this : t) (move : Cell) : res t :=
  '(_, b) ← placeMarker (board this) (row move) (col move)
                        (currentPlayer (board this));
  checkGameStatus (mk (ui this) (stats this) b (gameOver this) (winner this)).

(** One pass of the loop of [startGame()] in a game of two players, when
    the player typed the coordinates [move]. *)
Definition startGame_step (this : t) (move : Cell) : res t :=
  g ← handlePlayerTurn_coordinates this move;
  if gameOver g then Ok g
  else Ok (mk (ui g) (stats g) (switchPlayer (board g)) (gameOver g) (winner g)).

(** [updateStats()]; the second component is the argument of
    [storage.saveStats] when it is called.  [x++] is [x + 1], which is what
    the code computes for counters that satisfy [exact_counter]. *)
Definition updateStats (this : t) : t * option Stats :=
  if negb (gameOver this) then (this, None)
  else
    let s := stats this in
    let totalGames := totalGames s + 1 in
    let s' :=
      if bool_decide (winner this = Some MARK_O)
      then mkStats (oWins s + 1) (xWins s) (draws s) totalGames
      else if bool_decide (winner this = Some MARK_X)
      then mkStats (oWins s) (xWins s + 1) (draws s) totalGames
      else mkStats (oWins s) (xWins s) (draws s + 1) totalGames in
    (mk (ui this) s' (board this) (gameOver this) (winner this), Some s').

End Game.

(** ** The settings *)

(** The settings reached from [new UI()] through the settings menu, with
    answers that are indices of the options shown. *)
Inductive configured : Game.t -> Prop :=
| configured_new st b over win :
    configured (Game.mk UI.new st b over win)
| configured_menu g index choice :
    configured g ->
    0 <= index < 4 ->
    (index = 0 -> 0 <= choice < 5) ->
    (index = 1 -> 0 <= choice < UI.winOptions_length (Game.ui g)) ->
    configured (Game.settings g index choice).

(** X22. Whatever is chosen in the settings menu, the settings stay within
    [3 <= winLength <= boardSize <= 7]; so [resetGame] never raises, and the
    board it makes is well formed, has O to move, and its win length is
    between 1 and its size, which is what the characterisation of
    [checkWin] by runs needs. *)
Theorem settings_invariant (g : Game.t) :
  configured g ->
  3 <= UI.winLength (Game.ui g) <= UI.boardSize (Game.ui g) /\
  UI.boardSize (Game.ui g) <= 7 /\
  exists g', Game.resetGame g = Ok g' /\
    wf (Game.board g') /\
    size (Game.board g') = UI.boardSize (Game.ui g) /\
    winLength (Game.board g') = UI.winLength (Game.ui g) /\
    1 <= winLength (Game.board g') <= size (Game.board g') /\
    currentPlayer (Game.board g') = MARK_O /\
    Game.gameOver g' = false /\ Game.winner g' = None.
Proof.
  intros Hconf.
  assert (3 <= UI.winLength (Game.ui g) <= UI.boardSize (Game.ui g) /\
          UI.boardSize (Game.ui g) <= 7) as Hinv.
  { induction Hconf as [st b over win | g index choice _ IH Hindex H0 H1].
    - simpl. lia.
    - unfold Game.settings, Game.updateSettings, UI.showSettingsMenu,
        UI.winOptions_length in *.
      cbn [Game.ui UI.boardSize UI.winLength].
      case_bool_decide as Hsize.
      { specialize (H0 Hsize). cbn [UI.boardSize UI.winLength]. lia. }
      case_bool_decide as Hwin; [|done].
      specialize (H1 Hwin). cbn [UI.boardSize UI.winLength]. lia. }
  split; [apply Hinv|]. split; [apply Hinv|].
  assert (exists b, newBoard (UI.boardSize (Game.ui g)) (UI.winLength (Game.ui g))
                    = Ok b) as [b Hnew].
  { unfold newBoard, array_fill. rewrite decide_True by lia. simpl.
    rewrite decide_True by lia. by eexists. }
  unfold Game.resetGame. rewrite Hnew. simpl. eexists. split; [done|].
  pose proof (newBoard_wf _ _ _ Hnew) as Hwf.
  apply newBoard_inv in Hnew as [_ ->]. simpl.
  split_and!; try done; lia.
Qed.

(** The game after the board size 7 by 7 is chosen in the settings menu. *)
Definition game_7x7 : Game.t :=
  Game.settings (Game.mk UI.new (mkStats 0 0 0 0) empty_3x3 false None) 0 4.

Lemma settings_invariant_witness :
  3 <= UI.winLength (Game.ui game_7x7) <= UI.boardSize (Game.ui game_7x7) /\
  UI.boardSize (Game.ui game_7x7) <= 7 /\
  exists g', Game.resetGame game_7x7 = Ok g' /\
    wf (Game.board g') /\
    size (Game.board g') = UI.boardSize (Game.ui game_7x7) /\
    winLength (Game.board g') = UI.winLength (Game.ui game_7x7) /\
    1 <= winLength (Game.board g') <= size (Game.board g') /\
    currentPlayer (Game.board g') = MARK_O /\
    Game.gameOver g' = false /\ Game.winner g' = None.
Proof.
  apply (settings_invariant game_7x7).
  apply configured_menu; [apply configured_new|lia|intros _; lia|discriminate].
Defined.

(** ** The outcome of a turn *)

Lemma full_iff_no_free (b : Board) :
  wf b -> (is_full b = true <-> forall r c, ~ free b r c).
Proof.
  intros Hwf. split.
  - intros Hfull r c Hfree.
    pose proof (is_full_true b Hwf Hfull) as Hnil.
    assert (mkCell r c ∈ empties b) as Hin by (by apply (elem_of_empties b Hwf)).
    rewrite Hnil in Hin. inversion Hin.
  - intros Hnone. destruct (is_full b) eqn:Hfull; [done|].
    pose proof (is_full_false b Hwf Hfull) as Hne.
    destruct (empties b) as [|c cells] eqn:He; [done|].
    assert (c ∈ empties b) as Hin by (rewrite He; left).
    apply (elem_of_empties b Hwf) in Hin. by destruct (Hnone _ _ Hin).
Qed.

(** [checkGameStatus] on values. *)
Lemma checkGameStatus_value (g : Game.t) :
  wf (Game.board g) ->
  Game.checkGameStatus g
  = Ok (if wins (Game.board g) (currentPlayer (Game.board g))
        then Game.mk (Game.ui g) (Game.stats g) (Game.board g) true
                     (Some (currentPlayer (Game.board g)))
        else if is_full (Game.board g)
        then Game.mk (Game.ui g) (Game.stats g) (Game.board g) true None
        else g).
Proof.
  intros Hwf. unfold Game.checkGameStatus.
  rewrite (checkWin_wins _ Hwf). simpl.
  destruct (wins _ _); [done|].
  rewrite (checkDraw_is_full _ Hwf). simpl. by destruct (is_full _).
Qed.

(** X23. [checkGameStatus] looks at the player to move only, and at a win
    before a draw: if that player has a run the game is over with that
    player as winner, also when the grid is full; if not and no cell is
    free the game is over without a winner; otherwise nothing changes.  It
    raises nothing and never changes the board. *)
Theorem checkGameStatus_spec (g : Game.t) :
  wf (Game.board g) ->
  1 <= winLength (Game.board g) <= size (Game.board g) ->
  exists g', Game.checkGameStatus g = Ok g' /\
    Game.board g' = Game.board g /\ Game.stats g' = Game.stats g /\
    (has_run (Game.board g) (currentPlayer (Game.board g)) ->
       Game.gameOver g' = true /\
       Game.winner g' = Some (currentPlayer (Game.board g))) /\
    (~ has_run (Game.board g) (currentPlayer (Game.board g)) ->
       (forall r c, ~ free (Game.board g) r c) ->
       Game.gameOver g' = true /\ Game.winner g' = None) /\
    (~ has_run (Game.board g) (currentPlayer (Game.board g)) ->
       (exists r c, free (Game.board g) r c) -> g' = g).
Proof.
  intros Hwf Hwl. rewrite (checkGameStatus_value g Hwf).
  pose proof (wins_iff_has_run (Game.board g) (currentPlayer (Game.board g))
                Hwf Hwl) as Hrun.
  pose proof (full_iff_no_free (Game.board g) Hwf) as Hfull.
  eexists. split; [done|].
  destruct (wins _ _).
  - simpl. split_and!; try done; intros Hno; destruct Hno; by apply Hrun.
  - assert (~ has_run (Game.board g) (currentPlayer (Game.board g))) as Hno.
    { intros H. by apply Hrun in H. }
    destruct (is_full _).
    + simpl. split_and!; try done.
      intros _ (r & c & Hfree). destruct (proj1 Hfull eq_refl r c Hfree).
    + split_and!; try done.
      intros _ Hnone. by apply Hfull in Hnone.
Qed.

Lemma checkGameStatus_spec_witness :
  exists g', Game.checkGameStatus
               (Game.mk UI.new (mkStats 0 0 0 0) middle_game false None) = Ok g' /\
    Game.board g' = middle_game /\ Game.stats g' = mkStats 0 0 0 0 /\
    (has_run middle_game (currentPlayer middle_game) ->
       Game.gameOver g' = true /\
       Game.winner g' = Some (currentPlayer middle_game)) /\
    (~ has_run middle_game (currentPlayer middle_game) ->
       (forall r c, ~ free middle_game r c) ->
       Game.gameOver g' = true /\ Game.winner g' = None) /\
    (~ has_run middle_game (currentPlayer middle_game) ->
       (exists r c, free middle_game r c) ->
       g' = Game.mk UI.new (mkStats 0 0 0 0) middle_game false None).
Proof.
  apply (checkGameStatus_spec
           (Game.mk UI.new (mkStats 0 0 0 0) middle_game false None)
           wf_middle_game).
  simpl. lia.
Defined.

(** ** The statistics *)

(** X24. [updateStats] does nothing and saves nothing while the game is
    not over.  When it is over and the four counters are below 2^53 in
    absolute value (where [++] is exact), the number of games and exactly
    one of the three counters go up by one: the wins of O or of X when the
    winner is that marker, the draws for every other winner, [null]
    included; the new statistics are what is saved; and if the number of
    games was the sum of the three counters it still is. *)
Theorem updateStats_spec (g : Game.t) :
  (Game.gameOver g = false -> Game.updateStats g = (g, None)) /\
  (Game.gameOver g = true -> exact_stats (Game.stats g) ->
   exists s', Game.updateStats g
                = (Game.mk (Game.ui g) s' (Game.board g) true (Game.winner g),
                   Some s') /\
     totalGames s' = totalGames (Game.stats g) + 1 /\
     oWins s' + xWins s' + draws s'
       = oWins (Game.stats g) + xWins (Game.stats g) + draws (Game.stats g) + 1 /\
     (Game.winner g = Some MARK_O -> oWins s' = oWins (Game.stats g) + 1) /\
     (Game.winner g = Some MARK_X -> xWins s' = xWins (Game.stats g) + 1) /\
     (Game.winner g <> Some MARK_O -> Game.winner g <> Some MARK_X ->
        draws s' = draws (Game.stats g) + 1) /\
     (totalGames (Game.stats g)
        = oWins (Game.stats g) + xWins (Game.stats g) + draws (Game.stats g) ->
      totalGames s' = oWins s' + xWins s' + draws s')).
Proof.
  unfold Game.updateStats. split; [intros Hover|intros Hover _];
    rewrite Hover; simpl; [done|].
  eexists. split; [done|].
  unfold MARK_O, MARK_X in *.
  repeat case_bool_decide; simpl; split_and!; intros; try done; try lia;
    congruence.
Qed.

(** A game that X has won, with three games played before. *)
Definition won_by_X : Game.t :=
  Game.mk (UI.mk 3 3) (mkStats 2 1 0 3) top_row_3x3 true (Some MARK_X).

Lemma updateStats_spec_witness :
  exists s', Game.updateStats won_by_X
               = (Game.mk (Game.ui won_by_X) s' (Game.board won_by_X) true
                          (Game.winner won_by_X),
                  Some s') /\
    totalGames s' = totalGames (Game.stats won_by_X) + 1 /\
    oWins s' + xWins s' + draws s'
      = oWins (Game.stats won_by_X) + xWins (Game.stats won_by_X)
        + draws (Game.stats won_by_X) + 1 /\
    (Game.winner won_by_X = Some MARK_O ->
       oWins s' = oWins (Game.stats won_by_X) + 1) /\
    (Game.winner won_by_X = Some MARK_X ->
       xWins s' = xWins (Game.stats won_by_X) + 1) /\
    (Game.winner won_by_X <> Some MARK_O -> Game.winner won_by_X <> Some MARK_X ->
       draws s' = draws (Game.stats won_by_X) + 1) /\
    (totalGames (Game.stats won_by_X)
       = oWins (Game.stats won_by_X) + xWins (Game.stats won_by_X)
         + draws (Game.stats won_by_X) ->
     totalGames s' = oWins s' + xWins s' + draws s').
Proof.
  apply (proj2 (updateStats_spec won_by_X)); [reflexivity|].
  unfold exact_stats, exact_counter. simpl. lia.
Defined.

(** ** A game of two players *)

Lemma holds_placed_other (b : Board) (p q : string) (r c r' c' : Z) :
  wf b -> free b r c -> q <> p ->
  holds (placed b r c p) q r' c' -> holds b q r' c'.
Proof.
  intros Hwf (Hr & Hc & _) Hne (Hr' & Hc' & Hcell).
  change (cell (put (board b) r c p) r' c' = Ok (Some q)) in Hcell.
  rewrite (cell_put (size b)) in Hcell by done.
  split_and!; try (simpl in *; lia).
  case_decide; [congruence|done].
Qed.

Lemma has_run_placed_other (b : Board) (p q : string) (r c : Z) :
  wf b -> free b r c -> q <> p ->
  has_run (placed b r c p) q -> has_run b q.
Proof.
  intros Hwf Hfree Hne (r0 & c0 & Hrun). exists r0, c0.
  destruct Hrun as [H|[H|[H|H]]];
    [left|right; left|right; right; left|right; right; right];
    intros k Hk; eapply holds_placed_other; try done; by apply H.
Qed.

Lemma no_run_new (n w : Z) (b : Board) (q : string) :
  newBoard n w = Ok b -> 1 <= w -> q <> EMPTY -> ~ has_run b q.
Proof.
  intros [Hn ->]%newBoard_inv Hw Hq (r & c & Hrun).
  destruct Hrun as [H|[H|[H|H]]];
    destruct (H 0 ltac:(simpl; lia)) as (Hr & Hc & Hcell); simpl in Hr, Hc, Hcell;
    rewrite cell_new in Hcell by lia; congruence.
Qed.

(** On a well-formed board [getPlayerMove] returns exactly the cells that
    are inside the grid and empty. *)
Lemma getPlayerMove_accepts_free (b : Board) (r c : Z) :
  wf b -> (UI.getPlayerMove_accepts b r c = Ok true <-> free b r c).
Proof.
  intros Hwf. unfold UI.getPlayerMove_accepts, free.
  destruct (decide (0 <= r < size b /\ 0 <= c < size b)) as [[Hr Hc]|Hout].
  - rewrite !bool_decide_eq_false_2 by lia. simpl.
    destruct (cell_in_range b r c Hwf Hr Hc) as [s Hs]. rewrite Hs. simpl.
    unfold is_str. split.
    + intros [= Heq%bool_decide_eq_true]. split; [done|]. split; [done|].
      congruence.
    + intros (_ & _ & [= ->]). by rewrite bool_decide_eq_true_2.
  - split; [|tauto].
    destruct (bool_decide (r < 0)) eqn:E1; [done|].
    destruct (bool_decide (r >= size b)) eqn:E2; [done|].
    destruct (bool_decide (c < 0)) eqn:E3; [done|].
    destruct (bool_decide (c >= size b)) eqn:E4; [done|].
    apply bool_decide_eq_false in E1, E2, E3, E4. lia.
Qed.

(** One pass of the loop on values: the placement succeeds, then the three
    cases of [checkGameStatus]. *)
Lemma startGame_step_value (g : Game.t) (move : Cell) :
  wf (Game.board g) -> Game.gameOver g = false ->
  free (Game.board g) (row move) (col move) ->
  placeMarker (Game.board g) (row move) (col move) (currentPlayer (Game.board g))
  = Ok (true, placed (Game.board g) (row move) (col move)
                     (currentPlayer (Game.board g))) /\
  Game.startGame_step g move
  = Ok (let b1 := placed (Game.board g) (row move) (col move)
                         (currentPlayer (Game.board g)) in
        if wins b1 (currentPlayer (Game.board g))
        then Game.mk (Game.ui g) (Game.stats g) b1 true
                     (Some (currentPlayer (Game.board g)))
        else if is_full b1
        then Game.mk (Game.ui g) (Game.stats g) b1 true None
        else Game.mk (Game.ui g) (Game.stats g) (switchPlayer b1) false
                     (Game.winner g)).
Proof.
  intros Hwf Hover Hfree.
  pose proof (placeMarker_free _ _ _ (currentPlayer (Game.board g)) Hwf Hfree)
    as Hpl.
  split; [done|].
  unfold Game.startGame_step, Game.handlePlayerTurn_coordinates.
  rewrite Hpl. simpl.
  rewrite checkGameStatus_value by (by apply wf_placed). simpl.
  destruct (wins _ _); [done|]. destruct (is_full _); [done|].
  simpl. by rewrite Hover.
Qed.

(** What the two flags say about the board. *)
Definition outcome_ok (g : Game.t) : Prop :=
  if Game.gameOver g then
    match Game.winner g with
    | Some p =>
        p = currentPlayer (Game.board g) /\ valid_marker p /\
        has_run (Game.board g) p /\
        forall q, q <> EMPTY -> q <> p -> ~ has_run (Game.board g) q
    | None =>
        (forall r c, ~ free (Game.board g) r c) /\
        forall q, q <> EMPTY -> ~ has_run (Game.board g) q
    end
  else
    (exists r c, free (Game.board g) r c) /\
    forall q, q <> EMPTY -> ~ has_run (Game.board g) q.

(** The states of a game of two players on a new [n] by [n] board in which
    the players type coordinates and no command: the loop of [startGame]
    runs while the game is not over, and each pass gets a cell that
    [getPlayerMove] returns. *)
Inductive played (n w : Z) : Game.t -> Prop :=
| played_start u st b :
    newBoard n w = Ok b -> played n w (Game.mk u st b false None)
| played_coordinates g move g' :
    played n w g -> Game.gameOver g = false ->
    UI.getPlayerMove_accepts (Game.board g) (row move) (col move) = Ok true ->
    Game.startGame_step g move = Ok g' -> played n w g'.

Lemma played_inv (n w : Z) (g : Game.t) :
  1 <= w <= n -> played n w g ->
  wf (Game.board g) /\ size (Game.board g) = n /\ winLength (Game.board g) = w /\
  valid_marker (currentPlayer (Game.board g)) /\ outcome_ok g.
Proof.
  intros Hw. induction 1 as [u st b Hnew | g move g' _ IH Hover Hacc Hstep].
  - pose proof (newBoard_wf _ _ _ Hnew) as Hwf. unfold outcome_ok. simpl.
    split; [done|].
    split; [by apply newBoard_inv in Hnew as [_ ->]|].
    split; [by apply newBoard_inv in Hnew as [_ ->]|].
    split; [apply newBoard_inv in Hnew as [_ ->]; by left|].
    split.
    + exists 0, 0. apply newBoard_inv in Hnew as [_ ->]. unfold free. simpl.
      split; [lia|]. split; [lia|]. apply cell_new; lia.
    + intros q Hq. eapply no_run_new; [done|lia|done].
  - destruct IH as (Hwf & Hsize & Hwl & Hvalid & Hout).
    unfold outcome_ok in Hout. rewrite Hover in Hout. destruct Hout as [_ Hout].
    apply (getPlayerMove_accepts_free _ _ _ Hwf) in Hacc.
    destruct (startGame_step_value g move Hwf Hover Hacc) as (_ & Hval).
    rewrite Hval in Hstep. injection Hstep as <-.
    set (cp := currentPlayer (Game.board g)) in *.
    set (b1 := placed (Game.board g) (row move) (col move) cp) in *.
    assert (wf b1) as Hwf1 by (by apply wf_placed).
    assert (forall q, q <> EMPTY -> q <> cp -> ~ has_run b1 q) as Hother.
    { intros q Hq Hne Hrun. apply (Hout q Hq).
      by eapply has_run_placed_other. }
    pose proof (wins_iff_has_run b1 cp Hwf1 ltac:(simpl; lia)) as Hrun.
    pose proof (full_iff_no_free b1 Hwf1) as Hfull.
    unfold outcome_ok. cbv zeta.
    destruct (wins b1 cp) eqn:Hwins; [|destruct (is_full b1) eqn:Hf]; simpl.
    + do 4 (split; [done|]).
      split; [done|]. split; [done|]. split; [by apply Hrun|done].
    + assert (~ has_run b1 cp) as Hno by (intros H; by apply Hrun in H).
      do 4 (split; [done|]).
      split; [by apply Hfull|].
      intros q Hq. destruct (decide (q = cp)) as [->|Hne]; [done|by apply Hother].
    + assert (~ has_run b1 cp) as Hno by (intros H; by apply Hrun in H).
      do 3 (split; [done|]). split; [|split].
      * fold cp. destruct Hvalid as [Hv | Hv]; rewrite Hv; [by right|by left].
      * pose proof (is_full_false b1 Hwf1 Hf) as Hne.
        destruct (empties b1) as [|c cells] eqn:He; [done|].
        assert (c ∈ empties b1) as Hin by (rewrite He; left).
        apply (elem_of_empties b1 Hwf1) in Hin. by exists (row c), (col c).
      * intros q Hq. change (~ has_run b1 q).
        destruct (decide (q = cp)) as [->|Hne]; [done|by apply Hother].
Qed.

(** X25. In a game of two players on a new board with
    [1 <= winLength <= size], as long as the players type coordinates and
    no command: every cell that [getPlayerMove] returns is placed
    ([placeMarker] returns [true]) and the pass of the loop returns; while
    the game is not over some cell is free and nobody has a run; when it is
    over with a winner, the winner is O or X, is the player who moved last
    and has a run, and the other player has none; when it is over without a
    winner, no cell is free and nobody has a run. *)
Theorem two_player_outcome (n w : Z) (g : Game.t) :
  1 <= w <= n -> played n w g ->
  outcome_ok g /\
  (Game.gameOver g = false ->
   forall move,
     UI.getPlayerMove_accepts (Game.board g) (row move) (col move) = Ok true ->
     exists b' g',
       placeMarker (Game.board g) (row move) (col move)
                   (currentPlayer (Game.board g)) = Ok (true, b') /\
       Game.startGame_step g move = Ok g' /\ played n w g').
Proof.
  intros Hw Hplayed.
  destruct (played_inv n w g Hw Hplayed) as (Hwf & _ & _ & _ & Hout).
  split; [done|]. intros Hover move Hacc.
  pose proof (proj1 (getPlayerMove_accepts_free _ _ _ Hwf) Hacc) as Hfree.
  destruct (startGame_step_value g move Hwf Hover Hfree) as (Hpl & Hval).
  eexists. eexists. split; [exact Hpl|]. split; [exact Hval|].
  by eapply played_coordinates.
Qed.

(** A game on the 3 by 3 board: O (0,0), X (1,0), O (0,1), X (1,1), and
    then O (0,2), which completes the top row. *)
Definition pass (g : Game.t) (row col : Z) : Game.t :=
  match Game.startGame_step g (mkCell row col) with
  | Ok g' => g'
  | Err _ => g
  end.

Definition game_start : Game.t :=
  Game.mk (UI.mk 3 3) (mkStats 0 0 0 0) empty_3x3 false None.

Definition game_after_4 : Game.t :=
  pass (pass (pass (pass game_start 0 0) 1 0) 0 1) 1 1.

Definition game_won_by_O : Game.t := pass game_after_4 0 2.

Lemma played_game_after_4 : played 3 3 game_after_4.
Proof.
  apply (played_coordinates 3 3 (pass (pass (pass game_start 0 0) 1 0) 0 1)
           (mkCell 1 1)); [|reflexivity..].
  apply (played_coordinates 3 3 (pass (pass game_start 0 0) 1 0) (mkCell 0 1));
    [|reflexivity..].
  apply (played_coordinates 3 3 (pass game_start 0 0) (mkCell 1 0));
    [|reflexivity..].
  apply (played_coordinates 3 3 game_start (mkCell 0 0)); [|reflexivity..].
  by apply played_start.
Defined.

Lemma played_game_won_by_O : played 3 3 game_won_by_O.
Proof.
  apply (played_coordinates 3 3 game_after_4 (mkCell 0 2));
    [apply played_game_after_4|reflexivity..].
Defined.

Lemma two_player_outcome_witness :
  (outcome_ok game_after_4 /\
   (Game.gameOver game_after_4 = false ->
    forall move,
      UI.getPlayerMove_accepts (Game.board game_after_4) (row move) (col move)
        = Ok true ->
      exists b' g',
        placeMarker (Game.board game_after_4) (row move) (col move)
                    (currentPlayer (Game.board game_after_4)) = Ok (true, b') /\
        Game.startGame_step game_after_4 move = Ok g' /\ played 3 3 g')) /\
  (outcome_ok game_won_by_O /\
   (Game.gameOver game_won_by_O = false ->
    forall move,
      UI.getPlayerMove_accepts (Game.board game_won_by_O) (row move) (col move)
        = Ok true ->
      exists b' g',
        placeMarker (Game.board game_won_by_O) (row move) (col move)
                    (currentPlayer (Game.board game_won_by_O)) = Ok (true, b') /\
        Game.startGame_step game_won_by_O move = Ok g' /\ played 3 3 g')).
Proof.
  split.
  - apply (two_player_outcome 3 3 game_after_4); [lia|apply played_game_after_4].
  - apply (two_player_outcome 3 3 game_won_by_O); [lia|apply played_game_won_by_O].
Defined.

(** The game above ends with O as winner. *)
Example game_won_by_O_flags :
  Game.gameOver game_after_4 = false /\
  Game.gameOver game_won_by_O = true /\ Game.winner game_won_by_O = Some MARK_O.
Proof. by vm_compute. Qed.
